(** * Farfield post-processing of fmmax: a shallow embedding of [fmmax/farfield.py]

    The module reshapes flux computed on a Brillouin-zone grid crossed with a
    Fourier expansion into a dense reciprocal-space grid ([unflatten] and its
    two adapters), converts transverse wavevectors into propagation angles and
    solid angles, integrates flux over an angular region ([integrated_flux])
    and turns flux into power per unit solid angle ([farfield_profile]).

    Modelling conventions.
    - An n-dimensional array is a shape together with an index function on
      multi-indices; [jnp.transpose] and [jnp.reshape] become re-indexings.
    - Python exceptions are results in an error monad ([AssertionError] for a
      failed [assert], [ValueError] for [min]/[max] of an empty sequence).
    - Integer index arithmetic is carried out in [Z], as numpy does on int64
      values far from the wrap-around.
    - A floating-point number is an exact real number, an infinity or NaN:
      the IEEE special values are kept, rounding and overflow are not
      modelled, and zero is unsigned.
    - The Brillouin-zone axes sit in their canonical place, directly before
      the order axis ([brillouin_grid_axes = (-4, -3)] for flux), so that the
      axis permutations computed from [brillouin_grid_axes] are fixed
      re-indexings; arrays combined elementwise are read at the same batch
      index (broadcasting of size-one batch axes is not modelled).
    - [basis.transverse_wavevectors(in_plane_wavevector, lattice, expansion)]
      belongs to a collaborator module; its result, the flat transverse
      wavevector array, is an input of the model. *)

From Stdlib Require Import ZArith List Bool Lia Arith Reals Lra.
Import ListNotations.

Set Implicit Arguments.

(** ** Exceptions *)

Inductive error : Type :=
| AssertionError
| ValueError.

Inductive result (A : Type) : Type :=
| Ok (a : A)
| Err (e : error).

Arguments Ok {A} a.
Arguments Err {A} e.

Definition bind {A B : Type} (c : result A) (k : A -> result B) : result B :=
  match c with
  | Ok a => k a
  | Err e => Err e
  end.

Notation "x <- c ;; k" := (bind c (fun x => k))
  (at level 61, c at next level, right associativity).

Definition assert (b : bool) : result unit :=
  if b then Ok tt else Err AssertionError.

(** ** Arrays and expansions *)

Record ndarray (V : Type) : Type := mk_ndarray {
  shape : list nat;
  get : list nat -> V
}.

Definition ndim {V : Type} (a : ndarray V) : nat := length (shape a).

(** [basis.Expansion]: the retained Fourier orders, one integer pair per term. *)
Record Expansion : Type := mk_Expansion {
  basis_coefficients : list (Z * Z)
}.

Definition num_terms (e : Expansion) : nat := length (basis_coefficients e).

(** Python's builtin [max] and [min] on a sequence of integers. *)
Definition py_max (l : list Z) : result Z :=
  match l with
  | [] => Err ValueError
  | x :: tl => Ok (fold_left Z.max tl x)
  end.

Definition py_min (l : list Z) : result Z :=
  match l with
  | [] => Err ValueError
  | x :: tl => Ok (fold_left Z.min tl x)
  end.

(** Negative indexing: [idx[:-n]], [idx[-n:]] and [idx[-n]]. *)
Definition drop_last {A : Type} (n : nat) (idx : list A) : list A :=
  firstn (length idx - n) idx.

Definition last_n {A : Type} (n : nat) (idx : list A) : list A :=
  skipn (length idx - n) idx.

Definition from_end (n : nat) (idx : list nat) : nat :=
  nth (length idx - n) idx 0.

(** ** The unflatten engine *)

(** Index normalisation of [x.at[...].set]: a negative index counts from the
    end, and an update whose index is still out of bounds is dropped. *)
Definition norm_index (dim : nat) (z : Z) : option nat :=
  let z' := if (z <? 0)%Z then (z + Z.of_nat dim)%Z else z in
  if ((0 <=? z')%Z && (z' <? Z.of_nat dim)%Z)%bool then Some (Z.to_nat z') else None.

(** The Brillouin-zone meshgrid crossed with the order axis, flattened in
    row-major order: entry [(x, y, k)] of an array of shape [(nx, ny, nt)]. *)
Definition positions (nx ny nt : nat) : list (nat * nat * nat) :=
  flat_map (fun x => flat_map (fun y => map (fun k => (x, y, k)) (seq 0 nt)) (seq 0 ny))
           (seq 0 nx).

(** The index arithmetic of [unflatten]: the extent of the output grid and
    the arrays [merged_i], [merged_j] of shape [(bz0, bz1, num_terms)], given
    as functions of the entry [(x, y, k)] ([bz_i[x, y] = x] and
    [bz_j[x, y] = y] for a meshgrid with ij indexing). *)
Record index_plan : Type := mk_plan {
  out_H : nat;
  out_W : nat;
  merged_i : nat * nat * nat -> Z;
  merged_j : nat * nat * nat -> Z
}.

Definition merged_indices (bz0 bz1 : nat) (expansion : Expansion) : result index_plan :=
  let i := map fst (basis_coefficients expansion) in
  let j := map snd (basis_coefficients expansion) in
  max_i <- py_max i ;;
  min_i <- py_min i ;;
  max_j <- py_max j ;;
  min_j <- py_min j ;;
  let offset_i := (min_i * Z.of_nat bz0)%Z in
  let offset_j := (min_j * Z.of_nat bz1)%Z in
  Ok {| out_H := Z.to_nat ((max_i - min_i + 1) * Z.of_nat bz0);
        out_W := Z.to_nat ((max_j - min_j + 1) * Z.of_nat bz1);
        merged_i := fun '(x, _, k) => (nth k i 0 * Z.of_nat bz0 + Z.of_nat x - offset_i)%Z;
        merged_j := fun '(_, y, k) => (nth k j 0 * Z.of_nat bz1 + Z.of_nat y - offset_j)%Z |}.

Section Unflatten.

Variable V : Type.
Variable nan : V.

(** One batch element of [jnp.full(shape, jnp.nan)]. *)
Definition full : nat -> nat -> V := fun _ _ => nan.

Definition at_set (H W : nat) (g : nat -> nat -> V) (r c : Z) (v : V)
  : nat -> nat -> V :=
  match norm_index H r, norm_index W c with
  | Some r', Some c' => fun X Y => if ((X =? r') && (Y =? c'))%bool then v else g X Y
  | _, _ => g
  end.

(** [g.at[..., si, sj].set(vals)] on one batch element, updates applied in
    index order. *)
Fixpoint scatter (H W : nat) (g : nat -> nat -> V) (si sj : list Z) (vals : list V)
  : nat -> nat -> V :=
  match si, sj, vals with
  | r :: si', c :: sj', v :: vals' => scatter H W (at_set H W g r c v) si' sj' vals'
  | _, _, _ => g
  end.

Definition unflatten (flat : ndarray V) (expansion : Expansion)
  : result (ndarray V) :=
  _ <- assert (3 <=? ndim flat) ;;
  _ <- assert (from_end 1 (shape flat) =? num_terms expansion) ;;
  let batch_shape := drop_last 3 (shape flat) in
  let bz0 := from_end 3 (shape flat) in
  let bz1 := from_end 2 (shape flat) in
  plan <- merged_indices bz0 bz1 expansion ;;
  let ps := positions bz0 bz1 (num_terms expansion) in
  let stacked_i := map (merged_i plan) ps in
  let stacked_j := map (merged_j plan) ps in
  Ok {| shape := batch_shape ++ [out_H plan; out_W plan];
        get := fun idx =>
          let b := drop_last 2 idx in
          let stacked_flat := map (fun '(x, y, k) => get flat (b ++ [x; y; k])) ps in
          scatter (out_H plan) (out_W plan) full stacked_i stacked_j stacked_flat
                  (from_end 2 idx) (from_end 1 idx) |}.

End Unflatten.

(** ** Floating-point values *)

Inductive val : Type :=
| Num (r : R)
| PInf
| NInf
| NaN.

Definition isnan (v : val) : bool :=
  match v with NaN => true | _ => false end.

(** Conversion of a number to a condition: everything but zero is true. *)
Definition truthy (v : val) : bool :=
  match v with
  | Num r => if Req_dec_T r 0 then false else true
  | _ => true
  end.

Definition vneg (v : val) : val :=
  match v with
  | Num r => Num (- r)
  | PInf => NInf
  | NInf => PInf
  | NaN => NaN
  end.

Definition vadd (a b : val) : val :=
  match a, b with
  | Num x, Num y => Num (x + y)
  | NaN, _ | _, NaN => NaN
  | PInf, NInf | NInf, PInf => NaN
  | PInf, _ | _, PInf => PInf
  | NInf, _ | _, NInf => NInf
  end.

Definition vsub (a b : val) : val := vadd a (vneg b).

(** An infinity [i] times the finite number [r]. *)
Definition scale_inf (r : R) (i : val) : val :=
  if Req_dec_T r 0 then NaN else if Rlt_dec 0 r then i else vneg i.

Definition vmul (a b : val) : val :=
  match a, b with
  | Num x, Num y => Num (x * y)
  | NaN, _ | _, NaN => NaN
  | Num x, i => scale_inf x i
  | i, Num y => scale_inf y i
  | PInf, PInf | NInf, NInf => PInf
  | PInf, NInf | NInf, PInf => NInf
  end.

Definition vdiv (a b : val) : val :=
  match a, b with
  | Num x, Num y =>
      if Req_dec_T y 0
      then (if Req_dec_T x 0 then NaN else if Rlt_dec 0 x then PInf else NInf)
      else Num (x / y)
  | NaN, _ | _, NaN => NaN
  | Num _, _ => Num 0
  | i, Num y => if Rlt_dec y 0 then vneg i else i
  | _, _ => NaN
  end.

Definition vsqrt (a : val) : val :=
  match a with
  | Num x => if Rlt_dec x 0 then NaN else Num (sqrt x)
  | PInf => PInf
  | _ => NaN
  end.

Definition vabs (a : val) : val :=
  match a with
  | Num x => Num (Rabs x)
  | NaN => NaN
  | _ => PInf
  end.

Definition vasin (a : val) : val :=
  match a with
  | Num x => if Rle_dec (-1) x then (if Rle_dec x 1 then Num (asin x) else NaN) else NaN
  | _ => NaN
  end.

Definition vcos (a : val) : val :=
  match a with
  | Num x => Num (cos x)
  | _ => NaN
  end.

(** [a > b]; a comparison with NaN is false. *)
Definition vgt (a b : val) : bool :=
  match a, b with
  | Num x, Num y => if Rlt_dec y x then true else false
  | PInf, Num _ | PInf, NInf | Num _, NInf => true
  | _, _ => false
  end.

(** The two-argument arctangent, with values in [(-PI, PI]]. *)
Definition atan2 (y x : R) : R :=
  if Rlt_dec 0 x then atan (y / x)
  else if Rlt_dec x 0
       then (if Rle_dec 0 y then atan (y / x) + PI else atan (y / x) - PI)
       else if Rlt_dec 0 y then PI / 2
            else if Rlt_dec y 0 then - (PI / 2) else 0.

Definition varctan2 (y x : val) : val :=
  match y, x with
  | Num b, Num a => Num (atan2 b a)
  | NaN, _ | _, NaN => NaN
  | Num b, PInf => Num 0
  | Num b, NInf => if Rle_dec 0 b then Num PI else Num (- PI)
  | PInf, Num _ => Num (PI / 2)
  | NInf, Num _ => Num (- (PI / 2))
  | PInf, PInf => Num (PI / 4)
  | PInf, NInf => Num (3 * PI / 4)
  | NInf, PInf => Num (- (PI / 4))
  | NInf, NInf => Num (- (3 * PI / 4))
  end.

(** Complex numbers, as far as [jnp.angle(kx + 1j * ky)] needs them. *)
Definition cplx : Type := (val * val)%type.

Definition of_float (a : val) : cplx := (a, Num 0).

Definition cadd (a b : cplx) : cplx := (vadd (fst a) (fst b), vadd (snd a) (snd b)).

Definition cmul (a b : cplx) : cplx :=
  (vsub (vmul (fst a) (fst b)) (vmul (snd a) (snd b)),
   vadd (vmul (fst a) (snd b)) (vmul (snd a) (fst b))).

Definition angle (z : cplx) : val := varctan2 (snd z) (fst z).

(** [jnp.sum] over a list of entries, and over [range(n)]. *)
Definition vsum_list {A : Type} (l : list A) (f : A -> val) : val :=
  fold_left (fun acc a => vadd acc (f a)) l (Num 0).

Definition vsum (n : nat) (f : nat -> val) : val := vsum_list (seq 0 n) f.

Definition Rsum_list {A : Type} (l : list A) (f : A -> R) : R :=
  fold_left (fun acc a => (acc + f a)%R) l 0%R.

Definition Rsum (n : nat) (f : nat -> R) : R := Rsum_list (seq 0 n) f.

Definition ones (sh : list nat) : ndarray val :=
  {| shape := sh; get := fun _ => Num 1 |}.

(** [jnp.where(jnp.isnan(a), 0, a)] *)
Definition nan_to_zero (a : ndarray val) : ndarray val :=
  {| shape := shape a;
     get := fun idx => if isnan (get a idx) then Num 0 else get a idx |}.

(** A real-valued array seen as a floating-point array. *)
Definition of_real (a : ndarray R) : ndarray val :=
  {| shape := shape a; get := fun idx => Num (get a idx) |}.

(** ** Shape utilities *)

(** Modelled from the spec: [utils.atleast_nd(array, n)] of the collaborator
    module [utils], which left-pads singleton leading dimensions until the
    rank is [n]. *)
Definition atleast_nd {V : Type} (x : ndarray V) (n : nat) : ndarray V :=
  if ndim x <? n
  then {| shape := repeat 1 (n - ndim x) ++ shape x;
          get := fun idx => get x (skipn (n - ndim x) idx) |}
  else x.

(** [jnp.squeeze(a, (ax, ax + 1))]: both axes must have length one. *)
Definition squeeze2 {V : Type} (a : ndarray V) (ax : nat) : result (ndarray V) :=
  if ((S ax <? ndim a) && (nth ax (shape a) 0 =? 1) && (nth (S ax) (shape a) 0 =? 1))%bool
  then Ok {| shape := firstn ax (shape a) ++ skipn (S (S ax)) (shape a);
             get := fun idx => get a (firstn ax idx ++ [0; 0] ++ skipn ax idx) |}
  else Err ValueError.

(** ** Linear resampling, [jax.image.resize(_, _, method="linear")]

    Along every axis whose length changes the image is contracted with a
    weight matrix: a triangle kernel centred on the half-pixel sample position,
    normalised over the input samples; an axis that keeps its length is left
    alone. *)

Definition triangle_kernel (x : R) : R := Rmax 0 (1 - Rabs x).

Definition float32_eps : R := (/ 2 ^ 23)%R.

Definition compute_weight (n_in n_out x X : nat) : R :=
  let scale := if n_out =? 0 then 1%R else (INR n_out / INR n_in)%R in
  let inv_scale := (1 / scale)%R in
  let sample_f := ((INR X + / 2) * inv_scale - / 2)%R in
  let weight := fun x' => triangle_kernel (Rabs (sample_f - INR x')) in
  let total := Rsum n_in weight in
  let normalised :=
    if Rlt_dec (1000 * float32_eps) (Rabs total)
    then (weight x / (if Req_dec_T total 0 then 1 else total))%R
    else 0%R in
  if Rle_dec (- / 2) sample_f
  then (if Rle_dec sample_f (INR n_in - / 2) then normalised else 0%R)
  else 0%R.

(** Contraction of one axis of length [n_in] into entry [X] of the resized
    axis, and its transpose. *)
Definition contract (n_in n_out X : nat) (f : nat -> val) : val :=
  if n_in =? n_out then f X
  else vsum n_in (fun x => vmul (f x) (Num (compute_weight n_in n_out x X))).

Definition contract_T (n_in n_out x : nat) (f : nat -> val) : val :=
  if n_in =? n_out then f x
  else vsum n_out (fun X => vmul (f X) (Num (compute_weight n_in n_out x X))).

(** Resize of the two grid axes that are followed by [tail] further axes. *)
Definition resize_linear (tail : nat) (a : ndarray val) (new_H new_W : nat) : ndarray val :=
  let H := from_end (tail + 2) (shape a) in
  let W := from_end (tail + 1) (shape a) in
  {| shape := drop_last (tail + 2) (shape a) ++ [new_H; new_W] ++ last_n tail (shape a);
     get := fun idx =>
       let b := drop_last (tail + 2) idx in
       let t := last_n tail idx in
       contract H new_H (from_end (tail + 2) idx) (fun x =>
         contract W new_W (from_end (tail + 1) idx) (fun y =>
           get a (b ++ [x; y] ++ t))) |}.

(** The transpose of [resize_linear], mapping a cotangent of the resized array
    (grid extent [new_H] by [new_W]) to one of the original array. *)
Definition resize_linear_T (tail : nat) (ct : ndarray val) (H W : nat) : ndarray val :=
  let new_H := from_end (tail + 2) (shape ct) in
  let new_W := from_end (tail + 1) (shape ct) in
  {| shape := drop_last (tail + 2) (shape ct) ++ [H; W] ++ last_n tail (shape ct);
     get := fun idx =>
       let b := drop_last (tail + 2) idx in
       let t := last_n tail idx in
       contract_T W new_W (from_end (tail + 1) idx) (fun Y =>
         contract_T H new_H (from_end (tail + 2) idx) (fun X =>
           get ct (b ++ [X; Y] ++ t))) |}.

(** ** Angles and solid angles *)

Definition angles_from_unflattened_transverse_wavevectors
  (transverse_wavevectors wavelength : ndarray val)
  : result (ndarray val * ndarray val) :=
  _ <- assert (Z.of_nat (ndim transverse_wavevectors) - 3 =? Z.of_nat (ndim wavelength))%Z ;;
  let kx := fun idx => get transverse_wavevectors (idx ++ [0]) in
  let ky := fun idx => get transverse_wavevectors (idx ++ [1]) in
  let kt := fun idx => vsqrt (vadd (vmul (kx idx) (kx idx)) (vmul (ky idx) (ky idx))) in
  let sin_polar_angle := fun idx =>
    vdiv (vmul (kt idx) (get wavelength (drop_last 2 idx))) (Num (2 * PI)) in
  let polar_angle := fun idx =>
    if vgt (sin_polar_angle idx) (Num 1)
    then Num (PI / 2)
    else vasin (sin_polar_angle idx) in
  let azimuthal_angle := fun idx =>
    angle (cadd (of_float (kx idx)) (cmul (Num 0, Num 1) (of_float (ky idx)))) in
  let sh := drop_last 1 (shape transverse_wavevectors) in
  Ok ({| shape := sh; get := polar_angle |}, {| shape := sh; get := azimuthal_angle |}).

(** [jnp.pad(_, 1, mode="edge")] along one axis of length [n]: the source
    index of padded index [r]. *)
Definition edge_index (n r : nat) : nat := Nat.min (n - 1) (r - 1).

Definition solid_angle_from_unflattened_transverse_wavevectors
  (transverse_wavevectors wavelength : ndarray val) : result (ndarray val) :=
  _ <- assert (3 <=? ndim transverse_wavevectors) ;;
  let N := from_end 3 (shape transverse_wavevectors) in
  let M := from_end 2 (shape transverse_wavevectors) in
  let k0 := fun idx => vdiv (Num (2 * PI)) (get wavelength (drop_last 2 idx)) in
  let kx := fun idx => vdiv (get transverse_wavevectors (idx ++ [0])) (k0 idx) in
  let ky := fun idx => vdiv (get transverse_wavevectors (idx ++ [1])) (k0 idx) in
  let polar_angle := fun idx =>
    vasin (vsqrt (vadd (vmul (kx idx) (kx idx)) (vmul (ky idx) (ky idx)))) in
  let pad := fun (k : list nat -> val) (b : list nat) (r c : nat) =>
    k (b ++ [edge_index N r; edge_index M c]) in
  let vertex := fun (k : list nat -> val) (b : list nat) (r c : nat) =>
    vdiv (vadd (vadd (vadd (pad k b r c) (pad k b r (S c))) (pad k b (S r) c))
               (pad k b (S r) (S c)))
         (Num 4) in
  let v1 := fun k b r c => vsub (vertex k b r (S c)) (vertex k b r c) in
  let v2 := fun k b r c => vsub (vertex k b (S r) c) (vertex k b r c) in
  let cell_area := fun b r c =>
    vabs (vsub (vmul (v1 kx b r c) (v2 ky b r c)) (vmul (v2 kx b r c) (v1 ky b r c))) in
  Ok {| shape := drop_last 1 (shape transverse_wavevectors);
        get := fun idx =>
          vdiv (cell_area (drop_last 2 idx) (from_end 2 idx) (from_end 1 idx))
               (vcos (polar_angle idx)) |}.

(** ** Unflattening adapters *)

(** [unflatten_flux]: the order axis of length [2 * num_terms] is split into
    (polarization, order); polarization and source join the batch axes in
    front of the Brillouin-zone grid and the order axis, and return to the
    trailing positions afterwards. *)
Definition unflatten_flux (flux : ndarray val) (expansion : Expansion)
  : result (ndarray val) :=
  _ <- assert (4 <=? ndim flux) ;;
  _ <- assert (from_end 2 (shape flux) =? 2 * num_terms expansion) ;;
  let nt := from_end 2 (shape flux) / 2 in
  (* reshape to (..., bz0, bz1, 2, nt, sources), transpose to
     (..., 2, sources, bz0, bz1, nt): index (b, p, s, x, y, k) *)
  let flat :=
    {| shape := drop_last 4 (shape flux) ++
                [2; from_end 1 (shape flux); from_end 4 (shape flux);
                 from_end 3 (shape flux); nt];
       get := fun idx =>
         get flux (drop_last 5 idx ++
                   [from_end 3 idx; from_end 2 idx;
                    from_end 5 idx * nt + from_end 1 idx; from_end 4 idx]) |} in
  g <- unflatten NaN flat expansion ;;
  (* transpose (..., 2, sources, kx, ky) to (..., kx, ky, 2, sources) *)
  Ok {| shape := drop_last 4 (shape g) ++
                 [from_end 2 (shape g); from_end 1 (shape g);
                  from_end 4 (shape g); from_end 3 (shape g)];
        get := fun idx =>
          get g (drop_last 4 idx ++
                 [from_end 2 idx; from_end 1 idx; from_end 4 idx; from_end 3 idx]) |}.

Definition unflatten_transverse_wavevectors
  (transverse_wavevectors : ndarray val) (expansion : Expansion)
  : result (ndarray val) :=
  _ <- assert (4 <=? ndim transverse_wavevectors) ;;
  _ <- assert ((from_end 2 (shape transverse_wavevectors) =? num_terms expansion)
               && (from_end 1 (shape transverse_wavevectors) =? 2))%bool ;;
  (* transpose (..., bz0, bz1, nt, 2) to (..., 2, bz0, bz1, nt) *)
  let flat :=
    {| shape := drop_last 4 (shape transverse_wavevectors) ++
                [from_end 1 (shape transverse_wavevectors);
                 from_end 4 (shape transverse_wavevectors);
                 from_end 3 (shape transverse_wavevectors);
                 from_end 2 (shape transverse_wavevectors)];
       get := fun idx =>
         get transverse_wavevectors
             (drop_last 4 idx ++
              [from_end 3 idx; from_end 2 idx; from_end 1 idx; from_end 4 idx]) |} in
  g <- unflatten NaN flat expansion ;;
  (* transpose (..., 2, kx, ky) to (..., kx, ky, 2) *)
  Ok {| shape := drop_last 3 (shape g) ++
                 [from_end 2 (shape g); from_end 1 (shape g); from_end 3 (shape g)];
        get := fun idx =>
          get g (drop_last 3 idx ++ [from_end 1 idx; from_end 3 idx; from_end 2 idx]) |}.

(** ** Integrated flux *)

(** The intermediate values of one evaluation of [_integrated_flux_upsampled]
    that reverse-mode differentiation reads again: the unflattened flux (its
    NaN pattern), the mask, and the result. *)
Record tape : Type := mk_tape {
  tape_unflattened : ndarray val;
  tape_selected : ndarray val;
  tape_result : ndarray val
}.

Definition mask_fn : Type := ndarray val -> ndarray val -> ndarray val.

Definition integrated_flux_upsampled_tape
  (flux wavelength transverse_wavevectors : ndarray val) (expansion : Expansion)
  (angle_bounds_fn : mask_fn) (upsample_factor : Z) : result tape :=
  _ <- assert (1 <=? upsample_factor)%Z ;;
  let factor := Z.to_nat upsample_factor in
  let ndim_batch := ndim flux - 2 in
  let wavelength := atleast_nd wavelength ndim_batch in
  unflattened <- unflatten_flux flux expansion ;;
  transverse_wavevectors <- unflatten_transverse_wavevectors transverse_wavevectors expansion ;;
  let flux := nan_to_zero unflattened in
  let transverse_wavevectors := nan_to_zero transverse_wavevectors in
  _ <- assert (from_end 2 (shape flux) =? 2) ;;
  let flux :=
    resize_linear 2 flux (factor * from_end 4 (shape flux))
                  (factor * from_end 3 (shape flux)) in
  _ <- assert (from_end 1 (shape transverse_wavevectors) =? 2) ;;
  let transverse_wavevectors :=
    resize_linear 1 transverse_wavevectors
                  (factor * from_end 3 (shape transverse_wavevectors))
                  (factor * from_end 2 (shape transverse_wavevectors)) in
  wavelength <- squeeze2 wavelength (ndim_batch - 2) ;;
  angles <- angles_from_unflattened_transverse_wavevectors transverse_wavevectors
                                                            wavelength ;;
  let selected := angle_bounds_fn (fst angles) (snd angles) in
  let selected :=
    {| shape := shape selected;
       get := fun idx => if isnan (get selected idx) then Num 0 else get selected idx |} in
  let masked_flux :=
    {| shape := shape flux;
       get := fun idx =>
         if truthy (get selected (drop_last 2 idx)) then get flux idx else Num 0 |} in
  Ok {| tape_unflattened := unflattened;
        tape_selected := selected;
        tape_result :=
          {| shape := drop_last 4 (shape masked_flux) ++ [from_end 1 (shape masked_flux)];
             get := fun idx =>
               vdiv (vsum (from_end 4 (shape masked_flux)) (fun X =>
                     vsum (from_end 3 (shape masked_flux)) (fun Y =>
                     vsum (from_end 2 (shape masked_flux)) (fun p =>
                       get masked_flux (drop_last 1 idx ++ [X; Y; p; from_end 1 idx])))))
                    (Num (IZR (upsample_factor ^ 2))) |} |}.

Definition _integrated_flux_upsampled
  (flux wavelength transverse_wavevectors : ndarray val) (expansion : Expansion)
  (angle_bounds_fn : mask_fn) (upsample_factor : Z) : result (ndarray val) :=
  t <- integrated_flux_upsampled_tape flux wavelength transverse_wavevectors expansion
                                      angle_bounds_fn upsample_factor ;;
  Ok (tape_result t).

(** ** Reverse-mode differentiation, [jax.grad]

    The flux enters [_integrated_flux_upsampled] through a scatter, a
    selection on NaN, two linear contractions, a selection by the mask and a
    sum; the gradient of the summed result is obtained by applying the
    transposes of these steps, last to first, to a cotangent of ones. *)

Definition pos_eqb (p q : nat * nat * nat) : bool :=
  let '(x, y, k) := p in
  let '(x', y', k') := q in
  ((x =? x') && (y =? y') && (k =? k'))%bool.

(** Cotangent of the updates of [full.at[..., stacked_i, stacked_j].set(stacked_flat)]:
    each update is tagged, the tags are scattered like the updates, and an
    update receives the cotangent of its bin when its own tag is found there. *)
Definition unflatten_vjp (ct : ndarray val) (flat_shape : list nat) (expansion : Expansion)
  : result (ndarray val) :=
  let bz0 := from_end 3 flat_shape in
  let bz1 := from_end 2 flat_shape in
  plan <- merged_indices bz0 bz1 expansion ;;
  let ps := positions bz0 bz1 (num_terms expansion) in
  let tags :=
    scatter (out_H plan) (out_W plan) (fun _ _ => None)
            (map (merged_i plan) ps) (map (merged_j plan) ps) (map Some ps) in
  Ok {| shape := flat_shape;
        get := fun idx =>
          let b := drop_last 3 idx in
          let p := (from_end 3 idx, from_end 2 idx, from_end 1 idx) in
          match norm_index (out_H plan) (merged_i plan p),
                norm_index (out_W plan) (merged_j plan p) with
          | Some X, Some Y =>
              match tags X Y with
              | Some q => if pos_eqb p q then get ct (b ++ [X; Y]) else Num 0
              | None => Num 0
              end
          | _, _ => Num 0
          end |}.

Definition unflatten_flux_vjp (ct : ndarray val) (flux_shape : list nat)
  (expansion : Expansion) : result (ndarray val) :=
  let nt := from_end 2 flux_shape / 2 in
  let ct_grid :=
    {| shape := drop_last 4 (shape ct) ++
                [from_end 2 (shape ct); from_end 1 (shape ct);
                 from_end 4 (shape ct); from_end 3 (shape ct)];
       get := fun idx =>
         get ct (drop_last 4 idx ++
                 [from_end 2 idx; from_end 1 idx; from_end 4 idx; from_end 3 idx]) |} in
  let flat_shape :=
    drop_last 4 flux_shape ++
    [2; from_end 1 flux_shape; from_end 4 flux_shape; from_end 3 flux_shape; nt] in
  ct_flat <- unflatten_vjp ct_grid flat_shape expansion ;;
  Ok {| shape := flux_shape;
        get := fun idx =>
          get ct_flat (drop_last 4 idx ++
                       [from_end 2 idx / nt; from_end 1 idx; from_end 4 idx;
                        from_end 3 idx; from_end 2 idx mod nt]) |}.

(** The backward pass of [jax.grad(_integrated_fn)(dummy_flux)], from the tape
    of the forward pass to the gradient with respect to [dummy_flux]. *)
Definition backward_pass (t : tape) (dummy_shape : list nat) (expansion : Expansion)
  (upsample_factor : Z) : result (ndarray val) :=
  let unflattened := tape_unflattened t in
  let factor := Z.to_nat upsample_factor in
  let H := from_end 4 (shape unflattened) in
  let W := from_end 3 (shape unflattened) in
  (* jnp.sum of the result: a cotangent of ones *)
  let ct_result := ones (shape (tape_result t)) in
  (* sum over the grid and polarization axes, division by upsample_factor ** 2 *)
  let ct_masked :=
    {| shape := drop_last 4 (shape unflattened) ++
                [factor * H; factor * W; from_end 2 (shape unflattened);
                 from_end 1 (shape unflattened)];
       get := fun idx =>
         vdiv (get ct_result (drop_last 4 idx ++ [from_end 1 idx]))
              (Num (IZR (upsample_factor ^ 2))) |} in
  (* jnp.where(selected, flux, 0) *)
  let ct_upsampled :=
    {| shape := shape ct_masked;
       get := fun idx =>
         if truthy (get (tape_selected t) (drop_last 2 idx))
         then get ct_masked idx else Num 0 |} in
  (* jax.image.resize *)
  let ct_flux := resize_linear_T 2 ct_upsampled H W in
  (* jnp.where(jnp.isnan(flux), 0, flux) *)
  let ct_unflattened :=
    {| shape := shape unflattened;
       get := fun idx => if isnan (get unflattened idx) then Num 0 else get ct_flux idx |} in
  (* unflatten_flux *)
  unflatten_flux_vjp ct_unflattened dummy_shape expansion.

Definition _integrated_flux_weights
  (flux wavelength transverse_wavevectors : ndarray val) (expansion : Expansion)
  (angle_bounds_fn : mask_fn) (upsample_factor : Z) : result (ndarray val) :=
  let dummy_flux := ones (drop_last 1 (shape flux) ++ [1]) in
  (* forward pass of _integrated_fn *)
  _ <- assert (from_end 1 (shape dummy_flux) =? 1) ;;
  t <- integrated_flux_upsampled_tape dummy_flux wavelength transverse_wavevectors
                                      expansion angle_bounds_fn upsample_factor ;;
  backward_pass t (shape dummy_flux) expansion upsample_factor.

Definition integrated_flux
  (flux wavelength transverse_wavevectors : ndarray val) (expansion : Expansion)
  (angle_bounds_fn : mask_fn) (upsample_factor : Z) : result (ndarray val) :=
  weights <- _integrated_flux_weights flux wavelength transverse_wavevectors expansion
                                      angle_bounds_fn upsample_factor ;;
  (* jnp.sum(weights * flux, axis=brillouin_grid_axes + (-2,)) *)
  Ok {| shape := drop_last 4 (shape flux) ++ [from_end 1 (shape flux)];
        get := fun idx =>
          vsum (from_end 4 (shape flux)) (fun x =>
          vsum (from_end 3 (shape flux)) (fun y =>
          vsum (from_end 2 (shape flux)) (fun t =>
            vmul (get weights (drop_last 1 idx ++ [x; y; t; 0]))
                 (get flux (drop_last 1 idx ++ [x; y; t; from_end 1 idx]))))) |}.

(** ** Farfield profile *)

(** The four arrays returned by [farfield_profile]. *)
Record profile : Type := mk_profile {
  polar_angle : ndarray val;
  azimuthal_angle : ndarray val;
  solid_angle : ndarray val;
  transformed_flux : ndarray val
}.

(** The exceptions of [farfield_profile]: [flux.shape[-2]] is read before any
    rank check and raises IndexError on a flux of rank below two; every later
    failure is one of [error]. *)
Inductive exception : Type :=
| IndexError
| Raised (e : error).

(** [farfield_profile].  The Brillouin axes [(-4, -3)] exist in a flux of rank
    at least four; [unflatten_flux] asserts that rank, so that every call
    that returns has it. *)
Definition farfield_profile
  (flux wavelength transverse_wavevectors : ndarray val) (expansion : Expansion)
  : exception + profile :=
  if ndim flux <? 2 then inl IndexError
  else
    match
      (_ <- assert (from_end 2 (shape flux) =? 2 * num_terms expansion) ;;
       let ndim_batch := ndim flux - 2 in
       let wavelength := atleast_nd wavelength ndim_batch in
       transverse_wavevectors <-
         unflatten_transverse_wavevectors transverse_wavevectors expansion ;;
       flux <- unflatten_flux flux expansion ;;
       wavelength <- squeeze2 wavelength (ndim_batch - 2) ;;
       angles <- angles_from_unflattened_transverse_wavevectors transverse_wavevectors
                                                                 wavelength ;;
       solid_angle <- solid_angle_from_unflattened_transverse_wavevectors
                        transverse_wavevectors wavelength ;;
       (* flux / solid_angle[..., jnp.newaxis, jnp.newaxis] *)
       Ok {| polar_angle := fst angles;
             azimuthal_angle := snd angles;
             solid_angle := solid_angle;
             transformed_flux :=
               {| shape := shape flux;
                  get := fun idx =>
                    vdiv (get flux idx) (get solid_angle (drop_last 2 idx)) |} |})
    with
    | Ok p => inr p
    | Err e => inl (Raised e)
    end.

(** Equality of arrays: same shape, same entry at every index of that rank. *)
Definition array_eq {V : Type} (a b : ndarray V) : Prop :=
  shape a = shape b /\
  forall idx, length idx = length (shape a) -> get a idx = get b idx.

Definition result_eq {V : Type} (r1 r2 : result (ndarray V)) : Prop :=
  match r1, r2 with
  | Ok a, Ok b => array_eq a b
  | Err e1, Err e2 => e1 = e2
  | _, _ => False
  end.

(** ** Notions used in the statements *)

(** The order components [(i_k, j_k)] of term [k]. *)
Definition order_i (e : Expansion) (k : nat) : Z :=
  fst (nth k (basis_coefficients e) (0, 0)%Z).

Definition order_j (e : Expansion) (k : nat) : Z :=
  snd (nth k (basis_coefficients e) (0, 0)%Z).

(** Whether the scatter update at position [p], with index arrays [di] and
    [dj], lands on bin [(X, Y)] of a grid of extent [H] by [W]. *)
Definition hitb {P : Type} (H W : nat) (di dj : P -> Z) (p : P) (X Y : nat) : bool :=
  match norm_index H (di p), norm_index W (dj p) with
  | Some r, Some c => ((X =? r) && (Y =? c))%bool
  | _, _ => false
  end.



(** A grid of wavevector components divided by the free-space wavenumber
    [2 PI / w]. *)
Definition normalised (k : nat -> nat -> R) (w : R) : nat -> nat -> R :=
  fun r c => (k r c / (2 * PI / w))%R.

(** The tag found at each bin after scattering the positions themselves: the
    position whose update is the one that remains. *)
Definition scatter_tags {P : Type} (H W : nat) (di dj : P -> Z) (ps : list P)
  : nat -> nat -> option P :=
  scatter H W (fun _ _ => None) (map di ps) (map dj ps) (map Some ps).

(** Contractions of real-valued functions. *)
Definition contractR (n_in n_out X : nat) (g : nat -> R) : R :=
  if n_in =? n_out then g X
  else Rsum n_in (fun x => (g x * compute_weight n_in n_out x X)%R).

Definition contractTR (n_in n_out x : nat) (h : nat -> R) : R :=
  if n_in =? n_out then h x
  else Rsum n_out (fun X => (h X * compute_weight n_in n_out x X)%R).

(** The checks that [unflatten_flux] performs on the shape of its argument,
    and the index plan it scatters with. *)
Definition flux_checks (sh : list nat) (expansion : Expansion) : result index_plan :=
  _ <- assert (4 <=? length sh) ;;
  _ <- assert (from_end 2 sh =? 2 * num_terms expansion) ;;
  merged_indices (from_end 4 sh) (from_end 3 sh) expansion.

(** The part of [_integrated_flux_upsampled] that leads from the wavevectors
    and the wavelength to the mask; it reads the flux only through its rank. *)
Definition selected_mask
  (ndim_flux : nat) (wavelength transverse_wavevectors : ndarray val)
  (expansion : Expansion) (angle_bounds_fn : mask_fn) (upsample_factor : Z)
  : result (ndarray val) :=
  let factor := Z.to_nat upsample_factor in
  let ndim_batch := ndim_flux - 2 in
  let wavelength := atleast_nd wavelength ndim_batch in
  transverse_wavevectors <- unflatten_transverse_wavevectors transverse_wavevectors expansion ;;
  let transverse_wavevectors := nan_to_zero transverse_wavevectors in
  _ <- assert (from_end 1 (shape transverse_wavevectors) =? 2) ;;
  let transverse_wavevectors :=
    resize_linear 1 transverse_wavevectors
                  (factor * from_end 3 (shape transverse_wavevectors))
                  (factor * from_end 2 (shape transverse_wavevectors)) in
  wavelength <- squeeze2 wavelength (ndim_batch - 2) ;;
  angles <- angles_from_unflattened_transverse_wavevectors transverse_wavevectors
                                                            wavelength ;;
  let selected := angle_bounds_fn (fst angles) (snd angles) in
  Ok {| shape := shape selected;
        get := fun idx => if isnan (get selected idx) then Num 0 else get selected idx |}.

(** The part of [_integrated_flux_upsampled] that follows once the flux is
    unflattened and the mask is known. *)
Definition finish_tape (upsample_factor : Z) (unflattened selected : ndarray val) : tape :=
  let factor := Z.to_nat upsample_factor in
  let flux := nan_to_zero unflattened in
  let flux :=
    resize_linear 2 flux (factor * from_end 4 (shape flux))
                  (factor * from_end 3 (shape flux)) in
  let masked_flux :=
    {| shape := shape flux;
       get := fun idx =>
         if truthy (get selected (drop_last 2 idx)) then get flux idx else Num 0 |} in
  {| tape_unflattened := unflattened;
     tape_selected := selected;
     tape_result :=
       {| shape := drop_last 4 (shape masked_flux) ++ [from_end 1 (shape masked_flux)];
          get := fun idx =>
            vdiv (vsum (from_end 4 (shape masked_flux)) (fun X =>
                  vsum (from_end 3 (shape masked_flux)) (fun Y =>
                  vsum (from_end 2 (shape masked_flux)) (fun p =>
                    get masked_flux (drop_last 1 idx ++ [X; Y; p; from_end 1 idx])))))
                 (Num (IZR (upsample_factor ^ 2))) |} |}.

(** Whether bin [(X, Y)] carries the tag of [p]. *)
Definition tagb {P : Type} (H W : nat) (di dj : P -> Z) (eqb : P -> P -> bool)
  (ps : list P) (p : P) (X Y : nat) : bool :=
  match scatter_tags H W di dj ps X Y with
  | Some q => eqb p q
  | None => false
  end.

(** Closed forms of the quantities of [integrated_flux] on a real-valued flux
    [f] with Brillouin grid [nx] by [ny] and [nt] orders, for index plan
    [plan], mask [sel] and factor [u], at batch index [b] and source [s]. *)

(** The mask at an upsampled bin, as a number. *)
Definition mask_weight (sel : ndarray val) (b : list nat) (X' Y' : nat) : R :=
  if truthy (get sel (b ++ [X'; Y'])) then 1%R else 0%R.

(** The cotangent that reaches bin [(X, Y)] of the unflattened grid. *)
Definition bin_cotangent (plan : index_plan) (u : Z) (sel : ndarray val)
  (b : list nat) (X Y : nat) : R :=
  contractTR (out_W plan) (Z.to_nat u * out_W plan) Y (fun Y' =>
    contractTR (out_H plan) (Z.to_nat u * out_H plan) X (fun X' =>
      (mask_weight sel b X' Y' / IZR (u ^ 2))%R)).

(** The integration weight of flat entry [(x, y, t)]. *)
Definition weight_coefficient (plan : index_plan) (nx ny nt : nat) (u : Z)
  (sel : ndarray val) (b : list nat) (x y t : nat) : R :=
  let p := (x, y, t mod nt) in
  match norm_index (out_H plan) (merged_i plan p),
        norm_index (out_W plan) (merged_j plan p) with
  | Some X, Some Y =>
      if tagb (out_H plan) (out_W plan) (merged_i plan) (merged_j plan) pos_eqb
              (positions nx ny nt) p X Y
      then bin_cotangent plan u sel b X Y else 0%R
  | _, _ => 0%R
  end.

(** The unflattened flux with NaN replaced by zero. *)
Definition unflattened_value (plan : index_plan) (nx ny nt : nat) (f : ndarray R)
  (b : list nat) (p s X Y : nat) : R :=
  match scatter_tags (out_H plan) (out_W plan) (merged_i plan) (merged_j plan)
                     (positions nx ny nt) X Y with
  | Some (x, y, k) => get f (b ++ [x; y; p * nt + k; s])
  | None => 0%R
  end.

(** The masked sum of the upsampled flux. *)
Definition direct_value (plan : index_plan) (nx ny nt : nat) (u : Z)
  (sel : ndarray val) (f : ndarray R) (b : list nat) (s : nat) : R :=
  (Rsum (Z.to_nat u * out_H plan) (fun X' =>
   Rsum (Z.to_nat u * out_W plan) (fun Y' =>
   Rsum 2 (fun p =>
     mask_weight sel b X' Y' *
     contractR (out_H plan) (Z.to_nat u * out_H plan) X' (fun X =>
       contractR (out_W plan) (Z.to_nat u * out_W plan) Y' (fun Y =>
         unflattened_value plan nx ny nt f b p s X Y)))))
   / IZR (u ^ 2))%R.

(** Everything in [_integrated_flux_upsampled] that can fail, in the order of
    the source; it depends on the flux only through its shape and yields the
    index plan and the mask. *)
Definition pipeline_checks (sh : list nat) (wavelength transverse_wavevectors : ndarray val)
  (expansion : Expansion) (angle_bounds_fn : mask_fn) (upsample_factor : Z)
  : result (index_plan * ndarray val) :=
  _ <- assert (1 <=? upsample_factor)%Z ;;
  plan <- flux_checks sh expansion ;;
  selected <- selected_mask (length sh) wavelength transverse_wavevectors expansion
                            angle_bounds_fn upsample_factor ;;
  Ok (plan, selected).

(** The sum of weights times flux of [integrated_flux], over the reals. *)
Definition weighted_sum (plan : index_plan) (nx ny nt : nat) (u : Z) (sel : ndarray val)
  (f : ndarray R) (b : list nat) (s : nat) : R :=
  Rsum nx (fun x => Rsum ny (fun y => Rsum (2 * nt) (fun t =>
    (weight_coefficient plan nx ny nt u sel b x y t * get f (b ++ [x; y; t; s]))%R))).

(** [a * f1 + b * f2] on real-valued arrays, and on results. *)
Definition linear_combination (a : R) (f1 : ndarray R) (b : R) (f2 : ndarray R)
  : ndarray R :=
  {| shape := shape f1;
     get := fun idx => (a * get f1 idx + b * get f2 idx)%R |}.

Definition linear_combination_result (a : R) (r1 : result (ndarray val)) (b : R)
  (r2 : result (ndarray val)) : result (ndarray val) :=
  x <- r1 ;;
  y <- r2 ;;
  Ok {| shape := shape x;
        get := fun idx => vadd (vmul (Num a) (get x idx)) (vmul (Num b) (get y idx)) |}.

(** The plain sum of an unflattened flux grid over the two grid axes and the
    polarization axis, NaN counting as zero. *)
Definition plain_sum (g : ndarray val) : ndarray val :=
  {| shape := drop_last 4 (shape g) ++ [from_end 1 (shape g)];
     get := fun idx =>
       vsum (from_end 4 (shape g)) (fun X =>
       vsum (from_end 3 (shape g)) (fun Y =>
       vsum (from_end 2 (shape g)) (fun p =>
         get (nan_to_zero g) (drop_last 1 idx ++ [X; Y; p; from_end 1 idx])))) |}.

(** The checks that [unflatten_transverse_wavevectors] performs on the shape of
    its argument, and the index plan it scatters with. *)
Definition wavevector_checks (sh : list nat) (expansion : Expansion) : result index_plan :=
  _ <- assert (4 <=? length sh) ;;
  _ <- assert ((from_end 2 sh =? num_terms expansion) && (from_end 1 sh =? 2))%bool ;;
  merged_indices (from_end 4 sh) (from_end 3 sh) expansion.


(** Whether a call returned. *)
Definition is_ok {A : Type} (r : result A) : bool :=
  match r with
  | Ok _ => true
  | Err _ => false
  end.

(** * Properties *)

Lemma is_ok_inv (A : Type) (r : result A) : is_ok r = true -> exists a, r = Ok a.
Proof. destruct r as [a|er]; [exists a; reflexivity | discriminate]. Qed.

(** ** Python [min] and [max] *)

Lemma fold_max_spec (l : list Z) (x : Z) :
  (In (fold_left Z.max l x) (x :: l)) /\
  (forall y, In y (x :: l) -> (y <= fold_left Z.max l x)%Z).
Proof.
  revert x. induction l as [|a l IH]; intros x; simpl.
  - split; [now left | intros y [->|[]]; lia].
  - destruct (IH (Z.max x a)) as [Hin Hle]. split.
    + destruct Hin as [Hin|Hin]; [|now right; right].
      rewrite <- Hin. destruct (Z.max_spec x a) as [[_ ->]|[_ ->]]; auto.
    + intros y Hy.
      assert (Hm : (Z.max x a <= fold_left Z.max l (Z.max x a))%Z)
        by (apply Hle; now left).
      destruct Hy as [->|[->|Hy]]; [lia | lia | apply Hle; now right].
Qed.

Lemma fold_min_spec (l : list Z) (x : Z) :
  (In (fold_left Z.min l x) (x :: l)) /\
  (forall y, In y (x :: l) -> (fold_left Z.min l x <= y)%Z).
Proof.
  revert x. induction l as [|a l IH]; intros x; simpl.
  - split; [now left | intros y [->|[]]; lia].
  - destruct (IH (Z.min x a)) as [Hin Hle]. split.
    + destruct Hin as [Hin|Hin]; [|now right; right].
      rewrite <- Hin. destruct (Z.min_spec x a) as [[_ ->]|[_ ->]]; auto.
    + intros y Hy.
      assert (Hm : (fold_left Z.min l (Z.min x a) <= Z.min x a)%Z)
        by (apply Hle; now left).
      destruct Hy as [->|[->|Hy]]; [lia | lia | apply Hle; now right].
Qed.

Lemma py_max_ok (l : list Z) :
  l <> [] -> exists m, py_max l = Ok m /\ In m l /\ forall y, In y l -> (y <= m)%Z.
Proof.
  destruct l as [|x l]; [congruence|]. intros _.
  exists (fold_left Z.max l x). split; [reflexivity|]. apply fold_max_spec.
Qed.

Lemma py_min_ok (l : list Z) :
  l <> [] -> exists m, py_min l = Ok m /\ In m l /\ forall y, In y l -> (m <= y)%Z.
Proof.
  destruct l as [|x l]; [congruence|]. intros _.
  exists (fold_left Z.min l x). split; [reflexivity|]. apply fold_min_spec.
Qed.

(** ** Scatter *)

Lemma in_positions (nx ny nt x y k : nat) :
  In (x, y, k) (positions nx ny nt) <-> x < nx /\ y < ny /\ k < nt.
Proof.
  unfold positions. rewrite in_flat_map. split.
  - intros (x' & Hx & H). rewrite in_flat_map in H. destruct H as (y' & Hy & H).
    rewrite in_map_iff in H. destruct H as (k' & E & Hk). inversion E; subst.
    rewrite in_seq in *. lia.
  - intros (Hx & Hy & Hk). exists x. split; [apply in_seq; lia|].
    rewrite in_flat_map. exists y. split; [apply in_seq; lia|].
    rewrite in_map_iff. exists k. split; [reflexivity | apply in_seq; lia].
Qed.

Lemma norm_index_in_range (dim : nat) (z : Z) :
  (0 <= z < Z.of_nat dim)%Z -> norm_index dim z = Some (Z.to_nat z).
Proof.
  intros Hz. unfold norm_index.
  destruct (Z.ltb_spec z 0); [lia|].
  destruct (Z.leb_spec 0 z); [|lia].
  destruct (Z.ltb_spec z (Z.of_nat dim)); [reflexivity | lia].
Qed.

Section ScatterFacts.

Variable V : Type.
Variable P : Type.
Variables (H W : nat) (di dj : P -> Z) (fv : P -> V).

Abbreviation hitb := (hitb H W di dj).

Lemma at_set_hitb (g : nat -> nat -> V) (p : P) (X Y : nat) :
  at_set H W g (di p) (dj p) (fv p) X Y = if hitb p X Y then fv p else g X Y.
Proof.
  unfold at_set, hitb.
  destruct (norm_index H (di p)), (norm_index W (dj p)); reflexivity.
Qed.

Lemma scatter_miss (ps : list P) (g : nat -> nat -> V) (X Y : nat) :
  (forall p, In p ps -> hitb p X Y = false) ->
  scatter H W g (map di ps) (map dj ps) (map fv ps) X Y = g X Y.
Proof.
  revert g. induction ps as [|a ps IH]; intros g Hmiss; simpl; [reflexivity|].
  rewrite IH by (intros p Hp; apply Hmiss; now right).
  rewrite at_set_hitb, Hmiss by now left. reflexivity.
Qed.

Lemma scatter_hit (ps : list P) (g : nat -> nat -> V) (X Y : nat) (v : V) :
  (exists p, In p ps /\ hitb p X Y = true) ->
  (forall q, In q ps -> hitb q X Y = true -> fv q = v) ->
  scatter H W g (map di ps) (map dj ps) (map fv ps) X Y = v.
Proof.
  revert g. induction ps as [|a ps IH]; intros g (p & Hp & Hhit) Hall.
  - destruct Hp.
  - simpl. destruct (existsb (fun q => hitb q X Y) ps) eqn:Hex.
    + apply existsb_exists in Hex. destruct Hex as (q & Hq & Hqh).
      apply IH; [now exists q | intros q' Hq'; apply Hall; now right].
    + rewrite scatter_miss.
      * rewrite at_set_hitb.
        destruct Hp as [->|Hp].
        -- rewrite Hhit. apply Hall; [now left | assumption].
        -- exfalso. assert (Hf : hitb p X Y = false); [|congruence].
           apply Bool.not_true_is_false. intros Ht.
           assert (Hc : existsb (fun q => hitb q X Y) ps = true)
             by (apply existsb_exists; now exists p).
           congruence.
      * intros q Hq. apply Bool.not_true_is_false. intros Ht.
        assert (Hc : existsb (fun q => hitb q X Y) ps = true)
          by (apply existsb_exists; now exists q).
        congruence.
Qed.

End ScatterFacts.

(** ** Negative indexing *)

Lemma drop_last_app_le (A : Type) (n : nat) (b t : list A) :
  n <= length t -> drop_last n (b ++ t) = b ++ firstn (length t - n) t.
Proof.
  intros Hn. unfold drop_last. rewrite length_app, firstn_app.
  replace (length b + length t - n) with (length b + (length t - n)) by lia.
  rewrite firstn_all2 by lia. f_equal. f_equal. lia.
Qed.

Lemma last_n_app_le (A : Type) (n : nat) (b t : list A) :
  n <= length t -> last_n n (b ++ t) = skipn (length t - n) t.
Proof.
  intros Hn. unfold last_n. rewrite length_app, skipn_app.
  replace (length b + length t - n) with (length b + (length t - n)) by lia.
  rewrite skipn_all2 by lia. simpl. f_equal. lia.
Qed.

Lemma drop_last_app (A : Type) (n : nat) (b t : list A) :
  length t = n -> drop_last n (b ++ t) = b.
Proof.
  intros <-. rewrite drop_last_app_le, Nat.sub_diag by lia. simpl. apply app_nil_r.
Qed.

Lemma from_end_app (n : nat) (b t : list nat) :
  1 <= n <= length t -> from_end n (b ++ t) = nth (length t - n) t 0.
Proof.
  intros Hn. unfold from_end. rewrite length_app, app_nth2 by lia.
  f_equal. lia.
Qed.

(** Reduction of [drop_last], [last_n] and [from_end] on an index or shape
    that ends in an explicit list. *)
Ltac idx_step :=
  first [ rewrite <- !app_assoc
        | progress cbn [app length nth Nat.sub firstn skipn]
        | rewrite !drop_last_app_le by (simpl; lia)
        | rewrite !last_n_app_le by (simpl; lia)
        | rewrite !from_end_app by (simpl; lia)
        | rewrite !app_nil_r ].

Ltac idx_simpl := repeat idx_step.

(** ** Unflatten *)

Lemma merged_index_range (c lo hi n x : Z) :
  (lo <= c <= hi)%Z -> (0 <= x < n)%Z ->
  (0 <= c * n + x - lo * n < (hi - lo + 1) * n)%Z.
Proof. intros Hc Hx. nia. Qed.

Lemma merged_index_inj (c c' lo n x x' : Z) :
  (0 <= x < n)%Z -> (0 <= x' < n)%Z ->
  (c * n + x - lo * n = c' * n + x' - lo * n)%Z -> c = c' /\ x = x'.
Proof.
  intros Hx Hx' E.
  assert (c = c').
  { destruct (Z.lt_trichotomy c c') as [L|[L|L]]; [|exact L|].
    - assert ((c' - c) * n >= n)%Z by nia. lia.
    - assert ((c - c') * n >= n)%Z by nia. lia. }
  subst. split; [reflexivity | lia].
Qed.

Lemma nth_map_fst (cs : list (Z * Z)) (k : nat) :
  nth k (map fst cs) 0%Z = fst (nth k cs (0, 0)%Z).
Proof. exact (map_nth fst cs (0, 0)%Z k). Qed.

Lemma nth_map_snd (cs : list (Z * Z)) (k : nat) :
  nth k (map snd cs) 0%Z = snd (nth k cs (0, 0)%Z).
Proof. exact (map_nth snd cs (0, 0)%Z k). Qed.

Lemma NoDup_nth_inj (A : Type) (l : list A) (d : A) (k k' : nat) :
  NoDup l -> k < length l -> k' < length l -> nth k l d = nth k' l d -> k = k'.
Proof. intros Hnd Hk Hk' E. exact (proj1 (NoDup_nth l d) Hnd k k' Hk Hk' E). Qed.

(** What [merged_indices] returns on a non-empty expansion. *)
Lemma merged_indices_ok (bz0 bz1 : nat) (e : Expansion) :
  basis_coefficients e <> [] ->
  exists min_i max_i min_j max_j,
    py_min (map fst (basis_coefficients e)) = Ok min_i /\
    py_max (map fst (basis_coefficients e)) = Ok max_i /\
    py_min (map snd (basis_coefficients e)) = Ok min_j /\
    py_max (map snd (basis_coefficients e)) = Ok max_j /\
    (forall k, k < num_terms e -> (min_i <= order_i e k <= max_i)%Z) /\
    (forall k, k < num_terms e -> (min_j <= order_j e k <= max_j)%Z) /\
    merged_indices bz0 bz1 e =
    Ok {| out_H := Z.to_nat ((max_i - min_i + 1) * Z.of_nat bz0);
          out_W := Z.to_nat ((max_j - min_j + 1) * Z.of_nat bz1);
          merged_i := fun '(x, _, k) =>
            (nth k (map fst (basis_coefficients e)) 0 * Z.of_nat bz0 + Z.of_nat x
             - min_i * Z.of_nat bz0)%Z;
          merged_j := fun '(_, y, k) =>
            (nth k (map snd (basis_coefficients e)) 0 * Z.of_nat bz1 + Z.of_nat y
             - min_j * Z.of_nat bz1)%Z |}.
Proof.
  intros Hne. set (cs := basis_coefficients e) in *.
  assert (Hi : map fst cs <> []) by (destruct cs; simpl; congruence).
  assert (Hj : map snd cs <> []) by (destruct cs; simpl; congruence).
  destruct (py_min_ok Hi) as (min_i & Emin_i & _ & Hmin_i).
  destruct (py_max_ok Hi) as (max_i & Emax_i & _ & Hmax_i).
  destruct (py_min_ok Hj) as (min_j & Emin_j & _ & Hmin_j).
  destruct (py_max_ok Hj) as (max_j & Emax_j & _ & Hmax_j).
  exists min_i, max_i, min_j, max_j.
  repeat (split; [assumption|]). split; [|split].
  - intros k Hk. unfold order_i. fold cs.
    assert (Hin : In (fst (nth k cs (0, 0)%Z)) (map fst cs))
      by (apply in_map, nth_In, Hk).
    split; [now apply Hmin_i | now apply Hmax_i].
  - intros k Hk. unfold order_j. fold cs.
    assert (Hin : In (snd (nth k cs (0, 0)%Z)) (map snd cs))
      by (apply in_map, nth_In, Hk).
    split; [now apply Hmin_j | now apply Hmax_j].
  - unfold merged_indices. fold cs. rewrite Emax_i, Emin_i, Emax_j, Emin_j. reflexivity.
Qed.

Lemma merged_indices_spec (bz0 bz1 : nat) (e : Expansion) :
  basis_coefficients e <> [] ->
  exists plan min_i max_i min_j max_j,
    py_min (map fst (basis_coefficients e)) = Ok min_i /\
    py_max (map fst (basis_coefficients e)) = Ok max_i /\
    py_min (map snd (basis_coefficients e)) = Ok min_j /\
    py_max (map snd (basis_coefficients e)) = Ok max_j /\
    merged_indices bz0 bz1 e = Ok plan /\
    out_H plan = Z.to_nat ((max_i - min_i + 1) * Z.of_nat bz0) /\
    out_W plan = Z.to_nat ((max_j - min_j + 1) * Z.of_nat bz1) /\
    forall x y k, x < bz0 -> y < bz1 -> k < num_terms e ->
      let X := (order_i e k * Z.of_nat bz0 + Z.of_nat x - min_i * Z.of_nat bz0)%Z in
      let Y := (order_j e k * Z.of_nat bz1 + Z.of_nat y - min_j * Z.of_nat bz1)%Z in
      (0 <= X < (max_i - min_i + 1) * Z.of_nat bz0)%Z /\
      (0 <= Y < (max_j - min_j + 1) * Z.of_nat bz1)%Z /\
      norm_index (out_H plan) (merged_i plan (x, y, k)) = Some (Z.to_nat X) /\
      norm_index (out_W plan) (merged_j plan (x, y, k)) = Some (Z.to_nat Y).
Proof.
  intros Hne.
  destruct (@merged_indices_ok bz0 bz1 e Hne)
    as (min_i & max_i & min_j & max_j & E1 & E2 & E3 & E4 & Hbi & Hbj & Eplan).
  eexists. exists min_i, max_i, min_j, max_j.
  repeat (split; [eassumption|]). split; [reflexivity|]. split; [reflexivity|].
  intros x y k Hx Hy Hk X Y. cbn [out_H out_W merged_i merged_j].
  rewrite nth_map_fst, nth_map_snd. fold (order_i e k) (order_j e k). fold X Y.
  assert (HX : (0 <= X < (max_i - min_i + 1) * Z.of_nat bz0)%Z)
    by (apply merged_index_range; [apply Hbi; assumption | lia]).
  assert (HY : (0 <= Y < (max_j - min_j + 1) * Z.of_nat bz1)%Z)
    by (apply merged_index_range; [apply Hbj; assumption | lia]).
  repeat split; try lia; apply norm_index_in_range; lia.
Qed.

(** C1 (amended). For an expansion with at least one term whose Fourier orders
    are pairwise distinct, and a flat array of shape
    [batch ++ [num_bz_kx; num_bz_ky; num_terms]], [unflatten] returns a grid of
    shape [batch ++ [(max i - min i + 1) * num_bz_kx; (max j - min j + 1) * num_bz_ky]]
    (leading batch dimensions unchanged) that holds the flat value of order [k]
    and Brillouin sample [(x, y)] at bin
    [(i_k * num_bz_kx + x - min i * num_bz_kx, j_k * num_bz_ky + y - min j * num_bz_ky)],
    which lies inside the grid, and holds NaN at every bin that is not such a
    destination. *)
Theorem unflatten_round_trip
  (V : Type) (nan : V) (flat : ndarray V) (e : Expansion) (bs : list nat) (nx ny : nat) :
  shape flat = bs ++ [nx; ny; num_terms e] ->
  basis_coefficients e <> [] ->
  NoDup (basis_coefficients e) ->
  exists g min_i max_i min_j max_j,
    py_min (map fst (basis_coefficients e)) = Ok min_i /\
    py_max (map fst (basis_coefficients e)) = Ok max_i /\
    py_min (map snd (basis_coefficients e)) = Ok min_j /\
    py_max (map snd (basis_coefficients e)) = Ok max_j /\
    unflatten nan flat e = Ok g /\
    shape g = bs ++ [Z.to_nat ((max_i - min_i + 1) * Z.of_nat nx);
                     Z.to_nat ((max_j - min_j + 1) * Z.of_nat ny)] /\
    (forall b x y k, x < nx -> y < ny -> k < num_terms e ->
       let X := (order_i e k * Z.of_nat nx + Z.of_nat x - min_i * Z.of_nat nx)%Z in
       let Y := (order_j e k * Z.of_nat ny + Z.of_nat y - min_j * Z.of_nat ny)%Z in
       (0 <= X < (max_i - min_i + 1) * Z.of_nat nx)%Z /\
       (0 <= Y < (max_j - min_j + 1) * Z.of_nat ny)%Z /\
       get g (b ++ [Z.to_nat X; Z.to_nat Y]) = get flat (b ++ [x; y; k])) /\
    (forall b X Y,
       (forall x y k, x < nx -> y < ny -> k < num_terms e ->
          (Z.of_nat X, Z.of_nat Y) <>
          (order_i e k * Z.of_nat nx + Z.of_nat x - min_i * Z.of_nat nx,
           order_j e k * Z.of_nat ny + Z.of_nat y - min_j * Z.of_nat ny)%Z) ->
       get g (b ++ [X; Y]) = nan).
Proof.
  intros Hshape Hne Hnd.
  destruct (@merged_indices_spec nx ny e Hne)
    as (plan & min_i & max_i & min_j & max_j & E1 & E2 & E3 & E4 & Eplan & EH & EW & Hdest).
  assert (Hun : unflatten nan flat e =
    Ok {| shape := bs ++ [out_H plan; out_W plan];
          get := fun idx =>
            scatter (out_H plan) (out_W plan) (full nan)
              (map (merged_i plan) (positions nx ny (num_terms e)))
              (map (merged_j plan) (positions nx ny (num_terms e)))
              (map (fun '(x, y, k) => get flat (drop_last 2 idx ++ [x; y; k]))
                   (positions nx ny (num_terms e)))
              (from_end 2 idx) (from_end 1 idx) |}).
  { unfold unflatten.
    replace (3 <=? ndim flat) with true
      by (symmetry; apply Nat.leb_le; unfold ndim; rewrite Hshape, length_app; simpl; lia).
    rewrite Hshape. idx_simpl. rewrite Nat.eqb_refl. cbn [assert bind].
    rewrite Eplan. reflexivity. }
  eexists. exists min_i, max_i, min_j, max_j.
  split; [exact E1|]. split; [exact E2|]. split; [exact E3|]. split; [exact E4|].
  split; [exact Hun|].
  split; [cbn [shape]; rewrite EH, EW; reflexivity|]. split.
  - intros b x y k Hx Hy Hk X Y.
    destruct (Hdest x y k Hx Hy Hk) as (HX & HY & NX & NY). fold X Y in HX, HY, NX, NY.
    split; [exact HX|]. split; [exact HY|].
    cbn [get]. idx_simpl.
    apply scatter_hit with (fv := fun '(x, y, k) => get flat (b ++ [x; y; k])).
    + exists (x, y, k). split; [apply in_positions; auto|].
      unfold hitb. rewrite NX, NY, !Nat.eqb_refl. reflexivity.
    + intros [[x' y'] k'] Hin Hhit. apply in_positions in Hin.
      destruct Hin as (Hx' & Hy' & Hk').
      destruct (Hdest x' y' k' Hx' Hy' Hk') as (HX' & HY' & NX' & NY').
      unfold hitb in Hhit. rewrite NX', NY' in Hhit.
      apply andb_prop in Hhit. destruct Hhit as [Ea Eb].
      apply Nat.eqb_eq in Ea, Eb.
      assert (Ea' : (order_i e k * Z.of_nat nx + Z.of_nat x - min_i * Z.of_nat nx =
                     order_i e k' * Z.of_nat nx + Z.of_nat x' - min_i * Z.of_nat nx)%Z)
        by (fold X; lia).
      assert (Eb' : (order_j e k * Z.of_nat ny + Z.of_nat y - min_j * Z.of_nat ny =
                     order_j e k' * Z.of_nat ny + Z.of_nat y' - min_j * Z.of_nat ny)%Z)
        by (fold Y; lia).
      apply merged_index_inj in Ea'; [|lia|lia].
      apply merged_index_inj in Eb'; [|lia|lia].
      destruct Ea' as [Ei Ex], Eb' as [Ej Ey].
      assert (k' = k).
      { apply (NoDup_nth_inj (0, 0)%Z Hnd Hk' Hk).
        unfold order_i in Ei. unfold order_j in Ej.
        destruct (nth k' (basis_coefficients e) (0, 0)%Z),
                 (nth k (basis_coefficients e) (0, 0)%Z); simpl in *; congruence. }
      subst k'. replace x' with x by lia. replace y' with y by lia. reflexivity.
  - intros b X Y Hfree. cbn [get]. idx_simpl.
    rewrite scatter_miss with (fv := fun '(x, y, k) => get flat (b ++ [x; y; k]));
      [reflexivity|].
    intros [[x y] k] Hin. apply in_positions in Hin. destruct Hin as (Hx & Hy & Hk).
    destruct (Hdest x y k Hx Hy Hk) as (HX & HY & NX & NY).
    apply Bool.not_true_is_false. intros Hhit. unfold hitb in Hhit.
    rewrite NX, NY in Hhit.
    apply andb_prop in Hhit. destruct Hhit as [Ea Eb].
    apply Nat.eqb_eq in Ea, Eb.
    apply (Hfree x y k Hx Hy Hk). f_equal; lia.
Qed.

(** The round trip at a two-order expansion with a single Brillouin sample:
    orders (0,0) and (1,0) fill a 2 x 1 grid. *)
Lemma unflatten_round_trip_witness :
  let e := {| basis_coefficients := [(0, 0); (1, 0)]%Z |} in
  let flat := {| shape := [1; 1; 2]; get := fun idx => 10 + nth 2 idx 0 |} in
  exists g, unflatten 0 flat e = Ok g /\ shape g = [2; 1] /\
            get g [0; 0] = 10 /\ get g [1; 0] = 11.
Proof.
  intros e flat.
  destruct (@unflatten_round_trip nat 0 flat e [] 1 1)
    as (g & mi & Mi & mj & Mj & E1 & E2 & E3 & E4 & Hg & Hs & Hval & _).
  - reflexivity.
  - discriminate.
  - repeat constructor; simpl; intuition congruence.
  - injection E1 as <-. injection E2 as <-. injection E3 as <-. injection E4 as <-.
    exists g. split; [exact Hg|]. split; [exact Hs|]. split.
    + destruct (Hval [] 0 0 0) as (_ & _ & Hv);
        [lia | lia | unfold e, num_terms; simpl; lia | exact Hv].
    + destruct (Hval [] 0 0 1) as (_ & _ & Hv);
        [lia | lia | unfold e, num_terms; simpl; lia | exact Hv].
Defined.

(** C1 as stated fails on an expansion that lists the order (0,0) twice: with
    one Brillouin sample both terms have destination bin (0,0), the later
    update overwrites the earlier one, and the bin does not hold the flat
    value of term 0. *)
Lemma unflatten_duplicate_orders_counterexample :
  let e := {| basis_coefficients := [(0, 0); (0, 0)]%Z |} in
  let flat := {| shape := [1; 1; 2]; get := fun idx => 10 + nth 2 idx 0 |} in
  exists g, unflatten 0 flat e = Ok g /\ shape g = [1; 1] /\
            get flat [0; 0; 0] = 10 /\ get g [0; 0] = 11.
Proof.
  intros e flat. eexists. split; [reflexivity|]. repeat split.
Qed.

(** C7 (amended). For an expansion without terms and a flat array whose
    trailing axis has length 0, [unflatten] raises [ValueError]: the minimum
    and maximum of the empty list of orders do not exist, and no grid is
    returned. *)
Theorem unflatten_empty_expansion (V : Type) (nan : V) (flat : ndarray V) (e : Expansion) :
  num_terms e = 0 ->
  3 <= ndim flat ->
  from_end 1 (shape flat) = 0 ->
  unflatten nan flat e = Err ValueError.
Proof.
  intros Hnt Hnd Hlast. unfold unflatten.
  replace (3 <=? ndim flat) with true by (symmetry; apply Nat.leb_le; exact Hnd).
  rewrite Hlast, Hnt. cbn [Nat.eqb assert bind].
  unfold merged_indices.
  destruct (basis_coefficients e) as [|c cs] eqn:Ecs.
  - reflexivity.
  - unfold num_terms in Hnt. rewrite Ecs in Hnt. discriminate.
Qed.

Lemma unflatten_empty_expansion_witness :
  unflatten 0 {| shape := [2; 2; 0]; get := fun _ => 1 |} {| basis_coefficients := [] |}
  = Err ValueError.
Proof.
  apply unflatten_empty_expansion; [reflexivity | unfold ndim; simpl; lia | reflexivity].
Defined.

(** C7 as stated fails: on the empty expansion and a flat array of shape
    (1, 1, 0) the call raises instead of returning an empty grid. *)
Lemma unflatten_empty_expansion_counterexample :
  let flat := {| shape := [1; 1; 0]; get := fun _ : list nat => 0 |} in
  let e := {| basis_coefficients := [] |} in
  num_terms e = 0 /\ from_end 1 (shape flat) = 0 /\
  unflatten 0 flat e = Err ValueError /\
  ~ exists g, unflatten 0 flat e = Ok g.
Proof.
  intros flat e. repeat split. intros [g Hg]. discriminate Hg.
Qed.

(** ** Invalid upsample factor *)

(** C8. With [upsample_factor < 1] the call to [integrated_flux] fails with
    the [AssertionError] of [assert upsample_factor >= 1], whatever the other
    arguments are; so does [_integrated_flux_upsampled]. *)
Theorem integrated_flux_invalid_upsample_factor
  (flux wavelength transverse_wavevectors : ndarray val) (expansion : Expansion)
  (angle_bounds_fn : mask_fn) (upsample_factor : Z) :
  (upsample_factor < 1)%Z ->
  integrated_flux flux wavelength transverse_wavevectors expansion angle_bounds_fn
                  upsample_factor = Err AssertionError /\
  _integrated_flux_upsampled flux wavelength transverse_wavevectors expansion
                             angle_bounds_fn upsample_factor = Err AssertionError.
Proof.
  intros Hu.
  assert (Hb : (1 <=? upsample_factor)%Z = false) by (apply Z.leb_gt; exact Hu).
  split.
  - unfold integrated_flux, _integrated_flux_weights. cbn [ones shape].
    idx_simpl. cbn [Nat.eqb assert bind].
    unfold integrated_flux_upsampled_tape. rewrite Hb. reflexivity.
  - unfold _integrated_flux_upsampled, integrated_flux_upsampled_tape.
    rewrite Hb. reflexivity.
Qed.

Lemma integrated_flux_invalid_upsample_factor_witness :
  let flux := ones [1; 1; 2; 1] in
  let tw := ones [1; 1; 1; 2] in
  let e := {| basis_coefficients := [(0, 0)%Z] |} in
  integrated_flux flux (ones []) tw e (fun polar _ => polar) 0 = Err AssertionError /\
  _integrated_flux_upsampled flux (ones []) tw e (fun polar _ => polar) 0
  = Err AssertionError.
Proof.
  intros flux tw e. apply integrated_flux_invalid_upsample_factor. lia.
Defined.

(** ** Arithmetic on finite values *)

Lemma vdiv_Num (a b : R) : b <> 0%R -> vdiv (Num a) (Num b) = Num (a / b).
Proof. intros Hb. unfold vdiv. destruct (Req_dec_T b 0); [contradiction | reflexivity]. Qed.

Lemma vsqrt_Num (a : R) : (0 <= a)%R -> vsqrt (Num a) = Num (sqrt a).
Proof. intros Ha. unfold vsqrt. destruct (Rlt_dec a 0); [lra | reflexivity]. Qed.

Lemma vgt_Num (a b : R) : vgt (Num a) (Num b) = true <-> (b < a)%R.
Proof.
  unfold vgt. destruct (Rlt_dec b a); split; intros H; try assumption; try reflexivity.
  - discriminate.
  - contradiction.
Qed.

Lemma vasin_Num (a : R) : (-1 <= a <= 1)%R -> vasin (Num a) = Num (asin a).
Proof.
  intros [H1 H2]. unfold vasin.
  destruct (Rle_dec (-1) a); [|contradiction].
  destruct (Rle_dec a 1); [reflexivity | contradiction].
Qed.

Lemma sum_sqr_nonneg (a b : R) : (0 <= a * a + b * b)%R.
Proof. nra. Qed.

Lemma two_PI_neq_0 : (2 * PI)%R <> 0%R.
Proof. pose proof PI_RGT_0. lra. Qed.

Lemma atan2_range (y x : R) : (- PI < atan2 y x <= PI)%R.
Proof.
  pose proof PI_RGT_0 as HPI. unfold atan2.
  destruct (Rlt_dec 0 x) as [Hx|Hx].
  - pose proof (atan_bound (y / x)). lra.
  - destruct (Rlt_dec x 0) as [Hx'|Hx'].
    + pose proof (atan_bound (y / x)) as Hb.
      assert (Hinv : (/ x < 0)%R) by (apply Rinv_lt_0_compat; exact Hx').
      destruct (Rle_dec 0 y) as [Hy|Hy].
      * assert (Hq : (y / x <= 0)%R) by (unfold Rdiv; nra).
        assert (Ha : (atan (y / x) <= 0)%R).
        { destruct Hq as [Hq|Hq].
          - apply Rlt_le. rewrite <- atan_0. apply atan_increasing. exact Hq.
          - rewrite Hq, atan_0. lra. }
        lra.
      * assert (Hq : (0 < y / x)%R) by (unfold Rdiv; nra).
        assert (Ha : (0 < atan (y / x))%R)
          by (rewrite <- atan_0; apply atan_increasing; exact Hq).
        lra.
    + destruct (Rlt_dec 0 y); [lra|]. destruct (Rlt_dec y 0); lra.
Qed.

(** ** Angles *)

(** C4. When the rank of the wavelength is the batch rank of the unflattened
    wavevector grid, [angles_from_unflattened_transverse_wavevectors] returns
    a polar and an azimuthal array; at a bin with finite wavevector [(kx, ky)]
    and finite wavelength [w], with [s = sqrt (kx^2 + ky^2) * w / (2 PI)], the
    polar angle is [arcsin s] when [s <= 1], it is exactly [PI / 2] (not NaN)
    when the magnitude equals or exceeds [2 PI / w] for a positive wavelength,
    and the azimuthal angle is [atan2 ky kx], in [(-PI, PI]]. *)
Theorem angles_from_unflattened_transverse_wavevectors_spec
  (transverse_wavevectors wavelength : ndarray val) :
  (Z.of_nat (ndim transverse_wavevectors) - 3 = Z.of_nat (ndim wavelength))%Z ->
  exists polar azimuthal,
    angles_from_unflattened_transverse_wavevectors transverse_wavevectors wavelength
    = Ok (polar, azimuthal) /\
    forall idx kx ky w,
      get transverse_wavevectors (idx ++ [0]) = Num kx ->
      get transverse_wavevectors (idx ++ [1]) = Num ky ->
      get wavelength (drop_last 2 idx) = Num w ->
      let kt := sqrt (kx * kx + ky * ky) in
      let s := (kt * w / (2 * PI))%R in
      ((s <= 1)%R -> get polar idx = vasin (Num s)) /\
      ((-1 <= s <= 1)%R -> get polar idx = Num (asin s)) /\
      ((0 < w)%R -> (2 * PI / w <= kt)%R -> get polar idx = Num (PI / 2)) /\
      get azimuthal idx = Num (atan2 ky kx) /\
      (- PI < atan2 ky kx <= PI)%R.
Proof.
  intros Hrank. unfold angles_from_unflattened_transverse_wavevectors.
  replace (Z.of_nat (ndim transverse_wavevectors) - 3 =? Z.of_nat (ndim wavelength))%Z
    with true by (symmetry; apply Z.eqb_eq; exact Hrank).
  unfold assert, bind. eexists. eexists. split; [reflexivity|].
  intros idx kx ky w Hkx Hky Hw. cbn [get].
  rewrite Hkx, Hky, Hw. cbn [vmul vadd].
  rewrite vsqrt_Num by apply sum_sqr_nonneg. cbn [vmul].
  rewrite vdiv_Num by apply two_PI_neq_0.
  set (kt := sqrt (kx * kx + ky * ky)). set (s := (kt * w / (2 * PI))%R).
  pose proof PI_RGT_0 as HPI.
  assert (Hle : (s <= 1)%R -> vgt (Num s) (Num 1) = false).
  { intros Hs. apply Bool.not_true_is_false. intros Ht.
    apply vgt_Num in Ht. lra. }
  split; [|split; [|split; [|split]]].
  - intros Hs. rewrite (Hle Hs). reflexivity.
  - intros [Hs1 Hs2]. rewrite (Hle Hs2). apply vasin_Num. lra.
  - intros Hwpos Hevan.
    assert (Hs : (1 <= s)%R).
    { unfold s. apply Rmult_le_reg_r with (r := (2 * PI)%R); [lra|].
      unfold Rdiv. rewrite Rmult_assoc, Rinv_l, Rmult_1_r by lra.
      apply Rmult_le_compat_r with (r := w) in Hevan; [|lra].
      unfold Rdiv in Hevan. rewrite Rmult_assoc, Rinv_l, Rmult_1_r in Hevan by lra.
      lra. }
    destruct (vgt (Num s) (Num 1)) eqn:Hgt; [reflexivity|].
    assert (Hs1 : s = 1%R).
    { destruct (Rle_lt_or_eq_dec 1 s Hs) as [Hlt|Heq]; [|symmetry; exact Heq].
      apply vgt_Num in Hlt. congruence. }
    rewrite Hs1, vasin_Num by lra. rewrite asin_1. reflexivity.
  - unfold angle, cadd, cmul, of_float. cbn [fst snd vmul vadd vsub vneg varctan2].
    f_equal. f_equal; ring.
  - apply atan2_range.
Qed.

Lemma angles_from_unflattened_transverse_wavevectors_spec_witness :
  exists polar azimuthal,
    angles_from_unflattened_transverse_wavevectors (ones [1; 1; 2]) (ones [])
    = Ok (polar, azimuthal) /\
    get azimuthal [0; 0] = Num (atan2 1 1).
Proof.
  destruct (@angles_from_unflattened_transverse_wavevectors_spec (ones [1; 1; 2]) (ones []))
    as (polar & azimuthal & E & Hbin); [reflexivity|].
  exists polar, azimuthal. split; [exact E|].
  destruct (Hbin [0; 0] 1%R 1%R 1%R eq_refl eq_refl eq_refl) as (_ & _ & _ & Ha & _).
  exact Ha.
Defined.

(** ** Solid angles *)




Lemma vdiv_NaN_r (a : val) : vdiv a NaN = NaN.
Proof. destruct a; reflexivity. Qed.




(** ** Finite sums *)

Lemma Rsum_list_acc (A : Type) (l : list A) (f : A -> R) (acc : R) :
  fold_left (fun acc a => (acc + f a)%R) l acc = (acc + Rsum_list l f)%R.
Proof.
  unfold Rsum_list. revert acc. induction l as [|a l IH]; intros acc; simpl.
  - ring.
  - rewrite IH, (IH (0 + f a)%R). ring.
Qed.

Lemma Rsum_list_nil (A : Type) (f : A -> R) : Rsum_list [] f = 0%R.
Proof. reflexivity. Qed.

Lemma Rsum_list_cons (A : Type) (a : A) (l : list A) (f : A -> R) :
  Rsum_list (a :: l) f = (f a + Rsum_list l f)%R.
Proof. unfold Rsum_list at 1. simpl. rewrite Rsum_list_acc. ring. Qed.

Lemma Rsum_list_app (A : Type) (l1 l2 : list A) (f : A -> R) :
  Rsum_list (l1 ++ l2) f = (Rsum_list l1 f + Rsum_list l2 f)%R.
Proof.
  induction l1 as [|a l1 IH]; simpl.
  - rewrite Rsum_list_nil. ring.
  - rewrite !Rsum_list_cons, IH. ring.
Qed.

Lemma Rsum_list_ext (A : Type) (l : list A) (f g : A -> R) :
  (forall a, In a l -> f a = g a) -> Rsum_list l f = Rsum_list l g.
Proof.
  induction l as [|a l IH]; intros H; [reflexivity|].
  rewrite !Rsum_list_cons. rewrite (H a) by now left.
  rewrite IH; [reflexivity|]. intros a' Ha'. apply H. now right.
Qed.

Lemma Rsum_list_zero (A : Type) (l : list A) (f : A -> R) :
  (forall a, In a l -> f a = 0%R) -> Rsum_list l f = 0%R.
Proof.
  induction l as [|a l IH]; intros H; [reflexivity|].
  rewrite Rsum_list_cons. rewrite (H a) by now left.
  rewrite IH; [ring|]. intros a' Ha'. apply H. now right.
Qed.

Lemma Rsum_list_plus (A : Type) (l : list A) (f g : A -> R) :
  Rsum_list l (fun a => (f a + g a)%R) = (Rsum_list l f + Rsum_list l g)%R.
Proof.
  induction l as [|a l IH]; [rewrite !Rsum_list_nil; ring|].
  rewrite !Rsum_list_cons, IH. ring.
Qed.

Lemma Rsum_list_scal (A : Type) (l : list A) (c : R) (f : A -> R) :
  Rsum_list l (fun a => (c * f a)%R) = (c * Rsum_list l f)%R.
Proof.
  induction l as [|a l IH]; [rewrite !Rsum_list_nil; ring|].
  rewrite !Rsum_list_cons, IH. ring.
Qed.

Lemma Rsum_list_scal_r (A : Type) (l : list A) (c : R) (f : A -> R) :
  Rsum_list l (fun a => (f a * c)%R) = (Rsum_list l f * c)%R.
Proof.
  induction l as [|a l IH]; [rewrite !Rsum_list_nil; ring|].
  rewrite !Rsum_list_cons, IH. ring.
Qed.

Lemma Rsum_list_swap (A B : Type) (l1 : list A) (l2 : list B) (f : A -> B -> R) :
  Rsum_list l1 (fun a => Rsum_list l2 (fun b => f a b)) =
  Rsum_list l2 (fun b => Rsum_list l1 (fun a => f a b)).
Proof.
  induction l1 as [|a l1 IH].
  - rewrite Rsum_list_nil. symmetry. apply Rsum_list_zero. intros; apply Rsum_list_nil.
  - rewrite Rsum_list_cons, IH, <- Rsum_list_plus.
    apply Rsum_list_ext. intros b _. rewrite Rsum_list_cons. reflexivity.
Qed.

Lemma Rsum_list_flat_map (A B : Type) (l : list A) (g : A -> list B) (f : B -> R) :
  Rsum_list (flat_map g l) f = Rsum_list l (fun a => Rsum_list (g a) f).
Proof.
  induction l as [|a l IH]; [reflexivity|].
  simpl. rewrite Rsum_list_app, Rsum_list_cons, IH. reflexivity.
Qed.

Lemma Rsum_list_map (A B : Type) (l : list A) (g : A -> B) (f : B -> R) :
  Rsum_list (map g l) f = Rsum_list l (fun a => f (g a)).
Proof.
  induction l as [|a l IH]; [reflexivity|].
  simpl. rewrite !Rsum_list_cons, IH. reflexivity.
Qed.

(** The sum of a function that vanishes everywhere but at one entry of a
    duplicate-free list. *)
Lemma Rsum_list_single (A : Type) (l : list A) (q : A) (f : A -> R) :
  NoDup l -> In q l -> (forall a, In a l -> a <> q -> f a = 0%R) ->
  Rsum_list l f = f q.
Proof.
  induction l as [|a l IH]; intros Hnd Hin Hz; [destruct Hin|].
  rewrite Rsum_list_cons. inversion Hnd as [|? ? Hnotin Hnd']; subst.
  destruct Hin as [->|Hin].
  - rewrite Rsum_list_zero; [ring|].
    intros a Ha. apply Hz; [now right|]. intros ->. contradiction.
  - rewrite IH; auto.
    + rewrite (Hz a); [ring | now left | intros ->; contradiction].
    + intros a' Ha' Hne. apply Hz; [now right | assumption].
Qed.

Lemma Rsum_ext (n : nat) (f g : nat -> R) :
  (forall i, i < n -> f i = g i) -> Rsum n f = Rsum n g.
Proof.
  intros H. apply Rsum_list_ext. intros i Hi. apply in_seq in Hi. apply H. lia.
Qed.

Lemma Rsum_single (n q : nat) (f : nat -> R) :
  q < n -> (forall i, i < n -> i <> q -> f i = 0%R) -> Rsum n f = f q.
Proof.
  intros Hq Hz. apply Rsum_list_single.
  - apply seq_NoDup.
  - apply in_seq. lia.
  - intros i Hi. apply in_seq in Hi. apply Hz. lia.
Qed.

Lemma vsum_list_Num (A : Type) (l : list A) (f : A -> val) (g : A -> R) :
  (forall a, In a l -> f a = Num (g a)) ->
  vsum_list l f = Num (Rsum_list l g).
Proof.
  unfold vsum_list, Rsum_list.
  generalize 0%R. induction l as [|a l IH]; intros acc H; [reflexivity|].
  simpl. rewrite (H a) by (simpl; auto). cbn [vadd].
  apply IH. intros a' Ha'. apply H. now right.
Qed.

Lemma vsum_Num (n : nat) (f : nat -> val) (g : nat -> R) :
  (forall i, i < n -> f i = Num (g i)) -> vsum n f = Num (Rsum n g).
Proof.
  intros H. apply vsum_list_Num. intros i Hi. apply in_seq in Hi. apply H. lia.
Qed.

(** ** Scatter and its transpose *)

Lemma norm_index_lt (dim : nat) (z : Z) (X : nat) :
  norm_index dim z = Some X -> X < dim.
Proof.
  unfold norm_index.
  destruct ((0 <=? _)%Z && (_ <? Z.of_nat dim)%Z)%bool eqn:E; [|discriminate].
  intros [= <-]. apply andb_prop in E. destruct E as [E1 E2].
  apply Z.leb_le in E1. apply Z.ltb_lt in E2. lia.
Qed.

Section ScatterTranspose.

Variable P : Type.
Variables (H W : nat) (di dj : P -> Z).
Variable eqb : P -> P -> bool.
Hypothesis eqb_spec : forall p q, eqb p q = true <-> p = q.

Abbreviation hit := (hitb H W di dj).

Lemma hitb_unique (p : P) (X Y X' Y' : nat) :
  hit p X Y = true -> hit p X' Y' = true -> X = X' /\ Y = Y'.
Proof.
  unfold hitb. destruct (norm_index H (di p)), (norm_index W (dj p)); try discriminate.
  intros E1 E2. apply andb_prop in E1, E2.
  destruct E1 as [A1 B1], E2 as [A2 B2]. apply Nat.eqb_eq in A1, B1, A2, B2. lia.
Qed.

Lemma hitb_norm (p : P) (X Y : nat) :
  hit p X Y = true <->
  norm_index H (di p) = Some X /\ norm_index W (dj p) = Some Y.
Proof.
  unfold hitb. destruct (norm_index H (di p)), (norm_index W (dj p)); split;
    try discriminate; try (intros [? ?]; discriminate).
  - intros E. apply andb_prop in E. destruct E as [A B].
    apply Nat.eqb_eq in A, B. subst. auto.
  - intros [[= ->] [= ->]]. rewrite !Nat.eqb_refl. reflexivity.
Qed.

Lemma scatter_with_tags (V : Type) (fv : P -> V) (base : V) (ps : list P)
  (g : nat -> nat -> V) (t0 : nat -> nat -> option P) (X Y : nat) :
  g X Y = match t0 X Y with Some p => fv p | None => base end ->
  scatter H W g (map di ps) (map dj ps) (map fv ps) X Y =
  match scatter H W t0 (map di ps) (map dj ps) (map Some ps) X Y with
  | Some p => fv p
  | None => base
  end.
Proof.
  revert g t0. induction ps as [|a ps' IH]; intros g t0 Hinit; [exact Hinit|].
  simpl. apply IH.
  rewrite (at_set_hitb H W di dj fv g a X Y).
  rewrite (at_set_hitb H W di dj (@Some P) t0 a X Y).
  destruct (hitb H W di dj a X Y); [reflexivity | exact Hinit].
Qed.

Lemma scatter_tags_spec (V : Type) (fv : P -> V) (base : V) (ps : list P) (X Y : nat) :
  scatter H W (fun _ _ => base) (map di ps) (map dj ps) (map fv ps) X Y =
  match scatter_tags H W di dj ps X Y with
  | Some p => fv p
  | None => base
  end.
Proof. apply scatter_with_tags. reflexivity. Qed.

Lemma scatter_Some_inv (ps : list P) (t0 : nat -> nat -> option P) (X Y : nat) (p : P) :
  scatter H W t0 (map di ps) (map dj ps) (map Some ps) X Y = Some p ->
  t0 X Y = Some p \/ (In p ps /\ hit p X Y = true).
Proof.
  revert t0. induction ps as [|a ps' IH]; intros t0 E; [now left|].
  simpl in E. apply IH in E. destruct E as [E|[Hin Hh]].
  - rewrite (at_set_hitb H W di dj (@Some P) t0 a X Y) in E.
    destruct (hitb H W di dj a X Y) eqn:Ha.
    + injection E as <-. right. split; [now left | exact Ha].
    + now left.
  - right. split; [now right | exact Hh].
Qed.

Lemma scatter_tags_inv (ps : list P) (X Y : nat) (p : P) :
  scatter_tags H W di dj ps X Y = Some p -> In p ps /\ hit p X Y = true.
Proof.
  intros E. apply scatter_Some_inv in E. destruct E as [E|E]; [discriminate | exact E].
Qed.

Abbreviation tagb := (tagb H W di dj eqb).

Lemma tagb_hit (ps : list P) (p : P) (X Y : nat) :
  tagb ps p X Y = true -> hit p X Y = true.
Proof.
  unfold tagb. destruct (scatter_tags H W di dj ps X Y) as [q|] eqn:E; [|discriminate].
  intros Heq. apply eqb_spec in Heq. subst q. apply scatter_tags_inv in E. apply E.
Qed.

(** The transpose of scatter as a sum: gathering the cotangent [c] at the
    destination of each update that remained pairs with the scattered values
    as [c] pairs with the grid. *)
Lemma scatter_transpose (ps : list P) (f : P -> R) (c : nat -> nat -> R) :
  NoDup ps ->
  Rsum H (fun X => Rsum W (fun Y =>
    (c X Y * match scatter_tags H W di dj ps X Y with Some p => f p | None => 0 end)%R)) =
  Rsum_list ps (fun p =>
    (match norm_index H (di p), norm_index W (dj p) with
     | Some X, Some Y => if tagb ps p X Y then c X Y else 0
     | _, _ => 0
     end * f p)%R).
Proof.
  intros Hnd.
  transitivity (Rsum H (fun X => Rsum W (fun Y =>
    Rsum_list ps (fun p => if tagb ps p X Y then (c X Y * f p)%R else 0%R)))).
  - apply Rsum_ext. intros X _. apply Rsum_ext. intros Y _.
    unfold tagb. destruct (scatter_tags H W di dj ps X Y) as [q|] eqn:E.
    + destruct (scatter_tags_inv _ _ _ E) as [Hin _].
      rewrite (Rsum_list_single (q := q)); auto.
      * replace (eqb q q) with true by (symmetry; apply eqb_spec; reflexivity).
        reflexivity.
      * intros a _ Hne. destruct (eqb a q) eqn:Ea; [|reflexivity].
        apply eqb_spec in Ea. contradiction.
    + rewrite Rsum_list_zero; [ring | reflexivity].
  - unfold Rsum.
    rewrite Rsum_list_ext with
      (g := fun X => Rsum_list ps (fun p => Rsum_list (seq 0 W) (fun Y =>
              if tagb ps p X Y then (c X Y * f p)%R else 0%R)))
      by (intros; apply Rsum_list_swap).
    rewrite Rsum_list_swap.
    apply Rsum_list_ext. intros p _.
    destruct (norm_index H (di p)) as [X0|] eqn:EX;
      [destruct (norm_index W (dj p)) as [Y0|] eqn:EY|].
    + assert (Hh : hit p X0 Y0 = true) by (apply hitb_norm; auto).
      apply norm_index_lt in EX as HX0. apply norm_index_lt in EY as HY0.
      fold (Rsum H (fun X => Rsum_list (seq 0 W) (fun Y =>
              if tagb ps p X Y then (c X Y * f p)%R else 0%R))).
      rewrite (Rsum_single (q := X0)); auto.
      * fold (Rsum W (fun Y => if tagb ps p X0 Y then (c X0 Y * f p)%R else 0%R)).
        rewrite (Rsum_single (q := Y0)); auto.
        -- destruct (tagb ps p X0 Y0); ring.
        -- intros Y _ Hne. destruct (tagb ps p X0 Y) eqn:Et; [|reflexivity].
           apply tagb_hit in Et. destruct (hitb_unique _ _ _ _ _ Et Hh). contradiction.
      * intros X _ Hne. apply Rsum_list_zero. intros Y _.
        destruct (tagb ps p X Y) eqn:Et; [|reflexivity].
        apply tagb_hit in Et. destruct (hitb_unique _ _ _ _ _ Et Hh). contradiction.
    + rewrite Rsum_list_zero; [ring|]. intros X _. apply Rsum_list_zero. intros Y _.
      destruct (tagb ps p X Y) eqn:Et; [|reflexivity].
      apply tagb_hit, hitb_norm in Et. destruct Et as [_ Et]. congruence.
    + rewrite Rsum_list_zero; [ring|]. intros X _. apply Rsum_list_zero. intros Y _.
      destruct (tagb ps p X Y) eqn:Et; [|reflexivity].
      apply tagb_hit, hitb_norm in Et. destruct Et as [Et _]. congruence.
Qed.

End ScatterTranspose.

(** ** Contractions *)

Lemma contract_Num (n_in n_out X : nat) (f : nat -> val) (g : nat -> R) :
  (forall x, f x = Num (g x)) ->
  contract n_in n_out X f = Num (contractR n_in n_out X g).
Proof.
  intros Hf. unfold contract, contractR. destruct (n_in =? n_out); [apply Hf|].
  apply vsum_Num. intros x _. rewrite Hf. reflexivity.
Qed.

Lemma contract_T_Num (n_in n_out x : nat) (f : nat -> val) (h : nat -> R) :
  (forall X, f X = Num (h X)) ->
  contract_T n_in n_out x f = Num (contractTR n_in n_out x h).
Proof.
  intros Hf. unfold contract_T, contractTR. destruct (n_in =? n_out); [apply Hf|].
  apply vsum_Num. intros X _. rewrite Hf. reflexivity.
Qed.

Lemma contractR_ext (n_in n_out X : nat) (g g' : nat -> R) :
  (forall x, g x = g' x) -> contractR n_in n_out X g = contractR n_in n_out X g'.
Proof.
  intros Hg. unfold contractR. destruct (n_in =? n_out); [apply Hg|].
  apply Rsum_ext. intros x _. rewrite Hg. reflexivity.
Qed.

Lemma contract_adjoint (n_in n_out : nat) (a g : nat -> R) :
  Rsum n_out (fun X => (a X * contractR n_in n_out X g)%R) =
  Rsum n_in (fun x => (contractTR n_in n_out x a * g x)%R).
Proof.
  unfold contractR, contractTR. destruct (n_in =? n_out) eqn:E.
  - apply Nat.eqb_eq in E. subst. reflexivity.
  - unfold Rsum.
    rewrite Rsum_list_ext with
      (g := fun X => Rsum_list (seq 0 n_in)
                       (fun x => (a X * (g x * compute_weight n_in n_out x X))%R))
      by (intros; symmetry; apply Rsum_list_scal).
    rewrite Rsum_list_swap. apply Rsum_list_ext. intros x _.
    rewrite <- Rsum_list_scal_r. apply Rsum_list_ext. intros X _. ring.
Qed.

Lemma resize_adjoint (H uH W uW : nat) (a g : nat -> nat -> R) :
  Rsum uH (fun X' => Rsum uW (fun Y' =>
    (a X' Y' * contractR H uH X' (fun X => contractR W uW Y' (fun Y => g X Y)))%R)) =
  Rsum H (fun X => Rsum W (fun Y =>
    (contractTR W uW Y (fun Y' => contractTR H uH X (fun X' => a X' Y')) * g X Y)%R)).
Proof.
  unfold Rsum at 1 2. rewrite Rsum_list_swap.
  rewrite Rsum_list_ext with
    (g := fun Y' => Rsum H (fun X =>
            (contractTR H uH X (fun X' => a X' Y') * contractR W uW Y' (fun Y => g X Y))%R))
    by (intros Y' _; apply (contract_adjoint H uH (fun X' => a X' Y')
                              (fun X => contractR W uW Y' (fun Y => g X Y)))).
  unfold Rsum at 1. rewrite Rsum_list_swap.
  apply Rsum_list_ext. intros X _.
  apply (contract_adjoint W uW (fun Y' => contractTR H uH X (fun X' => a X' Y'))
           (fun Y => g X Y)).
Qed.

(** ** Re-indexing *)

Lemma Rsum_list_seq_shift (a b : nat) (g : nat -> R) :
  Rsum_list (seq a b) g = Rsum_list (seq 0 b) (fun i => g (a + i)%nat).
Proof.
  revert a g. induction b as [|b IH]; intros a g; [reflexivity|].
  simpl seq. rewrite !Rsum_list_cons, (IH (S a)), (IH 1).
  rewrite Nat.add_0_r. f_equal. apply Rsum_list_ext. intros i _. f_equal. lia.
Qed.

Lemma Rsum_add (a b : nat) (g : nat -> R) :
  Rsum (a + b) g = (Rsum a g + Rsum b (fun i => g (a + i)%nat))%R.
Proof.
  unfold Rsum. rewrite seq_app, Rsum_list_app. simpl. f_equal. apply Rsum_list_seq_shift.
Qed.

Lemma Rsum_mul (m n : nat) (g : nat -> R) :
  Rsum (m * n) g = Rsum m (fun p => Rsum n (fun k => g (p * n + k)%nat)).
Proof.
  revert g. induction m as [|m IH]; intros g; [reflexivity|].
  simpl Nat.mul. rewrite Rsum_add, IH.
  change (S m) with (1 + m). rewrite (Rsum_add 1 m).
  f_equal.
  - unfold Rsum at 2. simpl seq. rewrite Rsum_list_cons, Rsum_list_nil, Rplus_0_r.
    apply Rsum_ext. intros k _. reflexivity.
  - apply Rsum_ext. intros p _. apply Rsum_ext. intros k _. f_equal. lia.
Qed.

Lemma Rsum_positions (nx ny nt : nat) (h : nat * nat * nat -> R) :
  Rsum_list (positions nx ny nt) h =
  Rsum nx (fun x => Rsum ny (fun y => Rsum nt (fun k => h (x, y, k)))).
Proof.
  unfold positions, Rsum. rewrite Rsum_list_flat_map.
  apply Rsum_list_ext. intros x _. rewrite Rsum_list_flat_map.
  apply Rsum_list_ext. intros y _. apply Rsum_list_map.
Qed.

Lemma NoDup_flat_map (A B : Type) (g : A -> list B) (l : list A) :
  NoDup l -> (forall a, In a l -> NoDup (g a)) ->
  (forall a a' b, In a l -> In a' l -> In b (g a) -> In b (g a') -> a = a') ->
  NoDup (flat_map g l).
Proof.
  induction l as [|a l IH]; intros Hnd Hg Hdis; [constructor|].
  simpl. inversion Hnd as [|? ? Hnotin Hnd']; subst.
  apply NoDup_app.
  - apply Hg. now left.
  - apply IH; [assumption | intros; apply Hg; now right |].
    intros a1 a2 b H1 H2. apply Hdis; now right.
  - intros b Hb Hb'. apply in_flat_map in Hb'. destruct Hb' as (a' & Ha' & Hb').
    assert (a = a') by (apply (Hdis a a' b); [now left | now right | assumption | assumption]).
    subst. contradiction.
Qed.

Lemma NoDup_positions (nx ny nt : nat) : NoDup (positions nx ny nt).
Proof.
  unfold positions. apply NoDup_flat_map.
  - apply seq_NoDup.
  - intros x _. apply NoDup_flat_map.
    + apply seq_NoDup.
    + intros y _. apply NoDup_map_NoDup_ForallPairs; [|apply seq_NoDup].
      intros k k' _ _ E. congruence.
    + intros y y' p _ _ Hp Hp'. apply in_map_iff in Hp, Hp'.
      destruct Hp as (k & <- & _), Hp' as (k' & E & _). congruence.
  - intros x x' p _ _ Hp Hp'. apply in_flat_map in Hp, Hp'.
    destruct Hp as (y & _ & Hp), Hp' as (y' & _ & Hp').
    apply in_map_iff in Hp, Hp'.
    destruct Hp as (k & <- & _), Hp' as (k' & E & _). congruence.
Qed.

Lemma pos_eqb_spec (p q : nat * nat * nat) : pos_eqb p q = true <-> p = q.
Proof.
  destruct p as [[x y] k], q as [[x' y'] k']. unfold pos_eqb.
  rewrite !andb_true_iff, !Nat.eqb_eq. split.
  - intros [[-> ->] ->]. reflexivity.
  - intros [= -> -> ->]. auto.
Qed.

(** ** The structure of the integrated-flux pipeline *)

Lemma unflatten_flux_spec (flux : ndarray val) (e : Expansion) :
  match flux_checks (shape flux) e with
  | Err er => unflatten_flux flux e = Err er
  | Ok plan =>
      exists g,
        unflatten_flux flux e = Ok g /\
        shape g = drop_last 4 (shape flux) ++
                  [out_H plan; out_W plan; 2; from_end 1 (shape flux)] /\
        forall b X Y p s,
          get g (b ++ [X; Y; p; s]) =
          match scatter_tags (out_H plan) (out_W plan) (merged_i plan) (merged_j plan)
                  (positions (from_end 4 (shape flux)) (from_end 3 (shape flux))
                             (num_terms e)) X Y with
          | Some (x, y, k) => get flux (b ++ [x; y; p * num_terms e + k; s])
          | None => NaN
          end
  end.
Proof.
  unfold flux_checks, unflatten_flux. change (length (shape flux)) with (ndim flux).
  destruct (4 <=? ndim flux) eqn:E4; cbn [assert bind]; [|reflexivity].
  destruct (from_end 2 (shape flux) =? 2 * num_terms e) eqn:E2; cbn [assert bind];
    [|reflexivity].
  apply Nat.eqb_eq in E2.
  assert (Hnt : from_end 2 (shape flux) / 2 = num_terms e)
    by (rewrite E2, Nat.mul_comm; apply Nat.div_mul; lia).
  unfold unflatten. cbn [shape].
  match goal with
  | |- context [3 <=? ndim ?a] =>
      replace (3 <=? ndim a) with true
        by (symmetry; apply Nat.leb_le; unfold ndim; cbn [shape];
            rewrite length_app; simpl; lia)
  end.
  idx_simpl. rewrite Hnt, Nat.eqb_refl. cbn [assert bind].
  destruct (merged_indices (from_end 4 (shape flux)) (from_end 3 (shape flux)) e)
    as [plan|er] eqn:Eplan; cbn [bind]; [|reflexivity].
  eexists. split; [reflexivity|]. split.
  - cbn [shape]. idx_simpl. reflexivity.
  - intros b X Y p s. cbn [get]. unfold full.
    rewrite scatter_tags_spec. idx_simpl.
    destruct (scatter_tags _ _ _ _ _ X Y) as [[[x y] k]|]; [|reflexivity].
    idx_simpl. reflexivity.
Qed.

Lemma tape_eq (flux wavelength transverse_wavevectors : ndarray val) (e : Expansion)
  (angle_bounds_fn : mask_fn) (upsample_factor : Z) :
  integrated_flux_upsampled_tape flux wavelength transverse_wavevectors e
                                 angle_bounds_fn upsample_factor =
  (_ <- assert (1 <=? upsample_factor)%Z ;;
   unflattened <- unflatten_flux flux e ;;
   selected <- selected_mask (ndim flux) wavelength transverse_wavevectors e
                             angle_bounds_fn upsample_factor ;;
   Ok (finish_tape upsample_factor unflattened selected)).
Proof.
  unfold integrated_flux_upsampled_tape.
  destruct (assert (1 <=? upsample_factor)%Z) as [[]|er]; cbn [bind]; [|reflexivity].
  pose proof (unflatten_flux_spec flux e) as Hspec.
  destruct (flux_checks (shape flux) e) as [plan|er].
  - destruct Hspec as (g & -> & Hshape & _). cbn [bind].
    unfold selected_mask.
    destruct (unflatten_transverse_wavevectors transverse_wavevectors e) as [tw|er];
      cbn [bind]; [|reflexivity].
    cbn [nan_to_zero shape]. rewrite Hshape. idx_simpl. cbn [Nat.eqb assert bind].
    destruct (assert _) as [[]|er]; cbn [bind]; [|reflexivity].
    destruct (squeeze2 _ _) as [wl|er]; cbn [bind]; [|reflexivity].
    destruct (angles_from_unflattened_transverse_wavevectors _ _) as [angles|er];
      cbn [bind]; [|reflexivity].
    unfold finish_tape. cbn [nan_to_zero shape]. rewrite Hshape. idx_simpl. reflexivity.
  - rewrite Hspec. reflexivity.
Qed.

(** ** The weights are the coefficients of the masked upsampled sum *)

Lemma Rsum_swap (n m : nat) (f : nat -> nat -> R) :
  Rsum n (fun i => Rsum m (fun j => f i j)) = Rsum m (fun j => Rsum n (fun i => f i j)).
Proof. apply Rsum_list_swap. Qed.

Lemma Rsum_scal_r (n : nat) (c : R) (f : nat -> R) :
  Rsum n (fun i => (f i * c)%R) = (Rsum n f * c)%R.
Proof. apply Rsum_list_scal_r. Qed.

Lemma mod_block (p k n : nat) : k < n -> (p * n + k) mod n = k.
Proof.
  intros Hk. rewrite Nat.add_comm, Nat.Div0.mod_add. apply Nat.mod_small. exact Hk.
Qed.

Lemma div_block (p k n : nat) : k < n -> (p * n + k) / n = p.
Proof.
  intros Hk. rewrite Nat.add_comm, Nat.div_add by lia.
  rewrite Nat.div_small by exact Hk. reflexivity.
Qed.

Lemma linear_form (plan : index_plan) (nx ny nt : nat) (u : Z) (sel : ndarray val)
  (f : ndarray R) (b : list nat) (s : nat) :
  Rsum nx (fun x => Rsum ny (fun y => Rsum (2 * nt) (fun t =>
    (weight_coefficient plan nx ny nt u sel b x y t * get f (b ++ [x; y; t; s]))%R)))
  = direct_value plan nx ny nt u sel f b s.
Proof.
  set (wt := fun q : nat * nat * nat =>
    match norm_index (out_H plan) (merged_i plan q),
          norm_index (out_W plan) (merged_j plan q) with
    | Some X, Some Y =>
        if tagb (out_H plan) (out_W plan) (merged_i plan) (merged_j plan) pos_eqb
                (positions nx ny nt) q X Y
        then bin_cotangent plan u sel b X Y else 0%R
    | _, _ => 0%R
    end).
  set (fp := fun (p : nat) (q : nat * nat * nat) =>
    let '(x, y, k) := q in get f (b ++ [x; y; p * nt + k; s])).
  transitivity (Rsum 2 (fun p => Rsum_list (positions nx ny nt)
                                   (fun q => (wt q * fp p q)%R))).
  - transitivity (Rsum nx (fun x => Rsum 2 (fun p => Rsum ny (fun y => Rsum nt (fun k =>
                    (wt (x, y, k) * fp p (x, y, k))%R))))).
    + apply Rsum_ext. intros x _.
      transitivity (Rsum ny (fun y => Rsum 2 (fun p => Rsum nt (fun k =>
                      (wt (x, y, k) * fp p (x, y, k))%R)))); [|apply Rsum_swap].
      apply Rsum_ext. intros y _.
      rewrite Rsum_mul. apply Rsum_ext. intros p _. apply Rsum_ext. intros k Hk.
      unfold weight_coefficient, wt, fp. rewrite mod_block by exact Hk. reflexivity.
    + rewrite Rsum_swap. apply Rsum_ext. intros p _.
      rewrite Rsum_positions. reflexivity.
  - unfold direct_value.
    set (H := out_H plan). set (W := out_W plan).
    set (uH := Z.to_nat u * H). set (uW := Z.to_nat u * W).
    set (U := IZR (u ^ 2)).
    set (C := fun p X' Y' =>
      contractR H uH X' (fun X => contractR W uW Y' (fun Y =>
        unflattened_value plan nx ny nt f b p s X Y))).
    transitivity (Rsum 2 (fun p => Rsum uH (fun X' => Rsum uW (fun Y' =>
                    (mask_weight sel b X' Y' / U * C p X' Y')%R)))).
    + apply Rsum_ext. intros p _. unfold C.
      rewrite (resize_adjoint H uH W uW (fun X' Y' => (mask_weight sel b X' Y' / U)%R)
                 (fun X Y => unflattened_value plan nx ny nt f b p s X Y)).
      symmetry.
      apply (@scatter_transpose _ (out_H plan) (out_W plan) (merged_i plan) (merged_j plan)
               pos_eqb pos_eqb_spec (positions nx ny nt) (fp p)
               (bin_cotangent plan u sel b) (NoDup_positions nx ny nt)).
    + unfold Rdiv at 2. rewrite <- Rsum_scal_r.
      rewrite Rsum_swap with (n := 2).
      apply Rsum_ext. intros X' _. rewrite <- Rsum_scal_r.
      rewrite Rsum_swap with (n := 2).
      apply Rsum_ext. intros Y' _. rewrite <- Rsum_scal_r.
      apply Rsum_ext. intros p _. unfold C, Rdiv. ring.
Qed.

Lemma IZR_sqr_neq_0 (u : Z) : (1 <= u)%Z -> IZR (u ^ 2) <> 0%R.
Proof. intros Hu. apply not_0_IZR. nia. Qed.

(** The result of the forward pass on a real-valued flux. *)
Lemma finish_tape_result (u : Z) (g sel : ndarray val) (f : ndarray R)
  (plan : index_plan) (nx ny nt ns : nat) (bs : list nat) :
  (1 <= u)%Z ->
  shape g = bs ++ [out_H plan; out_W plan; 2; ns] ->
  (forall b X Y p s,
     get g (b ++ [X; Y; p; s]) =
     match scatter_tags (out_H plan) (out_W plan) (merged_i plan) (merged_j plan)
                        (positions nx ny nt) X Y with
     | Some (x, y, k) => Num (get f (b ++ [x; y; p * nt + k; s]))
     | None => NaN
     end) ->
  shape (tape_result (finish_tape u g sel)) = bs ++ [ns] /\
  forall idx,
    get (tape_result (finish_tape u g sel)) idx =
    Num (direct_value plan nx ny nt u sel f (drop_last 1 idx) (from_end 1 idx)).
Proof.
  intros Hu Hshape Hg. unfold finish_tape.
  cbn [tape_result get shape nan_to_zero resize_linear]. rewrite Hshape. idx_simpl.
  split; [reflexivity|]. intros idx.
  unfold direct_value. rewrite <- vdiv_Num by (apply IZR_sqr_neq_0; exact Hu).
  f_equal. apply vsum_Num. intros X' _. apply vsum_Num. intros Y' _.
  apply vsum_Num. intros p _. idx_simpl. unfold mask_weight.
  destruct (truthy (get sel (drop_last 1 idx ++ [X'; Y']))).
  - rewrite Rmult_1_l. apply contract_Num. intros x. apply contract_Num. intros y.
    idx_simpl. rewrite Hg. unfold unflattened_value.
    destruct (scatter_tags _ _ _ _ _ x y) as [[[x0 y0] k0]|]; reflexivity.
  - rewrite Rmult_0_l. reflexivity.
Qed.

(** The gradient computed by the backward pass. *)
Lemma backward_pass_value (u : Z) (gd sel : ndarray val) (e : Expansion)
  (plan : index_plan) (nx ny : nat) (bs : list nat) :
  (1 <= u)%Z ->
  0 < num_terms e ->
  merged_indices nx ny e = Ok plan ->
  shape gd = bs ++ [out_H plan; out_W plan; 2; 1] ->
  (forall b X Y p s,
     get gd (b ++ [X; Y; p; s]) =
     match scatter_tags (out_H plan) (out_W plan) (merged_i plan) (merged_j plan)
                        (positions nx ny (num_terms e)) X Y with
     | Some _ => Num 1
     | None => NaN
     end) ->
  exists w,
    backward_pass (finish_tape u gd sel) (bs ++ [nx; ny; 2 * num_terms e; 1]) e u = Ok w /\
    shape w = bs ++ [nx; ny; 2 * num_terms e; 1] /\
    forall b x y t,
      get w (b ++ [x; y; t; 0]) =
      Num (weight_coefficient plan nx ny (num_terms e) u sel b x y t).
Proof.
  intros Hu Hnt Hplan Hshape Hgd.
  assert (Hdiv : 2 * num_terms e / 2 = num_terms e)
    by (rewrite Nat.mul_comm; apply Nat.div_mul; lia).
  unfold backward_pass, unflatten_flux_vjp, unflatten_vjp.
  cbn [tape_unflattened tape_selected tape_result finish_tape shape].
  idx_simpl. rewrite Hdiv, Hplan. cbn [bind].
  eexists. split; [reflexivity|]. split; [reflexivity|].
  intros b x y t. cbn [get]. idx_simpl.
  unfold weight_coefficient.
  destruct (norm_index (out_H plan) (merged_i plan (x, y, t mod num_terms e))) as [X|];
    [|reflexivity].
  destruct (norm_index (out_W plan) (merged_j plan (x, y, t mod num_terms e))) as [Y|];
    [|reflexivity].
  unfold tagb. fold (scatter_tags (out_H plan) (out_W plan) (merged_i plan) (merged_j plan)
                       (positions nx ny (num_terms e))).
  destruct (scatter_tags _ _ _ _ _ X Y) as [q|] eqn:Etag; [|reflexivity].
  destruct (pos_eqb (x, y, t mod num_terms e) q); [|reflexivity].
  idx_simpl. rewrite Hgd, Etag. cbn [isnan].
  unfold resize_linear_T. cbn [get shape]. rewrite Hshape. idx_simpl.
  unfold bin_cotangent.
  apply contract_T_Num. intros Y'. apply contract_T_Num. intros X'.
  idx_simpl. unfold mask_weight.
  destruct (truthy (get sel (b ++ [X'; Y']))).
  - cbn [ones get]. rewrite vdiv_Num by (apply IZR_sqr_neq_0; exact Hu). reflexivity.
  - f_equal. unfold Rdiv. ring.
Qed.

Lemma last_four (sh : list nat) :
  4 <= length sh -> exists bs a b c d, sh = bs ++ [a; b; c; d].
Proof.
  intros Hlen. exists (firstn (length sh - 4) sh).
  assert (Ht : length (skipn (length sh - 4) sh) = 4) by (rewrite length_skipn; lia).
  destruct (skipn (length sh - 4) sh) as [|a [|b [|c [|d [|? ?]]]]] eqn:E;
    try discriminate.
  exists a, b, c, d. rewrite <- E. symmetry. apply firstn_skipn.
Qed.

Lemma flux_checks_dummy (sh : list nat) (e : Expansion) :
  flux_checks (drop_last 1 sh ++ [1]) e = flux_checks sh e.
Proof.
  unfold flux_checks.
  destruct (Nat.le_gt_cases 4 (length sh)) as [Hlen|Hlen].
  - destruct (last_four sh Hlen) as (bs & a & b & c & d & ->).
    idx_simpl. rewrite !length_app. reflexivity.
  - replace (4 <=? length sh) with false by (symmetry; apply Nat.leb_gt; exact Hlen).
    replace (4 <=? length (drop_last 1 sh ++ [1])) with false; [reflexivity|].
    symmetry. apply Nat.leb_gt. unfold drop_last.
    rewrite length_app, length_firstn. simpl. lia.
Qed.

Lemma flux_checks_Ok (sh : list nat) (e : Expansion) (plan : index_plan) :
  flux_checks sh e = Ok plan ->
  exists bs nx ny ns,
    sh = bs ++ [nx; ny; 2 * num_terms e; ns] /\
    merged_indices nx ny e = Ok plan /\ 0 < num_terms e.
Proof.
  unfold flux_checks. intros Hc.
  destruct (4 <=? length sh) eqn:E4; cbn [assert bind] in Hc; [|discriminate].
  apply Nat.leb_le in E4. destruct (last_four sh E4) as (bs & a & b & c & d & ->).
  revert Hc. idx_simpl.
  destruct (c =? 2 * num_terms e) eqn:E2; cbn [assert bind]; [|discriminate].
  apply Nat.eqb_eq in E2. subst c. intros Hc.
  exists bs, a, b, d. split; [reflexivity|]. split; [exact Hc|].
  unfold merged_indices, num_terms in *.
  destruct (basis_coefficients e); [discriminate Hc | simpl; lia].
Qed.

Lemma four_tail_inj (bs bs' : list nat) (a b c d a' b' c' d' : nat) :
  bs ++ [a; b; c; d] = bs' ++ [a'; b'; c'; d'] ->
  bs = bs' /\ a = a' /\ b = b' /\ c = c' /\ d = d'.
Proof.
  intros E.
  pose proof (f_equal (drop_last 4) E) as E0. revert E0. idx_simpl. intros E0.
  pose proof (f_equal (from_end 4) E) as E4. revert E4. idx_simpl. intros E4.
  pose proof (f_equal (from_end 3) E) as E3. revert E3. idx_simpl. intros E3.
  pose proof (f_equal (from_end 2) E) as E2. revert E2. idx_simpl. intros E2.
  pose proof (f_equal (from_end 1) E) as E1. revert E1. idx_simpl. intros E1.
  auto.
Qed.

Lemma upsampled_spec
  (f : ndarray R) (wavelength transverse_wavevectors : ndarray val) (e : Expansion)
  (angle_bounds_fn : mask_fn) (u : Z) :
  match pipeline_checks (shape f) wavelength transverse_wavevectors e angle_bounds_fn u with
  | Err er =>
      _integrated_flux_upsampled (of_real f) wavelength transverse_wavevectors e
                                 angle_bounds_fn u = Err er
  | Ok (plan, sel) =>
      exists bs nx ny ns r,
        shape f = bs ++ [nx; ny; 2 * num_terms e; ns] /\
        merged_indices nx ny e = Ok plan /\
        _integrated_flux_upsampled (of_real f) wavelength transverse_wavevectors e
                                   angle_bounds_fn u = Ok r /\
        shape r = bs ++ [ns] /\
        forall idx,
          get r idx = Num (direct_value plan nx ny (num_terms e) u sel f
                                        (drop_last 1 idx) (from_end 1 idx))
  end.
Proof.
  unfold pipeline_checks, _integrated_flux_upsampled. rewrite tape_eq.
  destruct (1 <=? u)%Z eqn:Eu; cbn [assert bind]; [|reflexivity].
  apply Z.leb_le in Eu.
  pose proof (unflatten_flux_spec (of_real f) e) as Hf. cbn [shape of_real] in Hf.
  destruct (flux_checks (shape f) e) as [plan|er] eqn:Echk; cbn [bind].
  - destruct (flux_checks_Ok _ _ Echk) as (bs & nx & ny & ns & Hsh & Hplan & Hnt).
    destruct Hf as (g & -> & Hsg & Hg). cbn [bind].
    change (ndim (of_real f)) with (length (shape f)).
    destruct (selected_mask _ wavelength transverse_wavevectors e angle_bounds_fn u)
      as [sel|er]; cbn [bind]; [|reflexivity].
    assert (Eb' : drop_last 4 (shape f) = bs) by (rewrite Hsh; idx_simpl; reflexivity).
    assert (E4 : from_end 4 (shape f) = nx) by (rewrite Hsh; idx_simpl; reflexivity).
    assert (E3 : from_end 3 (shape f) = ny) by (rewrite Hsh; idx_simpl; reflexivity).
    assert (E1 : from_end 1 (shape f) = ns) by (rewrite Hsh; idx_simpl; reflexivity).
    rewrite Eb', E1 in Hsg. rewrite E4, E3 in Hg.
    destruct (@finish_tape_result u g sel f plan nx ny (num_terms e) ns bs Eu Hsg Hg)
      as (Hsr & Hr).
    exists bs, nx, ny, ns. eexists. split; [exact Hsh|]. split; [exact Hplan|].
    split; [reflexivity|]. split; [exact Hsr | exact Hr].
  - rewrite Hf. reflexivity.
Qed.

Lemma integrated_flux_spec
  (f : ndarray R) (wavelength transverse_wavevectors : ndarray val) (e : Expansion)
  (angle_bounds_fn : mask_fn) (u : Z) :
  match pipeline_checks (shape f) wavelength transverse_wavevectors e angle_bounds_fn u with
  | Err er =>
      integrated_flux (of_real f) wavelength transverse_wavevectors e angle_bounds_fn u
      = Err er
  | Ok (plan, sel) =>
      exists bs nx ny ns w r,
        shape f = bs ++ [nx; ny; 2 * num_terms e; ns] /\
        merged_indices nx ny e = Ok plan /\
        _integrated_flux_weights (of_real f) wavelength transverse_wavevectors e
                                 angle_bounds_fn u = Ok w /\
        shape w = bs ++ [nx; ny; 2 * num_terms e; 1] /\
        (forall b x y t,
           get w (b ++ [x; y; t; 0]) =
           Num (weight_coefficient plan nx ny (num_terms e) u sel b x y t)) /\
        integrated_flux (of_real f) wavelength transverse_wavevectors e angle_bounds_fn u
        = Ok r /\
        shape r = bs ++ [ns] /\
        forall idx,
          get r idx = Num (weighted_sum plan nx ny (num_terms e) u sel f
                                        (drop_last 1 idx) (from_end 1 idx))
  end.
Proof.
  unfold pipeline_checks, integrated_flux, _integrated_flux_weights.
  cbn [ones shape of_real]. idx_simpl. cbn [Nat.eqb assert bind].
  rewrite !tape_eq.
  destruct (1 <=? u)%Z eqn:Eu; cbn [assert bind]; [|reflexivity].
  apply Z.leb_le in Eu.
  pose proof (unflatten_flux_spec (ones (drop_last 1 (shape f) ++ [1])) e) as Hd.
  cbn [shape ones] in Hd. rewrite flux_checks_dummy in Hd.
  destruct (flux_checks (shape f) e) as [plan|er] eqn:Echk; cbn [bind].
  - destruct (flux_checks_Ok _ _ Echk) as (bs & nx & ny & ns & Hsh & Hplan & Hnt).
    destruct Hd as (gd & -> & Hsd & Hgd). cbn [bind].
    assert (Hndim : ndim (ones (drop_last 1 (shape f) ++ [1])) = length (shape f)).
    { unfold ndim. cbn [shape ones]. rewrite Hsh. idx_simpl.
      rewrite !length_app. reflexivity. }
    rewrite Hndim.
    destruct (selected_mask _ wavelength transverse_wavevectors e angle_bounds_fn u)
      as [sel|er]; cbn [bind]; [|reflexivity].
    assert (Ed : drop_last 1 (shape f) ++ [1] = bs ++ [nx; ny; 2 * num_terms e; 1])
      by (rewrite Hsh; idx_simpl; reflexivity).
    assert (Eb : drop_last 4 (bs ++ [nx; ny; 2 * num_terms e; 1]) = bs)
      by (idx_simpl; reflexivity).
    assert (Eb' : drop_last 4 (shape f) = bs) by (rewrite Hsh; idx_simpl; reflexivity).
    assert (E4 : from_end 4 (shape f) = nx) by (rewrite Hsh; idx_simpl; reflexivity).
    assert (E3 : from_end 3 (shape f) = ny) by (rewrite Hsh; idx_simpl; reflexivity).
    assert (E2 : from_end 2 (shape f) = 2 * num_terms e)
      by (rewrite Hsh; idx_simpl; reflexivity).
    assert (E1 : from_end 1 (shape f) = ns) by (rewrite Hsh; idx_simpl; reflexivity).
    assert (E4d : from_end 4 (bs ++ [nx; ny; 2 * num_terms e; 1]) = nx)
      by (idx_simpl; reflexivity).
    assert (E3d : from_end 3 (bs ++ [nx; ny; 2 * num_terms e; 1]) = ny)
      by (idx_simpl; reflexivity).
    assert (E1d : from_end 1 (bs ++ [nx; ny; 2 * num_terms e; 1]) = 1)
      by (idx_simpl; reflexivity).
    rewrite Ed in *. rewrite Eb, E1d in Hsd. rewrite E4d, E3d in Hgd.
    destruct (@backward_pass_value u gd sel e plan nx ny bs Eu Hnt Hplan Hsd)
      as (w & Ew & Hsw & Hw).
    { intros b X Y p s. rewrite Hgd.
      destruct (scatter_tags _ _ _ _ _ X Y) as [[[x y] k]|]; reflexivity. }
    rewrite Ew, Eb', E4, E3, E2, E1. cbn [bind].
    exists bs, nx, ny, ns, w. eexists.
    split; [exact Hsh|]. split; [exact Hplan|]. split; [reflexivity|].
    split; [exact Hsw|]. split; [exact Hw|]. split; [reflexivity|].
    split; [reflexivity|].
    intros idx. cbn [get]. unfold weighted_sum.
    apply vsum_Num. intros x _. apply vsum_Num. intros y _. apply vsum_Num. intros t _.
    rewrite Hw. reflexivity.
  - rewrite Hd. reflexivity.
Qed.

(** C2. For a real-valued flux array with any number of source columns, any
    wavelength, transverse wavevectors, expansion, mask function and upsample
    factor, [integrated_flux] (weights from the gradient of the summed masked
    upsampled all-ones single-source flux, applied by multiply and sum over
    the Brillouin-grid and order/polarization axes) and the direct masked
    upsampled sum [_integrated_flux_upsampled] of the actual flux agree: both
    fail with the same error, or both return arrays of the same shape with
    the same entries. *)
Theorem integrated_flux_weights_equivalence
  (f : ndarray R) (wavelength transverse_wavevectors : ndarray val) (e : Expansion)
  (angle_bounds_fn : mask_fn) (upsample_factor : Z) :
  result_eq
    (integrated_flux (of_real f) wavelength transverse_wavevectors e angle_bounds_fn
                     upsample_factor)
    (_integrated_flux_upsampled (of_real f) wavelength transverse_wavevectors e
                                angle_bounds_fn upsample_factor).
Proof.
  pose proof (integrated_flux_spec f wavelength transverse_wavevectors e angle_bounds_fn
                                   upsample_factor) as HI.
  pose proof (upsampled_spec f wavelength transverse_wavevectors e angle_bounds_fn
                             upsample_factor) as HD.
  destruct (pipeline_checks (shape f) wavelength transverse_wavevectors e angle_bounds_fn
                            upsample_factor) as [[plan sel]|er].
  - destruct HI as (bs & nx & ny & ns & w & r & Hsh & Hplan & _ & _ & _ & -> & Hsr & Hr).
    destruct HD as (bs' & nx' & ny' & ns' & r' & Hsh' & _ & -> & Hsr' & Hr').
    rewrite Hsh in Hsh'. apply four_tail_inj in Hsh'.
    destruct Hsh' as (<- & <- & <- & _ & <-).
    split.
    + rewrite Hsr, Hsr'. reflexivity.
    + intros idx _. rewrite Hr, Hr'. unfold weighted_sum. rewrite linear_form. reflexivity.
  - cbn [result_eq]. rewrite HI, HD. reflexivity.
Qed.

(** ** Linearity in the flux *)

Lemma Rsum_lin (n : nat) (a b : R) (F G : nat -> R) :
  Rsum n (fun i => (a * F i + b * G i)%R) = (a * Rsum n F + b * Rsum n G)%R.
Proof.
  unfold Rsum. rewrite (Rsum_list_plus (seq 0 n) (fun i => (a * F i)%R) (fun i => (b * G i)%R)).
  rewrite !Rsum_list_scal. reflexivity.
Qed.

Lemma weighted_sum_linear (plan : index_plan) (nx ny nt : nat) (u : Z) (sel : ndarray val)
  (a : R) (f1 : ndarray R) (c : R) (f2 : ndarray R) (b : list nat) (s : nat) :
  weighted_sum plan nx ny nt u sel (linear_combination a f1 c f2) b s =
  (a * weighted_sum plan nx ny nt u sel f1 b s
   + c * weighted_sum plan nx ny nt u sel f2 b s)%R.
Proof.
  unfold weighted_sum. rewrite <- Rsum_lin. apply Rsum_ext. intros x _.
  rewrite <- Rsum_lin. apply Rsum_ext. intros y _.
  rewrite <- Rsum_lin. apply Rsum_ext. intros t _.
  cbn [linear_combination get]. ring.
Qed.

(** C9. [integrated_flux] is linear in the flux: on real-valued flux arrays
    [f1], [f2] of the same shape and scalars [a], [b], with all other
    arguments fixed, [integrated_flux (a * f1 + b * f2)] agrees with
    [a * integrated_flux f1 + b * integrated_flux f2] (the same error, or the
    same shape and entries). *)
Theorem integrated_flux_linear
  (a : R) (f1 : ndarray R) (b : R) (f2 : ndarray R)
  (wavelength transverse_wavevectors : ndarray val) (e : Expansion)
  (angle_bounds_fn : mask_fn) (upsample_factor : Z) :
  shape f1 = shape f2 ->
  result_eq
    (integrated_flux (of_real (linear_combination a f1 b f2)) wavelength
                     transverse_wavevectors e angle_bounds_fn upsample_factor)
    (linear_combination_result
       a (integrated_flux (of_real f1) wavelength transverse_wavevectors e
                          angle_bounds_fn upsample_factor)
       b (integrated_flux (of_real f2) wavelength transverse_wavevectors e
                          angle_bounds_fn upsample_factor)).
Proof.
  intros Hshape.
  pose proof (integrated_flux_spec (linear_combination a f1 b f2) wavelength
                transverse_wavevectors e angle_bounds_fn upsample_factor) as H0.
  pose proof (integrated_flux_spec f1 wavelength transverse_wavevectors e
                angle_bounds_fn upsample_factor) as H1.
  pose proof (integrated_flux_spec f2 wavelength transverse_wavevectors e
                angle_bounds_fn upsample_factor) as H2.
  cbn [linear_combination shape] in H0. rewrite <- Hshape in H2.
  destruct (pipeline_checks (shape f1) wavelength transverse_wavevectors e angle_bounds_fn
                            upsample_factor) as [[plan sel]|er].
  - destruct H0 as (bs & nx & ny & ns & w0 & r0 & Hsh0 & _ & _ & _ & _ & -> & Hs0 & Hr0).
    destruct H1 as (bs1 & nx1 & ny1 & ns1 & w1 & r1 & Hsh1 & _ & _ & _ & _ & -> & Hs1 & Hr1).
    destruct H2 as (bs2 & nx2 & ny2 & ns2 & w2 & r2 & Hsh2 & _ & _ & _ & _ & -> & Hs2 & Hr2).
    rewrite Hsh0 in Hsh1. apply four_tail_inj in Hsh1.
    destruct Hsh1 as (<- & <- & <- & _ & <-).
    rewrite Hsh2 in Hsh0. apply four_tail_inj in Hsh0.
    destruct Hsh0 as (-> & -> & -> & _ & ->).
    cbn [linear_combination_result bind result_eq]. split.
    + cbn [shape]. rewrite Hs0, Hs1. reflexivity.
    + intros idx _. cbn [get]. rewrite Hr0, Hr1, Hr2. cbn [vmul vadd].
      rewrite weighted_sum_linear. reflexivity.
  - rewrite H0, H1. reflexivity.
Qed.

Lemma integrated_flux_linear_witness :
  let f1 := {| shape := [1; 1; 2; 1]; get := fun _ => 1%R |} in
  let f2 := {| shape := [1; 1; 2; 1]; get := fun _ => 2%R |} in
  let tw := ones [1; 1; 1; 2] in
  let e := {| basis_coefficients := [(0, 0)%Z] |} in
  let fn := fun (polar _ : ndarray val) => polar in
  result_eq
    (integrated_flux (of_real (linear_combination 3 f1 4 f2)) (ones []) tw e fn 1)
    (linear_combination_result
       3 (integrated_flux (of_real f1) (ones []) tw e fn 1)
       4 (integrated_flux (of_real f2) (ones []) tw e fn 1)).
Proof.
  intros f1 f2 tw e fn. apply integrated_flux_linear. reflexivity.
Defined.

(** ** The mask *)

Lemma selected_mask_get (n : nat) (wavelength transverse_wavevectors : ndarray val)
  (e : Expansion) (angle_bounds_fn : mask_fn) (u : Z) (sel : ndarray val) :
  selected_mask n wavelength transverse_wavevectors e angle_bounds_fn u = Ok sel ->
  exists polar azimuthal,
    forall idx,
      get sel idx =
      if isnan (get (angle_bounds_fn polar azimuthal) idx) then Num 0
      else get (angle_bounds_fn polar azimuthal) idx.
Proof.
  unfold selected_mask. intros Hsel.
  destruct (unflatten_transverse_wavevectors transverse_wavevectors e) as [tw|er];
    cbn [bind] in Hsel; [|discriminate].
  destruct (assert _) as [[]|er]; cbn [bind] in Hsel; [|discriminate].
  destruct (squeeze2 _ _) as [wl|er]; cbn [bind] in Hsel; [|discriminate].
  destruct (angles_from_unflattened_transverse_wavevectors _ _) as [[polar azimuthal]|er];
    cbn [bind] in Hsel; [|discriminate].
  injection Hsel as <-. exists polar, azimuthal. intros idx. reflexivity.
Qed.

Lemma truthy_one : truthy (Num 1) = true.
Proof. unfold truthy. destruct (Req_dec_T 1 0); [lra | reflexivity]. Qed.

Lemma truthy_zero : truthy (Num 0) = false.
Proof. unfold truthy. destruct (Req_dec_T 0 0); [reflexivity | contradiction]. Qed.

(** ** The full sum *)

Lemma direct_value_full (plan : index_plan) (nx ny nt : nat) (sel : ndarray val)
  (f : ndarray R) (b : list nat) (s : nat) :
  (forall X Y, truthy (get sel (b ++ [X; Y])) = true) ->
  direct_value plan nx ny nt 1 sel f b s =
  Rsum (out_H plan) (fun X => Rsum (out_W plan) (fun Y => Rsum 2 (fun p =>
    unflattened_value plan nx ny nt f b p s X Y))).
Proof.
  intros Hsel. unfold direct_value.
  change (Z.to_nat 1) with 1. rewrite !Nat.mul_1_l.
  change (IZR (1 ^ 2)) with 1%R. rewrite Rdiv_1_r.
  apply Rsum_ext. intros X _. apply Rsum_ext. intros Y _. apply Rsum_ext. intros p _.
  unfold mask_weight, contractR. rewrite Hsel, !Nat.eqb_refl. ring.
Qed.

(** C3. With a mask function that returns true at every angle and
    [upsample_factor = 1], [integrated_flux] on a real-valued flux returns the
    plain sum of the unflattened flux over the two grid axes and the
    polarization axis, gap bins counting as zero; it fails exactly when
    unflattening the flux or computing the mask fails, with that error. *)
Theorem integrated_flux_full_sum
  (f : ndarray R) (wavelength transverse_wavevectors : ndarray val) (e : Expansion)
  (angle_bounds_fn : mask_fn) :
  (forall polar azimuthal idx, get (angle_bounds_fn polar azimuthal) idx = Num 1) ->
  result_eq
    (integrated_flux (of_real f) wavelength transverse_wavevectors e angle_bounds_fn 1)
    (unflattened <- unflatten_flux (of_real f) e ;;
     _ <- selected_mask (ndim (of_real f)) wavelength transverse_wavevectors e
                        angle_bounds_fn 1 ;;
     Ok (plain_sum unflattened)).
Proof.
  intros Htrue.
  pose proof (integrated_flux_spec f wavelength transverse_wavevectors e angle_bounds_fn 1)
    as HI.
  pose proof (unflatten_flux_spec (of_real f) e) as Hf. cbn [shape of_real] in Hf.
  unfold pipeline_checks in HI. change (1 <=? 1)%Z with true in HI.
  cbn [assert bind] in HI.
  change (ndim (of_real f)) with (length (shape f)).
  destruct (flux_checks (shape f) e) as [plan|er]; cbn [bind] in HI.
  - destruct Hf as (g & -> & Hsg & Hg). cbn [bind].
    destruct (selected_mask (length (shape f)) wavelength transverse_wavevectors e
                            angle_bounds_fn 1) as [sel|er] eqn:Esel; cbn [bind] in HI |- *.
    + destruct HI as (bs & nx & ny & ns & w & r & Hsh & Hplan & _ & _ & _ & -> & Hsr & Hr).
      destruct (selected_mask_get _ _ _ _ _ _ Esel) as (polar & azimuthal & Hsel).
      assert (Eb' : drop_last 4 (shape f) = bs) by (rewrite Hsh; idx_simpl; reflexivity).
      assert (E4 : from_end 4 (shape f) = nx) by (rewrite Hsh; idx_simpl; reflexivity).
      assert (E3 : from_end 3 (shape f) = ny) by (rewrite Hsh; idx_simpl; reflexivity).
      assert (E1 : from_end 1 (shape f) = ns) by (rewrite Hsh; idx_simpl; reflexivity).
      rewrite Eb', E1 in Hsg. rewrite E4, E3 in Hg.
      cbn [result_eq]. unfold plain_sum. split.
      * cbn [shape]. rewrite Hsr, Hsg. idx_simpl. reflexivity.
      * intros idx _. rewrite Hr. cbn [get nan_to_zero shape]. rewrite Hsg. idx_simpl.
        unfold weighted_sum. rewrite linear_form, direct_value_full.
        -- symmetry. apply vsum_Num. intros X _. apply vsum_Num. intros Y _.
           apply vsum_Num. intros p _. rewrite Hg. unfold unflattened_value.
           destruct (scatter_tags _ _ _ _ _ X Y) as [[[x y] k]|]; reflexivity.
        -- intros X Y. rewrite Hsel, Htrue. cbn [isnan]. apply truthy_one.
    + rewrite HI. reflexivity.
  - rewrite Hf, HI. reflexivity.
Qed.

Lemma integrated_flux_full_sum_witness :
  let f := {| shape := [1; 1; 2; 1]; get := fun _ => 1%R |} in
  let tw := ones [1; 1; 1; 2] in
  let e := {| basis_coefficients := [(0, 0)%Z] |} in
  let fn := fun (_ _ : ndarray val) => ones [1; 1] in
  result_eq
    (integrated_flux (of_real f) (ones []) tw e fn 1)
    (unflattened <- unflatten_flux (of_real f) e ;;
     _ <- selected_mask (ndim (of_real f)) (ones []) tw e fn 1 ;;
     Ok (plain_sum unflattened)).
Proof.
  intros f tw e fn. apply integrated_flux_full_sum. intros polar azimuthal idx. reflexivity.
Defined.

(** ** NaN policy *)





(** ** Gap bins *)

Lemma unflatten_transverse_wavevectors_spec (tw : ndarray val) (e : Expansion) :
  match wavevector_checks (shape tw) e with
  | Err er => unflatten_transverse_wavevectors tw e = Err er
  | Ok plan =>
      exists g,
        unflatten_transverse_wavevectors tw e = Ok g /\
        shape g = drop_last 4 (shape tw) ++ [out_H plan; out_W plan; from_end 1 (shape tw)] /\
        forall b X Y d,
          get g (b ++ [X; Y; d]) =
          match scatter_tags (out_H plan) (out_W plan) (merged_i plan) (merged_j plan)
                  (positions (from_end 4 (shape tw)) (from_end 3 (shape tw))
                             (num_terms e)) X Y with
          | Some (x, y, k) => get tw (b ++ [x; y; k; d])
          | None => NaN
          end
  end.
Proof.
  unfold wavevector_checks, unflatten_transverse_wavevectors.
  change (length (shape tw)) with (ndim tw).
  destruct (4 <=? ndim tw) eqn:E4; cbn [assert bind]; [|reflexivity].
  destruct ((from_end 2 (shape tw) =? num_terms e) && (from_end 1 (shape tw) =? 2))%bool
    eqn:E2; cbn [assert bind]; [|reflexivity].
  apply andb_prop in E2. destruct E2 as [E2 _]. apply Nat.eqb_eq in E2.
  unfold unflatten. cbn [shape].
  match goal with
  | |- context [3 <=? ndim ?a] =>
      replace (3 <=? ndim a) with true
        by (symmetry; apply Nat.leb_le; unfold ndim; cbn [shape];
            rewrite length_app; simpl; lia)
  end.
  idx_simpl. rewrite E2, Nat.eqb_refl. cbn [assert bind].
  destruct (merged_indices (from_end 4 (shape tw)) (from_end 3 (shape tw)) e)
    as [plan|er] eqn:Eplan; cbn [bind]; [|reflexivity].
  eexists. split; [reflexivity|]. split.
  - cbn [shape]. idx_simpl. reflexivity.
  - intros b X Y d. cbn [get]. unfold full.
    rewrite scatter_tags_spec. idx_simpl.
    destruct (scatter_tags _ _ _ _ _ X Y) as [[[x y] k]|]; [|reflexivity].
    idx_simpl. reflexivity.
Qed.

Lemma selected_mask_inv (n : nat) (wavelength transverse_wavevectors : ndarray val)
  (e : Expansion) (angle_bounds_fn : mask_fn) (u : Z) (sel : ndarray val) :
  selected_mask n wavelength transverse_wavevectors e angle_bounds_fn u = Ok sel ->
  exists g wl polar azimuthal,
    unflatten_transverse_wavevectors transverse_wavevectors e = Ok g /\
    squeeze2 (atleast_nd wavelength (n - 2)) (n - 2 - 2) = Ok wl /\
    angles_from_unflattened_transverse_wavevectors
      (resize_linear 1 (nan_to_zero g) (Z.to_nat u * from_end 3 (shape g))
                     (Z.to_nat u * from_end 2 (shape g))) wl
    = Ok (polar, azimuthal) /\
    forall idx,
      get sel idx =
      if isnan (get (angle_bounds_fn polar azimuthal) idx) then Num 0
      else get (angle_bounds_fn polar azimuthal) idx.
Proof.
  unfold selected_mask. intros Hsel.
  destruct (unflatten_transverse_wavevectors transverse_wavevectors e) as [g|er];
    cbn [bind] in Hsel; [|discriminate].
  destruct (assert _) as [[]|er]; cbn [bind] in Hsel; [|discriminate].
  destruct (squeeze2 _ _) as [wl|er] eqn:Ewl; cbn [bind] in Hsel; [|discriminate].
  destruct (angles_from_unflattened_transverse_wavevectors _ _)
    as [[polar azimuthal]|er] eqn:Eang; cbn [bind] in Hsel; [|discriminate].
  injection Hsel as <-. exists g, wl, polar, azimuthal.
  split; [reflexivity|]. split; [reflexivity|]. split; [exact Eang|].
  intros idx. reflexivity.
Qed.





Lemma wavevector_checks_plan (sh : list nat) (e : Expansion) (plan : index_plan) :
  wavevector_checks sh e = Ok plan ->
  merged_indices (from_end 4 sh) (from_end 3 sh) e = Ok plan.
Proof.
  unfold wavevector_checks. intros Hc.
  destruct (assert (4 <=? length sh)) as [[]|er]; cbn [bind] in Hc; [|discriminate].
  destruct (assert _) as [[]|er]; cbn [bind] in Hc; [exact Hc | discriminate].
Qed.

Lemma flux_checks_plan (sh : list nat) (e : Expansion) (plan : index_plan) :
  flux_checks sh e = Ok plan ->
  merged_indices (from_end 4 sh) (from_end 3 sh) e = Ok plan.
Proof.
  unfold flux_checks. intros Hc.
  destruct (assert (4 <=? length sh)) as [[]|er]; cbn [bind] in Hc; [|discriminate].
  destruct (assert _) as [[]|er]; cbn [bind] in Hc; [exact Hc | discriminate].
Qed.



(** ** The backward pass computes the gradient *)

(** X14. On any real-valued single-source array [d] of the shape of [dummy_flux],
    each entry [(b, 0)] of [_integrated_flux_upsampled d] is the linear form
    in the entries of [d] at batch index [b] whose coefficients are the
    entries of the weights at [b].  The sum of the result over all its entries,
    [_integrated_fn d], therefore has the weights as its partial derivatives,
    at the all-ones array as everywhere else. *)
Lemma weights_are_coefficients
  (f d : ndarray R) (wavelength transverse_wavevectors : ndarray val) (e : Expansion)
  (angle_bounds_fn : mask_fn) (u : Z) (w : ndarray val) :
  shape d = drop_last 1 (shape f) ++ [1] ->
  _integrated_flux_weights (of_real f) wavelength transverse_wavevectors e
                           angle_bounds_fn u = Ok w ->
  exists (r : ndarray val) (coefficient : list nat -> nat -> nat -> nat -> R),
    (forall b x y t, get w (b ++ [x; y; t; 0]) = Num (coefficient b x y t)) /\
    _integrated_flux_upsampled (of_real d) wavelength transverse_wavevectors e
                               angle_bounds_fn u = Ok r /\
    forall b,
      get r (b ++ [0]) =
      Num (Rsum (from_end 4 (shape f)) (fun x =>
           Rsum (from_end 3 (shape f)) (fun y =>
           Rsum (from_end 2 (shape f)) (fun t =>
             (coefficient b x y t * get d (b ++ [x; y; t; 0%nat]))%R)))).
Proof.
  intros Hshape Hw.
  pose proof (integrated_flux_spec f wavelength transverse_wavevectors e angle_bounds_fn u)
    as HI.
  pose proof (upsampled_spec d wavelength transverse_wavevectors e angle_bounds_fn u) as HD.
  unfold pipeline_checks in HI, HD. rewrite Hshape, flux_checks_dummy in HD.
  destruct (assert (1 <=? u)%Z) as [[]|er]; cbn [bind] in HI, HD;
    [|unfold integrated_flux in HI; rewrite Hw in HI; discriminate].
  destruct (flux_checks (shape f) e) as [plan|er] eqn:Echk; cbn [bind] in HI, HD;
    [|unfold integrated_flux in HI; rewrite Hw in HI; discriminate].
  destruct (flux_checks_Ok _ _ Echk) as (bs & nx & ny & ns & Hsh & Hplan & Hnt).
  assert (Hlen : length (drop_last 1 (shape f) ++ [1]) = length (shape f)).
  { rewrite Hsh. idx_simpl. rewrite !length_app. reflexivity. }
  rewrite Hlen in HD.
  destruct (selected_mask (length (shape f)) wavelength transverse_wavevectors e
                          angle_bounds_fn u) as [sel|er]; cbn [bind] in HI, HD;
    [|unfold integrated_flux in HI; rewrite Hw in HI; discriminate].
  destruct HI as (bs1 & nx1 & ny1 & ns1 & w1 & r1 & Hsh1 & _ & Hw1 & _ & Hwv & _).
  rewrite Hw in Hw1. injection Hw1 as <-.
  rewrite Hsh in Hsh1. apply four_tail_inj in Hsh1. destruct Hsh1 as (<- & <- & <- & _ & <-).
  destruct HD as (bs2 & nx2 & ny2 & ns2 & r & Hsh2 & _ & Hr & _ & Hrv).
  assert (Ed : drop_last 1 (shape f) ++ [1] = bs ++ [nx; ny; 2 * num_terms e; 1])
    by (rewrite Hsh; idx_simpl; reflexivity).
  rewrite Ed in Hsh2. apply four_tail_inj in Hsh2.
  destruct Hsh2 as (<- & <- & <- & _ & <-).
  exists r, (weight_coefficient plan nx ny (num_terms e) u sel).
  split; [exact Hwv|]. split; [exact Hr|].
  intros b. rewrite Hrv, Hsh. idx_simpl. rewrite <- linear_form. reflexivity.
Qed.

(** * Further properties of the code *)

(** ** [unflatten]: shape checks, provenance of the values, naturality *)

(** X1. [unflatten] raises AssertionError on a flat array of rank below three and
    on one whose trailing axis does not have one entry per term. *)
Theorem unflatten_assertion_errors
  (V : Type) (nan : V) (flat : ndarray V) (e : Expansion) :
  ndim flat < 3 \/ from_end 1 (shape flat) <> num_terms e ->
  unflatten nan flat e = Err AssertionError.
Proof.
  intros Hbad. unfold unflatten.
  destruct (3 <=? ndim flat) eqn:E3; cbn [assert bind]; [|reflexivity].
  destruct (from_end 1 (shape flat) =? num_terms e) eqn:E1; cbn [assert bind];
    [|reflexivity].
  apply Nat.leb_le in E3. apply Nat.eqb_eq in E1. destruct Hbad; [lia | contradiction].
Qed.

Lemma unflatten_assertion_errors_witness :
  unflatten 0 {| shape := [2; 2]; get := fun _ => 1 |}
            {| basis_coefficients := [(0, 0)%Z] |} = Err AssertionError /\
  unflatten 0 {| shape := [2; 2; 3]; get := fun _ => 1 |}
            {| basis_coefficients := [(0, 0)%Z] |} = Err AssertionError.
Proof.
  split.
  - apply unflatten_assertion_errors. left. unfold ndim. simpl. lia.
  - apply unflatten_assertion_errors. right. unfold from_end, num_terms. simpl. lia.
Defined.

Lemma scatter_tags_hit (P : Type) (H W : nat) (di dj : P -> Z) (ps : list P)
  (p : P) (X Y : nat) :
  In p ps -> hitb H W di dj p X Y = true -> scatter_tags H W di dj ps X Y <> None.
Proof.
  intros Hin Hhit Hnone.
  pose proof (@scatter_tags_spec P H W di dj bool (fun _ => true) false ps X Y) as Hs.
  rewrite Hnone in Hs.
  rewrite (@scatter_hit bool P H W di dj (fun _ => true) ps (fun _ _ => false) X Y true)
    in Hs.
  - discriminate Hs.
  - exists p. split; assumption.
  - intros q _ _. reflexivity.
Qed.

(** X2. Whatever the expansion (orders may repeat), [unflatten] invents no value:
    a bin that no (sample, order) pair is mapped to holds NaN, and every
    other bin holds the flat value of one of the pairs mapped to it. *)
Theorem unflatten_bin_contents
  (V : Type) (nan : V) (flat : ndarray V) (e : Expansion) (bs : list nat) (nx ny : nat) :
  shape flat = bs ++ [nx; ny; num_terms e] ->
  basis_coefficients e <> [] ->
  exists g min_i min_j,
    py_min (map fst (basis_coefficients e)) = Ok min_i /\
    py_min (map snd (basis_coefficients e)) = Ok min_j /\
    unflatten nan flat e = Ok g /\
    forall b X Y,
      (get g (b ++ [X; Y]) = nan /\
       forall x y k, x < nx -> y < ny -> k < num_terms e ->
         (Z.of_nat X, Z.of_nat Y) <>
         (order_i e k * Z.of_nat nx + Z.of_nat x - min_i * Z.of_nat nx,
          order_j e k * Z.of_nat ny + Z.of_nat y - min_j * Z.of_nat ny)%Z) \/
      (exists x y k,
         x < nx /\ y < ny /\ k < num_terms e /\
         (Z.of_nat X, Z.of_nat Y) =
         (order_i e k * Z.of_nat nx + Z.of_nat x - min_i * Z.of_nat nx,
          order_j e k * Z.of_nat ny + Z.of_nat y - min_j * Z.of_nat ny)%Z /\
         get g (b ++ [X; Y]) = get flat (b ++ [x; y; k])).
Proof.
  intros Hshape Hne.
  destruct (@merged_indices_spec nx ny e Hne)
    as (plan & min_i & max_i & min_j & max_j & E1 & E2 & E3 & E4 & Eplan & EH & EW & Hdest).
  assert (Hun : unflatten nan flat e =
    Ok {| shape := bs ++ [out_H plan; out_W plan];
          get := fun idx =>
            scatter (out_H plan) (out_W plan) (full nan)
              (map (merged_i plan) (positions nx ny (num_terms e)))
              (map (merged_j plan) (positions nx ny (num_terms e)))
              (map (fun '(x, y, k) => get flat (drop_last 2 idx ++ [x; y; k]))
                   (positions nx ny (num_terms e)))
              (from_end 2 idx) (from_end 1 idx) |}).
  { unfold unflatten.
    replace (3 <=? ndim flat) with true
      by (symmetry; apply Nat.leb_le; unfold ndim; rewrite Hshape, length_app; simpl; lia).
    rewrite Hshape. idx_simpl. rewrite Nat.eqb_refl. cbn [assert bind].
    rewrite Eplan. reflexivity. }
  eexists. exists min_i, min_j.
  split; [exact E1|]. split; [exact E3|]. split; [exact Hun|].
  intros b X Y. cbn [get]. idx_simpl. unfold full.
  rewrite (@scatter_tags_spec _ (out_H plan) (out_W plan) (merged_i plan) (merged_j plan)
             V (fun '(x, y, k) => get flat (b ++ [x; y; k])) nan).
  destruct (scatter_tags (out_H plan) (out_W plan) (merged_i plan) (merged_j plan)
                         (positions nx ny (num_terms e)) X Y) as [[[x y] k]|] eqn:Etag.
  - right. apply scatter_tags_inv in Etag. destruct Etag as [Hin Hhit].
    apply in_positions in Hin. destruct Hin as (Hx & Hy & Hk).
    destruct (Hdest x y k Hx Hy Hk) as (HX & HY & NX & NY).
    unfold hitb in Hhit. rewrite NX, NY in Hhit.
    apply andb_prop in Hhit. destruct Hhit as [Ea Eb]. apply Nat.eqb_eq in Ea, Eb.
    exists x, y, k. repeat split; try assumption. f_equal; lia.
  - left. split; [reflexivity|].
    intros x y k Hx Hy Hk Heq. injection Heq as EX EY.
    destruct (Hdest x y k Hx Hy Hk) as (HX & HY & NX & NY).
    apply (@scatter_tags_hit _ (out_H plan) (out_W plan) (merged_i plan) (merged_j plan)
             (positions nx ny (num_terms e)) (x, y, k) X Y); [| |exact Etag].
    + apply in_positions. auto.
    + unfold hitb. rewrite NX, NY, <- EX, <- EY, !Nat2Z.id, !Nat.eqb_refl. reflexivity.
Qed.

Lemma unflatten_bin_contents_witness :
  let e := {| basis_coefficients := [(0, 0); (0, 0); (2, 0)]%Z |} in
  let flat := {| shape := [1; 1; 3]; get := fun idx => 10 + nth 2 idx 0 |} in
  exists g, unflatten 0 flat e = Ok g /\ get g [1; 0] = 0.
Proof.
  intros e flat.
  destruct (@unflatten_bin_contents nat 0 flat e [] 1 1 eq_refl)
    as (g & min_i & min_j & Ei & Ej & Hg & Hbins); [discriminate|].
  exists g. split; [exact Hg|].
  injection Ei as <-. injection Ej as <-.
  destruct (Hbins [] 1 0) as [[Hnan _]|(x & y & k & Hx & Hy & Hk & Heq & _)];
    [exact Hnan|].
  exfalso. injection Heq as EX EY.
  unfold e, num_terms in Hk. cbn [basis_coefficients length] in Hk.
  unfold order_i, e in EX. cbn [basis_coefficients] in EX.
  destruct k as [|[|[|k]]]; cbn [nth fst] in EX; lia.
Defined.



(** ** The adapters [unflatten_flux] and [unflatten_transverse_wavevectors] *)

(** With pairwise distinct orders, the tag left at the destination bin of a
    (sample, order) pair is that pair. *)
Lemma scatter_tags_distinct (nx ny : nat) (e : Expansion) (plan : index_plan)
  (min_i min_j : Z) :
  NoDup (basis_coefficients e) ->
  py_min (map fst (basis_coefficients e)) = Ok min_i ->
  py_min (map snd (basis_coefficients e)) = Ok min_j ->
  merged_indices nx ny e = Ok plan ->
  forall x y k, x < nx -> y < ny -> k < num_terms e ->
    scatter_tags (out_H plan) (out_W plan) (merged_i plan) (merged_j plan)
                 (positions nx ny (num_terms e))
                 (Z.to_nat (order_i e k * Z.of_nat nx + Z.of_nat x - min_i * Z.of_nat nx))
                 (Z.to_nat (order_j e k * Z.of_nat ny + Z.of_nat y - min_j * Z.of_nat ny))
    = Some (x, y, k).
Proof.
  intros Hnd Ei Ej Eplan x y k Hx Hy Hk.
  assert (Hne : basis_coefficients e <> []).
  { intros E. unfold num_terms in Hk. rewrite E in Hk. simpl in Hk. lia. }
  destruct (@merged_indices_spec nx ny e Hne)
    as (plan' & mi & max_i & mj & max_j & E1 & E2 & E3 & E4 & Eplan' & EH & EW & Hdest).
  rewrite Ei in E1. injection E1 as <-. rewrite Ej in E3. injection E3 as <-.
  rewrite Eplan in Eplan'. injection Eplan' as <-.
  destruct (Hdest x y k Hx Hy Hk) as (HX & HY & NX & NY).
  unfold scatter_tags.
  apply (@scatter_hit (option (nat * nat * nat)) (nat * nat * nat) (out_H plan) (out_W plan)
           (merged_i plan) (merged_j plan) Some).
  - exists (x, y, k). split; [apply in_positions; auto|].
    unfold hitb. rewrite NX, NY, !Nat.eqb_refl. reflexivity.
  - intros [[x' y'] k'] Hin Hhit. apply in_positions in Hin.
    destruct Hin as (Hx' & Hy' & Hk').
    destruct (Hdest x' y' k' Hx' Hy' Hk') as (HX' & HY' & NX' & NY').
    unfold hitb in Hhit. rewrite NX', NY' in Hhit.
    apply andb_prop in Hhit. destruct Hhit as [Ea Eb].
    apply Nat.eqb_eq in Ea, Eb.
    assert (Ea' : (order_i e k * Z.of_nat nx + Z.of_nat x - min_i * Z.of_nat nx =
                   order_i e k' * Z.of_nat nx + Z.of_nat x' - min_i * Z.of_nat nx)%Z)
      by lia.
    assert (Eb' : (order_j e k * Z.of_nat ny + Z.of_nat y - min_j * Z.of_nat ny =
                   order_j e k' * Z.of_nat ny + Z.of_nat y' - min_j * Z.of_nat ny)%Z)
      by lia.
    apply merged_index_inj in Ea'; [|lia|lia].
    apply merged_index_inj in Eb'; [|lia|lia].
    destruct Ea' as [Ei' Ex], Eb' as [Ej' Ey].
    assert (k' = k).
    { apply (NoDup_nth_inj (0, 0)%Z Hnd Hk' Hk).
      unfold order_i in Ei'. unfold order_j in Ej'.
      destruct (nth k' (basis_coefficients e) (0, 0)%Z),
               (nth k (basis_coefficients e) (0, 0)%Z); simpl in *; congruence. }
    subst k'. replace x' with x by lia. replace y' with y by lia. reflexivity.
Qed.



(** X5. [unflatten_transverse_wavevectors] raises AssertionError unless its
    argument has rank at least four and trailing axes [(num_terms, 2)]. *)
Theorem unflatten_transverse_wavevectors_assertion_errors
  (transverse_wavevectors : ndarray val) (e : Expansion) :
  ndim transverse_wavevectors < 4 \/
  from_end 2 (shape transverse_wavevectors) <> num_terms e \/
  from_end 1 (shape transverse_wavevectors) <> 2 ->
  unflatten_transverse_wavevectors transverse_wavevectors e = Err AssertionError.
Proof.
  intros Hbad. unfold unflatten_transverse_wavevectors.
  destruct (4 <=? ndim transverse_wavevectors) eqn:E4; cbn [assert bind]; [|reflexivity].
  destruct ((from_end 2 (shape transverse_wavevectors) =? num_terms e)
            && (from_end 1 (shape transverse_wavevectors) =? 2))%bool eqn:E2;
    cbn [assert bind]; [|reflexivity].
  apply Nat.leb_le in E4. apply andb_prop in E2. destruct E2 as [Ea Eb].
  apply Nat.eqb_eq in Ea, Eb. destruct Hbad as [?|[?|?]]; [lia | contradiction..].
Qed.

Lemma unflatten_transverse_wavevectors_assertion_errors_witness :
  unflatten_transverse_wavevectors (ones [1; 1; 1; 3]) {| basis_coefficients := [(0, 0)%Z] |}
  = Err AssertionError.
Proof.
  apply unflatten_transverse_wavevectors_assertion_errors.
  right. right. unfold from_end. simpl. lia.
Defined.

(** X6. Round trip through [unflatten_flux] for pairwise distinct orders: the
    order axis of the flux holds the orders of the first polarization
    followed by those of the second, so that polarization [p] of order [k]
    at sample [(x, y)] and source [s], read at flat index [p * num_terms + k],
    is found at the destination bin of [(x, y, k)], in the trailing
    (polarization, source) position [(p, s)]. *)
Theorem unflatten_flux_round_trip
  (flux : ndarray val) (e : Expansion) (bs : list nat) (nx ny ns : nat) :
  shape flux = bs ++ [nx; ny; 2 * num_terms e; ns] ->
  basis_coefficients e <> [] ->
  NoDup (basis_coefficients e) ->
  exists g min_i max_i min_j max_j,
    py_min (map fst (basis_coefficients e)) = Ok min_i /\
    py_max (map fst (basis_coefficients e)) = Ok max_i /\
    py_min (map snd (basis_coefficients e)) = Ok min_j /\
    py_max (map snd (basis_coefficients e)) = Ok max_j /\
    unflatten_flux flux e = Ok g /\
    shape g = bs ++ [Z.to_nat ((max_i - min_i + 1) * Z.of_nat nx);
                     Z.to_nat ((max_j - min_j + 1) * Z.of_nat ny); 2; ns] /\
    forall b x y k p s, x < nx -> y < ny -> k < num_terms e ->
      get g (b ++ [Z.to_nat (order_i e k * Z.of_nat nx + Z.of_nat x - min_i * Z.of_nat nx);
                   Z.to_nat (order_j e k * Z.of_nat ny + Z.of_nat y - min_j * Z.of_nat ny);
                   p; s])
      = get flux (b ++ [x; y; p * num_terms e + k; s]).
Proof.
  intros Hshape Hne Hnd.
  destruct (@merged_indices_spec nx ny e Hne)
    as (plan & min_i & max_i & min_j & max_j & E1 & E2 & E3 & E4 & Eplan & EH & EW & _).
  pose proof (unflatten_flux_spec flux e) as Hs. unfold flux_checks in Hs.
  rewrite Hshape in Hs. rewrite length_app in Hs.
  replace (4 <=? length bs + length [nx; ny; 2 * num_terms e; ns]) with true in Hs
    by (symmetry; apply Nat.leb_le; simpl; lia).
  revert Hs. idx_simpl. rewrite Nat.eqb_refl. cbn [assert bind]. rewrite Eplan.
  intros (g & Hg & Hsh & Hval).
  exists g, min_i, max_i, min_j, max_j.
  split; [exact E1|]. split; [exact E2|]. split; [exact E3|]. split; [exact E4|].
  split; [exact Hg|]. split; [rewrite Hsh, EH, EW; reflexivity|].
  intros b x y k p s Hx Hy Hk. rewrite Hval.
  rewrite (@scatter_tags_distinct nx ny e plan min_i min_j Hnd E1 E3 Eplan x y k Hx Hy Hk).
  reflexivity.
Qed.

Lemma unflatten_flux_round_trip_witness :
  let e := {| basis_coefficients := [(0, 0); (1, 0)]%Z |} in
  let flux := {| shape := [1; 1; 4; 1]; get := fun idx => Num (INR (nth 2 idx 0)) |} in
  exists g, unflatten_flux flux e = Ok g /\ shape g = [2; 1; 2; 1] /\
            get g [1; 0; 1; 0] = Num (INR 3).
Proof.
  intros e flux.
  destruct (@unflatten_flux_round_trip flux e [] 1 1 1 eq_refl)
    as (g & min_i & max_i & min_j & max_j & Ei & Ea & Ej & Eb & Hg & Hsh & Hval).
  - discriminate.
  - repeat constructor; simpl; intuition discriminate.
  - injection Ei as <-. injection Ea as <-. injection Ej as <-. injection Eb as <-.
    exists g. split; [exact Hg|]. split; [exact Hsh|].
    exact (Hval [] 0 0 1 1 0 (le_n 1) (le_n 1) (le_n 2)).
Defined.

(** X7. The gaps of the unflattened flux and of the unflattened wavevectors are
    the same bins: whether an entry is NaN depends on the bin only, not on
    the batch index, the polarization, the source or the direction. *)
Theorem unflatten_gap_bins_agree
  (f twr : ndarray R) (e : Expansion) (gf gt : ndarray val) :
  from_end 4 (shape twr) = from_end 4 (shape f) ->
  from_end 3 (shape twr) = from_end 3 (shape f) ->
  unflatten_flux (of_real f) e = Ok gf ->
  unflatten_transverse_wavevectors (of_real twr) e = Ok gt ->
  forall b b' X Y p s d,
    isnan (get gf (b ++ [X; Y; p; s])) = isnan (get gt (b' ++ [X; Y; d])).
Proof.
  intros H4 H3 Hgf Hgt b b' X Y p s d.
  pose proof (unflatten_flux_spec (of_real f) e) as Hf.
  pose proof (unflatten_transverse_wavevectors_spec (of_real twr) e) as Ht.
  destruct (flux_checks (shape (of_real f)) e) as [plan|er] eqn:Ef;
    [|rewrite Hgf in Hf; discriminate].
  destruct (wavevector_checks (shape (of_real twr)) e) as [plan'|er] eqn:Et;
    [|rewrite Hgt in Ht; discriminate].
  apply flux_checks_plan in Ef. apply wavevector_checks_plan in Et.
  cbn [of_real shape] in Ef, Et, Hf, Ht. rewrite H4, H3 in Et, Ht.
  rewrite Ef in Et. injection Et as <-.
  destruct Hf as (g & Hg & _ & Hval). rewrite Hgf in Hg. injection Hg as <-.
  destruct Ht as (g' & Hg' & _ & Hval'). rewrite Hgt in Hg'. injection Hg' as <-.
  rewrite Hval, Hval'.
  destruct (scatter_tags _ _ _ _ _ X Y) as [[[x y] k]|]; reflexivity.
Qed.

Lemma unflatten_gap_bins_agree_witness :
  let e := {| basis_coefficients := [(0, 0); (2, 0)]%Z |} in
  let f := {| shape := [1; 1; 4; 1]; get := fun _ : list nat => 1%R |} in
  let twr := {| shape := [1; 1; 2; 2]; get := fun _ : list nat => 1%R |} in
  exists gf gt,
    unflatten_flux (of_real f) e = Ok gf /\
    unflatten_transverse_wavevectors (of_real twr) e = Ok gt /\
    isnan (get gf [1; 0; 0; 0]) = isnan (get gt [1; 0; 1]).
Proof.
  intros e f twr.
  destruct (@is_ok_inv _ (unflatten_flux (of_real f) e) eq_refl) as [gf Hgf].
  destruct (@is_ok_inv _ (unflatten_transverse_wavevectors (of_real twr) e) eq_refl)
    as [gt Hgt].
  exists gf, gt. split; [exact Hgf|]. split; [exact Hgt|].
  exact (@unflatten_gap_bins_agree f twr e gf gt eq_refl eq_refl Hgf Hgt [] [] 1 0 0 0 1).
Defined.

(** ** Angles *)






Lemma vadd_NaN_l (a : val) : vadd NaN a = NaN.
Proof. destruct a; reflexivity. Qed.

Lemma vadd_NaN_r (a : val) : vadd a NaN = NaN.
Proof. destruct a; reflexivity. Qed.

Lemma vmul_NaN_l (a : val) : vmul NaN a = NaN.
Proof. destruct a; reflexivity. Qed.

Lemma vmul_NaN_r (a : val) : vmul a NaN = NaN.
Proof. destruct a; reflexivity. Qed.

Lemma vdiv_NaN_l (a : val) : vdiv NaN a = NaN.
Proof. destruct a; reflexivity. Qed.

Lemma varctan2_NaN_r (a : val) : varctan2 a NaN = NaN.
Proof. destruct a; reflexivity. Qed.

Lemma nan_wavevector_angles
  (transverse_wavevectors wavelength polar azimuthal : ndarray val) (idx : list nat) :
  angles_from_unflattened_transverse_wavevectors transverse_wavevectors wavelength
  = Ok (polar, azimuthal) ->
  get transverse_wavevectors (idx ++ [0]) = NaN \/
  get transverse_wavevectors (idx ++ [1]) = NaN ->
  get polar idx = NaN /\ get azimuthal idx = NaN.
Proof.
  unfold angles_from_unflattened_transverse_wavevectors. intros Hang Hnan.
  destruct (assert _) as [[]|er]; cbn [bind] in Hang; [|discriminate].
  injection Hang as <- <-. cbn [get].
  unfold angle, cadd, cmul, of_float, vsub. cbn [fst snd].
  destruct Hnan as [E|E]; rewrite E;
    repeat (progress (rewrite ?vmul_NaN_l, ?vmul_NaN_r, ?vadd_NaN_l, ?vadd_NaN_r,
                        ?vdiv_NaN_l, ?varctan2_NaN_r; cbn [vsqrt vneg vgt vasin]));
    split; reflexivity.
Qed.

(** X10. A NaN in either wavevector component makes both angles NaN: the angle
    function does not clean its input. *)
Theorem angles_nan_propagation
  (transverse_wavevectors wavelength polar azimuthal : ndarray val) (idx : list nat) :
  angles_from_unflattened_transverse_wavevectors transverse_wavevectors wavelength
  = Ok (polar, azimuthal) ->
  get transverse_wavevectors (idx ++ [0]) = NaN \/
  get transverse_wavevectors (idx ++ [1]) = NaN ->
  get polar idx = NaN /\ get azimuthal idx = NaN.
Proof. apply nan_wavevector_angles. Qed.

Lemma angles_nan_propagation_witness :
  let tw := {| shape := [1; 1; 2]; get := fun _ : list nat => NaN |} in
  exists polar azimuthal,
    angles_from_unflattened_transverse_wavevectors tw (ones []) = Ok (polar, azimuthal) /\
    get polar [0; 0] = NaN /\ get azimuthal [0; 0] = NaN.
Proof.
  intros tw.
  destruct (@is_ok_inv _ (angles_from_unflattened_transverse_wavevectors tw (ones []))
              eq_refl) as [[polar azimuthal] H].
  exists polar, azimuthal. split; [exact H|].
  apply (@angles_nan_propagation tw (ones []) polar azimuthal [0; 0] H).
  left. reflexivity.
Defined.

(** ** Solid angles *)





Lemma Ok_inj (A : Type) (a b : A) : Ok a = Ok b -> a = b.
Proof. intros H. injection H as H. exact H. Qed.











(** ** Integrated flux: the mask and the sign *)

Lemma weights_are_coefficients_witness :
  let f := {| shape := [1; 1; 2; 1]; get := fun _ : list nat => 1%R |} in
  let d := {| shape := [1; 1; 2; 1]; get := fun _ : list nat => 5%R |} in
  let tw := ones [1; 1; 1; 2] in
  let e := {| basis_coefficients := [(0, 0)%Z] |} in
  let fn := fun (polar _ : ndarray val) => polar in
  exists w r (c : list nat -> nat -> nat -> nat -> R),
    _integrated_flux_weights (of_real f) (ones []) tw e fn 1 = Ok w /\
    _integrated_flux_upsampled (of_real d) (ones []) tw e fn 1 = Ok r /\
    get w [0; 0; 1; 0] = Num (c [] 0 0 1) /\
    get r [0] =
    Num (Rsum 1 (fun x => Rsum 1 (fun y => Rsum 2 (fun t => (c [] x y t * 5)%R)))).
Proof.
  intros f d tw e fn.
  destruct (@is_ok_inv _ (_integrated_flux_weights (of_real f) (ones []) tw e fn 1) eq_refl)
    as [w Hw].
  destruct (@weights_are_coefficients f d (ones []) tw e fn 1 w eq_refl Hw)
    as (r & c & Hc & Hr & Hv).
  exists w, r, c. split; [exact Hw|]. split; [exact Hr|]. split.
  - exact (Hc [] 0 0 1).
  - exact (Hv []).
Defined.

Lemma pipeline_checks_inv (sh : list nat) (wavelength transverse_wavevectors : ndarray val)
  (e : Expansion) (angle_bounds_fn : mask_fn) (u : Z) (plan : index_plan)
  (sel : ndarray val) :
  pipeline_checks sh wavelength transverse_wavevectors e angle_bounds_fn u = Ok (plan, sel) ->
  (1 <= u)%Z /\ flux_checks sh e = Ok plan /\
  selected_mask (length sh) wavelength transverse_wavevectors e angle_bounds_fn u = Ok sel.
Proof.
  unfold pipeline_checks.
  destruct (1 <=? u)%Z eqn:Eu; cbn [assert bind]; [|discriminate].
  destruct (flux_checks sh e) as [plan'|er]; cbn [bind]; [|discriminate].
  destruct (selected_mask _ _ _ _ _ _) as [sel'|er]; cbn [bind]; [|discriminate].
  intros H. injection H as <- <-.
  split; [apply Z.leb_le; exact Eu|]. split; reflexivity.
Qed.

(** What a returning call of [integrated_flux] on a real-valued flux computes:
    the masked sum of the upsampled flux, for the mask obtained from
    [angle_bounds_fn] with NaN read as false. *)
Lemma integrated_flux_value
  (f : ndarray R) (wavelength transverse_wavevectors : ndarray val) (e : Expansion)
  (angle_bounds_fn : mask_fn) (u : Z) (res : ndarray val) :
  integrated_flux (of_real f) wavelength transverse_wavevectors e angle_bounds_fn u = Ok res ->
  exists plan sel polar azimuthal,
    (1 <= u)%Z /\
    pipeline_checks (shape f) wavelength transverse_wavevectors e angle_bounds_fn u
    = Ok (plan, sel) /\
    (forall idx,
       get sel idx =
       if isnan (get (angle_bounds_fn polar azimuthal) idx) then Num 0
       else get (angle_bounds_fn polar azimuthal) idx) /\
    forall idx,
      get res idx =
      Num (direct_value plan (from_end 4 (shape f)) (from_end 3 (shape f)) (num_terms e)
                        u sel f (drop_last 1 idx) (from_end 1 idx)).
Proof.
  intros Hres.
  pose proof (integrated_flux_spec f wavelength transverse_wavevectors e angle_bounds_fn u)
    as HI.
  destruct (pipeline_checks (shape f) wavelength transverse_wavevectors e angle_bounds_fn u)
    as [[plan sel]|er] eqn:Echk; [|rewrite Hres in HI; discriminate].
  destruct (pipeline_checks_inv _ _ _ _ _ _ Echk) as (Hu & _ & Hsel).
  destruct (selected_mask_get _ _ _ _ _ _ Hsel) as (polar & azimuthal & Hmask).
  destruct HI as (bs & nx & ny & ns & w & r & Hsh & _ & _ & _ & _ & Hr & _ & Hrv).
  rewrite Hres in Hr. injection Hr as <-.
  exists plan, sel, polar, azimuthal.
  split; [exact Hu|]. split; [reflexivity|]. split; [exact Hmask|].
  intros idx. rewrite Hrv, Hsh. idx_simpl. unfold weighted_sum. rewrite linear_form.
  reflexivity.
Qed.

Lemma Rsum_list_nonneg (A : Type) (l : list A) (f : A -> R) :
  (forall a, In a l -> (0 <= f a)%R) -> (0 <= Rsum_list l f)%R.
Proof.
  induction l as [|a l IH]; intros Hf.
  - rewrite Rsum_list_nil. lra.
  - rewrite Rsum_list_cons.
    pose proof (Hf a (or_introl eq_refl)). pose proof (IH (fun b Hb => Hf b (or_intror Hb))).
    lra.
Qed.

Lemma Rsum_nonneg (n : nat) (f : nat -> R) :
  (forall i, (0 <= f i)%R) -> (0 <= Rsum n f)%R.
Proof. intros Hf. apply Rsum_list_nonneg. intros a _. apply Hf. Qed.

Lemma Rsum_zero (n : nat) (f : nat -> R) : (forall i, f i = 0%R) -> Rsum n f = 0%R.
Proof. intros Hf. apply Rsum_list_zero. intros a _. apply Hf. Qed.

Lemma triangle_kernel_nonneg (x : R) : (0 <= triangle_kernel x)%R.
Proof. unfold triangle_kernel. apply Rmax_l. Qed.

(** The resampling weights are never negative. *)
Lemma compute_weight_nonneg (n_in n_out x X : nat) : (0 <= compute_weight n_in n_out x X)%R.
Proof.
  unfold compute_weight.
  set (sample_f := ((INR X + / 2) * _ - / 2)%R).
  set (total := Rsum n_in _).
  assert (Htotal : (0 <= total)%R).
  { apply Rsum_nonneg. intros i. apply triangle_kernel_nonneg. }
  destruct (Rle_dec (- / 2) sample_f); [|lra].
  destruct (Rle_dec sample_f (INR n_in - / 2)); [|lra].
  destruct (Rlt_dec (1000 * float32_eps) (Rabs total)) as [Hlt|_]; [|lra].
  assert (Heps : (0 < float32_eps)%R).
  { unfold float32_eps. apply Rinv_0_lt_compat. apply pow_lt. lra. }
  rewrite Rabs_right in Hlt by lra.
  destruct (Req_dec_T total 0) as [E0|_]; [lra|].
  apply Rmult_le_pos; [apply triangle_kernel_nonneg|].
  left. apply Rinv_0_lt_compat. lra.
Qed.

Lemma contractR_nonneg (n_in n_out X : nat) (g : nat -> R) :
  (forall x, (0 <= g x)%R) -> (0 <= contractR n_in n_out X g)%R.
Proof.
  intros Hg. unfold contractR. destruct (n_in =? n_out); [apply Hg|].
  apply Rsum_nonneg. intros x. apply Rmult_le_pos; [apply Hg | apply compute_weight_nonneg].
Qed.

Lemma unflattened_value_nonneg (plan : index_plan) (nx ny nt : nat) (f : ndarray R)
  (b : list nat) (p s X Y : nat) :
  (forall idx, (0 <= get f idx)%R) ->
  (0 <= unflattened_value plan nx ny nt f b p s X Y)%R.
Proof.
  intros Hf. unfold unflattened_value.
  destruct (scatter_tags _ _ _ _ _ X Y) as [[[x y] k]|]; [apply Hf | lra].
Qed.

Lemma mask_weight_cases (sel : ndarray val) (b : list nat) (X Y : nat) :
  mask_weight sel b X Y = 0%R \/ mask_weight sel b X Y = 1%R.
Proof. unfold mask_weight. destruct (truthy _); [right | left]; reflexivity. Qed.

(** X15. A flux without negative entries never integrates to a negative value,
    whatever the mask and the upsampling factor: resampling weights, mask
    and gap filling are all non-negative. *)
Theorem integrated_flux_nonnegative
  (f : ndarray R) (wavelength transverse_wavevectors : ndarray val) (e : Expansion)
  (angle_bounds_fn : mask_fn) (u : Z) (res : ndarray val) :
  (forall idx, (0 <= get f idx)%R) ->
  integrated_flux (of_real f) wavelength transverse_wavevectors e angle_bounds_fn u = Ok res ->
  forall idx, exists r, get res idx = Num r /\ (0 <= r)%R.
Proof.
  intros Hf Hres idx.
  destruct (integrated_flux_value _ _ _ _ _ _ Hres)
    as (plan & sel & polar & azimuthal & Hu & _ & _ & Hval).
  eexists. split; [apply Hval|]. unfold direct_value.
  apply Rmult_le_pos.
  - apply Rsum_nonneg. intros X'. apply Rsum_nonneg. intros Y'. apply Rsum_nonneg. intros p.
    apply Rmult_le_pos.
    + destruct (mask_weight_cases sel (drop_last 1 idx) X' Y') as [-> | ->]; lra.
    + apply contractR_nonneg. intros X. apply contractR_nonneg. intros Y.
      apply unflattened_value_nonneg. exact Hf.
  - left. apply Rinv_0_lt_compat. apply IZR_lt. nia.
Qed.

Lemma integrated_flux_nonnegative_witness :
  let f := {| shape := [1; 1; 2; 1]; get := fun _ : list nat => 1%R |} in
  let tw := ones [1; 1; 1; 2] in
  let e := {| basis_coefficients := [(0, 0)%Z] |} in
  let fn := fun (polar _ : ndarray val) => polar in
  exists res r,
    integrated_flux (of_real f) (ones []) tw e fn 2 = Ok res /\
    get res [0] = Num r /\ (0 <= r)%R.
Proof.
  intros f tw e fn.
  destruct (@is_ok_inv _ (integrated_flux (of_real f) (ones []) tw e fn 2) eq_refl)
    as [res Hres].
  destruct (@integrated_flux_nonnegative f (ones []) tw e fn 2 res) with (idx := [0])
    as (r & Hr & Hpos).
  - intros idx. simpl. lra.
  - exact Hres.
  - exists res, r. split; [exact Hres|]. split; [exact Hr | exact Hpos].
Defined.

(** X16. A mask that selects nothing, with entries zero or NaN, gives an
    integrated flux of zero in every entry. *)
Theorem integrated_flux_empty_mask
  (f : ndarray R) (wavelength transverse_wavevectors : ndarray val) (e : Expansion)
  (angle_bounds_fn : mask_fn) (u : Z) (res : ndarray val) :
  (forall polar azimuthal idx,
     get (angle_bounds_fn polar azimuthal) idx = Num 0 \/
     get (angle_bounds_fn polar azimuthal) idx = NaN) ->
  integrated_flux (of_real f) wavelength transverse_wavevectors e angle_bounds_fn u = Ok res ->
  forall idx, get res idx = Num 0.
Proof.
  intros Hfn Hres idx.
  destruct (integrated_flux_value _ _ _ _ _ _ Hres)
    as (plan & sel & polar & azimuthal & Hu & _ & Hmask & Hval).
  rewrite Hval. f_equal. unfold direct_value.
  rewrite Rsum_zero; [unfold Rdiv; ring|].
  intros X'. apply Rsum_zero. intros Y'. apply Rsum_zero. intros p.
  unfold mask_weight. rewrite Hmask.
  destruct (Hfn polar azimuthal (drop_last 1 idx ++ [X'; Y'])) as [-> | ->];
    cbn [isnan]; rewrite truthy_zero; ring.
Qed.

Lemma integrated_flux_empty_mask_witness :
  let f := {| shape := [1; 1; 2; 1]; get := fun _ : list nat => 1%R |} in
  let tw := ones [1; 1; 1; 2] in
  let e := {| basis_coefficients := [(0, 0)%Z] |} in
  let fn := fun (_ _ : ndarray val) =>
              {| shape := [1; 1]; get := fun _ : list nat => NaN |} in
  exists res,
    integrated_flux (of_real f) (ones []) tw e fn 1 = Ok res /\ get res [0] = Num 0.
Proof.
  intros f tw e fn.
  destruct (@is_ok_inv _ (integrated_flux (of_real f) (ones []) tw e fn 1) eq_refl)
    as [res Hres].
  exists res. split; [exact Hres|].
  apply (@integrated_flux_empty_mask f (ones []) tw e fn 1 res); [|exact Hres].
  intros polar azimuthal idx. right. reflexivity.
Defined.

(** X17. With [upsample_factor = 1] nothing is resampled: the integrated flux is
    the sum of the unflattened flux, gaps counting as zero, over the bins
    that the mask selects and over both polarizations. *)
Theorem integrated_flux_no_upsampling
  (f : ndarray R) (wavelength transverse_wavevectors : ndarray val) (e : Expansion)
  (angle_bounds_fn : mask_fn) (res : ndarray val) :
  integrated_flux (of_real f) wavelength transverse_wavevectors e angle_bounds_fn 1 = Ok res ->
  exists plan sel,
    pipeline_checks (shape f) wavelength transverse_wavevectors e angle_bounds_fn 1
    = Ok (plan, sel) /\
    forall b s,
      get res (b ++ [s]) =
      Num (Rsum (out_H plan) (fun X => Rsum (out_W plan) (fun Y => Rsum 2 (fun p =>
             (mask_weight sel b X Y *
              unflattened_value plan (from_end 4 (shape f)) (from_end 3 (shape f))
                                (num_terms e) f b p s X Y)%R)))).
Proof.
  intros Hres.
  destruct (integrated_flux_value _ _ _ _ _ _ Hres)
    as (plan & sel & polar & azimuthal & _ & Hchk & _ & Hval).
  exists plan, sel. split; [exact Hchk|].
  intros b s. rewrite Hval. idx_simpl. f_equal. unfold direct_value, contractR.
  change (Z.to_nat 1) with 1. rewrite !Nat.mul_1_l, !Nat.eqb_refl.
  change (IZR (1 ^ 2)) with 1%R. unfold Rdiv. rewrite Rinv_1, Rmult_1_r. reflexivity.
Qed.

Lemma integrated_flux_no_upsampling_witness :
  let f := {| shape := [1; 1; 2; 1]; get := fun _ : list nat => 1%R |} in
  let tw := ones [1; 1; 1; 2] in
  let e := {| basis_coefficients := [(0, 0)%Z] |} in
  let fn := fun (polar _ : ndarray val) => polar in
  exists res plan sel,
    integrated_flux (of_real f) (ones []) tw e fn 1 = Ok res /\
    get res [0] =
    Num (Rsum (out_H plan) (fun X => Rsum (out_W plan) (fun Y => Rsum 2 (fun p =>
           (mask_weight sel [] X Y * unflattened_value plan 1 1 1 f [] p 0 X Y)%R)))).
Proof.
  intros f tw e fn.
  destruct (@is_ok_inv _ (integrated_flux (of_real f) (ones []) tw e fn 1) eq_refl)
    as [res Hres].
  destruct (@integrated_flux_no_upsampling f (ones []) tw e fn res Hres)
    as (plan & sel & _ & Hval).
  exists res, plan, sel. split; [exact Hres|]. exact (Hval [] 0).
Defined.

(** ** [farfield_profile] *)

(** X18. The first statement of [farfield_profile] reads [flux.shape[-2]]: a flux
    of rank below two raises IndexError, and a flux whose order axis does
    not have two entries per term raises AssertionError, before anything else
    is looked at. *)
Theorem farfield_profile_first_check
  (flux wavelength transverse_wavevectors : ndarray val) (e : Expansion) :
  (ndim flux < 2 ->
   farfield_profile flux wavelength transverse_wavevectors e = inl IndexError) /\
  (2 <= ndim flux -> from_end 2 (shape flux) <> 2 * num_terms e ->
   farfield_profile flux wavelength transverse_wavevectors e = inl (Raised AssertionError)).
Proof.
  unfold farfield_profile. split.
  - intros Hr. apply Nat.ltb_lt in Hr. rewrite Hr. reflexivity.
  - intros Hr Hne. apply Nat.ltb_ge in Hr. rewrite Hr.
    apply Nat.eqb_neq in Hne. rewrite Hne. reflexivity.
Qed.

Lemma farfield_profile_first_check_witness :
  farfield_profile (ones [4]) (ones []) (ones [1; 1; 1; 2])
                   {| basis_coefficients := [(0, 0)%Z] |} = inl IndexError /\
  farfield_profile (ones [1; 1; 3; 1]) (ones []) (ones [1; 1; 1; 2])
                   {| basis_coefficients := [(0, 0)%Z] |} = inl (Raised AssertionError).
Proof.
  split.
  - apply (proj1 (farfield_profile_first_check (ones [4]) (ones []) (ones [1; 1; 1; 2])
                    {| basis_coefficients := [(0, 0)%Z] |})).
    unfold ndim. simpl. lia.
  - apply (proj2 (farfield_profile_first_check (ones [1; 1; 3; 1]) (ones [])
                    (ones [1; 1; 1; 2]) {| basis_coefficients := [(0, 0)%Z] |})).
    + unfold ndim. simpl. lia.
    + unfold from_end, num_terms. simpl. lia.
Defined.

(** The steps behind a returning call of [farfield_profile]. *)
Lemma farfield_profile_inv
  (flux wavelength transverse_wavevectors : ndarray val) (e : Expansion) (p : profile) :
  farfield_profile flux wavelength transverse_wavevectors e = inr p ->
  exists gf gt wl,
    unflatten_transverse_wavevectors transverse_wavevectors e = Ok gt /\
    unflatten_flux flux e = Ok gf /\
    squeeze2 (atleast_nd wavelength (ndim flux - 2)) (ndim flux - 2 - 2) = Ok wl /\
    angles_from_unflattened_transverse_wavevectors gt wl
    = Ok (polar_angle p, azimuthal_angle p) /\
    solid_angle_from_unflattened_transverse_wavevectors gt wl = Ok (solid_angle p) /\
    shape (transformed_flux p) = shape gf /\
    forall idx,
      get (transformed_flux p) idx = vdiv (get gf idx) (get (solid_angle p) (drop_last 2 idx)).
Proof.
  unfold farfield_profile.
  destruct (ndim flux <? 2); [discriminate|].
  destruct (assert _) as [[]|er]; cbn [bind]; [|discriminate].
  destruct (unflatten_transverse_wavevectors transverse_wavevectors e) as [gt|er] eqn:Egt;
    cbn [bind]; [|discriminate].
  destruct (unflatten_flux flux e) as [gf|er] eqn:Egf; cbn [bind]; [|discriminate].
  destruct (squeeze2 _ _) as [wl|er] eqn:Esq; cbn [bind]; [|discriminate].
  destruct (angles_from_unflattened_transverse_wavevectors gt wl)
    as [[polar azimuthal]|er] eqn:Eang; cbn [bind]; [|discriminate].
  destruct (solid_angle_from_unflattened_transverse_wavevectors gt wl) as [sa|er] eqn:Esa;
    cbn [bind]; [|discriminate].
  intros H. apply (f_equal (fun r => match r with inr q => q | inl _ => p end)) in H.
  subst p. exists gf, gt, wl.
  split; [reflexivity|]. split; [reflexivity|]. split; [reflexivity|].
  split; [exact Eang|]. split; [exact Esa|]. split; [reflexivity|].
  intros idx. reflexivity.
Qed.

Lemma unflatten_flux_Ok_checks (flux : ndarray val) (e : Expansion) (g : ndarray val) :
  unflatten_flux flux e = Ok g ->
  exists plan,
    flux_checks (shape flux) e = Ok plan /\
    shape g = drop_last 4 (shape flux) ++
              [out_H plan; out_W plan; 2; from_end 1 (shape flux)] /\
    forall b X Y p s,
      get g (b ++ [X; Y; p; s]) =
      match scatter_tags (out_H plan) (out_W plan) (merged_i plan) (merged_j plan)
              (positions (from_end 4 (shape flux)) (from_end 3 (shape flux))
                         (num_terms e)) X Y with
      | Some (x, y, k) => get flux (b ++ [x; y; p * num_terms e + k; s])
      | None => NaN
      end.
Proof.
  intros Hg. pose proof (unflatten_flux_spec flux e) as Hs.
  destruct (flux_checks (shape flux) e) as [plan|er]; [|rewrite Hg in Hs; discriminate].
  destruct Hs as (g' & Hg' & Hsh & Hval). rewrite Hg in Hg'. apply Ok_inj in Hg'. subst g'.
  exists plan. split; [reflexivity|]. split; [exact Hsh | exact Hval].
Qed.

Lemma unflatten_transverse_wavevectors_Ok_checks
  (tw : ndarray val) (e : Expansion) (g : ndarray val) :
  unflatten_transverse_wavevectors tw e = Ok g ->
  exists plan,
    wavevector_checks (shape tw) e = Ok plan /\
    shape g = drop_last 4 (shape tw) ++ [out_H plan; out_W plan; from_end 1 (shape tw)] /\
    forall b X Y d,
      get g (b ++ [X; Y; d]) =
      match scatter_tags (out_H plan) (out_W plan) (merged_i plan) (merged_j plan)
              (positions (from_end 4 (shape tw)) (from_end 3 (shape tw))
                         (num_terms e)) X Y with
      | Some (x, y, k) => get tw (b ++ [x; y; k; d])
      | None => NaN
      end.
Proof.
  intros Hg. pose proof (unflatten_transverse_wavevectors_spec tw e) as Hs.
  destruct (wavevector_checks (shape tw) e) as [plan|er]; [|rewrite Hg in Hs; discriminate].
  destruct Hs as (g' & Hg' & Hsh & Hval). rewrite Hg in Hg'. apply Ok_inj in Hg'. subst g'.
  exists plan. split; [reflexivity|]. split; [exact Hsh | exact Hval].
Qed.



Lemma solid_angle_of_nan (tw wl sa : ndarray val) (idx : list nat) :
  solid_angle_from_unflattened_transverse_wavevectors tw wl = Ok sa ->
  get tw (idx ++ [0]) = NaN ->
  get sa idx = NaN.
Proof.
  unfold solid_angle_from_unflattened_transverse_wavevectors. intros Hsa E.
  destruct (3 <=? ndim tw); unfold assert, bind in Hsa; [|discriminate].
  remember (get sa idx) as v eqn:Ev.
  apply Ok_inj in Hsa. subst sa. unfold get at 1 in Ev.
  rewrite E, vdiv_NaN_l, vmul_NaN_l, vadd_NaN_l in Ev. cbn [vsqrt vasin vcos] in Ev.
  rewrite vdiv_NaN_r in Ev. exact Ev.
Qed.

Lemma angles_of_nan
  (transverse_wavevectors wavelength polar azimuthal : ndarray val) (idx : list nat) :
  angles_from_unflattened_transverse_wavevectors transverse_wavevectors wavelength
  = Ok (polar, azimuthal) ->
  get transverse_wavevectors (idx ++ [0]) = NaN ->
  get polar idx = NaN /\ get azimuthal idx = NaN.
Proof.
  intros Hang E.
  apply (@nan_wavevector_angles transverse_wavevectors wavelength polar azimuthal idx Hang).
  left. exact E.
Qed.

(** X20. Gaps in a farfield profile.  [farfield_profile] does not replace NaN: at
    a bin of the unflattened grid that no (sample, order) pair is mapped to,
    the polar angle, the azimuthal angle, the solid angle and the farfield
    power of every polarization and source are all NaN, at every batch
    index. *)
Theorem farfield_profile_gap_bins
  (f : ndarray R) (wavelength transverse_wavevectors : ndarray val) (e : Expansion)
  (p : profile) (gf : ndarray val) :
  from_end 4 (shape transverse_wavevectors) = from_end 4 (shape f) ->
  from_end 3 (shape transverse_wavevectors) = from_end 3 (shape f) ->
  farfield_profile (of_real f) wavelength transverse_wavevectors e = inr p ->
  unflatten_flux (of_real f) e = Ok gf ->
  forall b X Y pl s,
    get gf (b ++ [X; Y; pl; s]) = NaN ->
    forall b' pl' s',
      get (polar_angle p) (b' ++ [X; Y]) = NaN /\
      get (azimuthal_angle p) (b' ++ [X; Y]) = NaN /\
      get (solid_angle p) (b' ++ [X; Y]) = NaN /\
      get (transformed_flux p) (b' ++ [X; Y; pl'; s']) = NaN.
Proof.
  intros H4 H3 Hp Hgf b X Y pl s Hnan b' pl' s'.
  destruct (farfield_profile_inv _ _ _ _ Hp)
    as (gf' & gt & wl & Hgt & Hgf' & _ & Hang & Hsa & _ & Hget).
  rewrite Hgf in Hgf'. apply Ok_inj in Hgf'. subst gf'.
  destruct (unflatten_flux_Ok_checks _ _ Hgf) as (plan & Hchk & _ & Hval).
  destruct (unflatten_transverse_wavevectors_Ok_checks _ _ Hgt) as (plan' & Hchk' & _ & Hval').
  apply flux_checks_plan in Hchk. apply wavevector_checks_plan in Hchk'.
  change (shape (of_real f)) with (shape f) in Hchk, Hval.
  rewrite H4, H3, Hchk in Hchk'. apply Ok_inj in Hchk'. subst plan'.
  rewrite H4, H3 in Hval'.
  assert (Htag : scatter_tags (out_H plan) (out_W plan) (merged_i plan) (merged_j plan)
                   (positions (from_end 4 (shape f)) (from_end 3 (shape f)) (num_terms e))
                   X Y = None).
  { rewrite Hval in Hnan.
    destruct (scatter_tags _ _ _ _ _ X Y) as [[[x y] k]|]; [discriminate Hnan | reflexivity]. }
  assert (Hgt0 : get gt ((b' ++ [X; Y]) ++ [0]) = NaN).
  { rewrite <- app_assoc. cbn [app]. rewrite Hval', Htag. reflexivity. }
  destruct (@angles_of_nan gt wl (polar_angle p) (azimuthal_angle p) (b' ++ [X; Y]) Hang Hgt0)
    as [Hpol Haz].
  split; [exact Hpol|]. split; [exact Haz|].
  split; [exact (@solid_angle_of_nan gt wl (solid_angle p) (b' ++ [X; Y]) Hsa Hgt0)|].
  rewrite Hget, Hval, Htag. apply vdiv_NaN_l.
Qed.

Lemma farfield_profile_gap_bins_witness :
  let f := {| shape := [1; 1; 4; 1]; get := fun _ : list nat => 1%R |} in
  let tw := ones [1; 1; 2; 2] in
  let e := {| basis_coefficients := [(0, 0); (2, 0)]%Z |} in
  exists p,
    farfield_profile (of_real f) (ones []) tw e = inr p /\
    get (polar_angle p) [1; 0] = NaN /\
    get (solid_angle p) [1; 0] = NaN /\
    get (transformed_flux p) [1; 0; 0; 0] = NaN.
Proof.
  intros f tw e.
  assert (Hret : match farfield_profile (of_real f) (ones []) tw e with
                 | inr _ => True
                 | inl _ => False
                 end) by exact I.
  destruct (farfield_profile (of_real f) (ones []) tw e) as [ex|p] eqn:Hp; [destruct Hret|].
  destruct (@is_ok_inv _ (unflatten_flux (of_real f) e) eq_refl) as [gf Hgf].
  assert (Hnan : get gf ([] ++ [1; 0; 0; 0]) = NaN).
  { assert (E : isnan (match unflatten_flux (of_real f) e with
                       | Ok g0 => get g0 [1; 0; 0; 0]
                       | Err _ => Num 0
                       end) = true) by reflexivity.
    rewrite Hgf in E. cbn [app]. destruct (get gf [1; 0; 0; 0]); try discriminate E.
    reflexivity. }
  destruct (@farfield_profile_gap_bins f (ones []) tw e p gf eq_refl eq_refl Hp Hgf
              [] 1 0 0 0 Hnan [] 0 0) as (Hpol & _ & Hsa & Htf).
  exists p. split; [reflexivity|]. split; [exact Hpol|]. split; [exact Hsa | exact Htf].
Defined.

Lemma squeeze2_not_singleton (V : Type) (a : ndarray V) (ax : nat) :
  nth ax (shape a) 0 <> 1 \/ nth (S ax) (shape a) 0 <> 1 ->
  squeeze2 a ax = Err ValueError.
Proof.
  intros Hbad. unfold squeeze2.
  destruct ((S ax <? ndim a) && (nth ax (shape a) 0 =? 1)
            && (nth (S ax) (shape a) 0 =? 1))%bool eqn:E; [|reflexivity].
  apply andb_prop in E. destruct E as [E E2]. apply andb_prop in E. destruct E as [_ E1].
  apply Nat.eqb_eq in E1, E2. destruct Hbad; contradiction.
Qed.

(** X21. The wavelength must have singleton Brillouin-zone axes.  After padding to
    the batch rank of the flux, a wavelength whose axis [-2] or [-1] (the
    place of the Brillouin-zone axes of the flux) is longer than one makes
    [jnp.squeeze] raise ValueError, once both arrays are unflattened: in
    [farfield_profile] and in [_integrated_flux_upsampled] alike. *)
Theorem wavelength_brillouin_axes_not_singleton
  (flux wavelength transverse_wavevectors gf gt : ndarray val) (e : Expansion) :
  unflatten_flux flux e = Ok gf ->
  unflatten_transverse_wavevectors transverse_wavevectors e = Ok gt ->
  nth (ndim flux - 4) (shape (atleast_nd wavelength (ndim flux - 2))) 0 <> 1 \/
  nth (ndim flux - 3) (shape (atleast_nd wavelength (ndim flux - 2))) 0 <> 1 ->
  farfield_profile flux wavelength transverse_wavevectors e = inl (Raised ValueError) /\
  forall angle_bounds_fn u,
    (1 <= u)%Z ->
    _integrated_flux_upsampled flux wavelength transverse_wavevectors e angle_bounds_fn u
    = Err ValueError.
Proof.
  intros Hgf Hgt Hbad.
  destruct (unflatten_flux_Ok_checks _ _ Hgf) as (plan & Hchk & _ & _).
  destruct (unflatten_transverse_wavevectors_Ok_checks _ _ Hgt) as (plan' & Hchk' & Hsht & _).
  unfold flux_checks in Hchk.
  destruct (4 <=? length (shape flux)) eqn:E4; cbn [assert bind] in Hchk; [|discriminate].
  destruct (from_end 2 (shape flux) =? 2 * num_terms e) eqn:E2; cbn [assert bind] in Hchk;
    [|discriminate].
  apply Nat.leb_le in E4. fold (ndim flux) in E4.
  assert (Hsq : squeeze2 (atleast_nd wavelength (ndim flux - 2)) (ndim flux - 2 - 2)
                = Err ValueError).
  { apply squeeze2_not_singleton.
    replace (ndim flux - 2 - 2) with (ndim flux - 4) by lia.
    replace (S (ndim flux - 4)) with (ndim flux - 3) by lia. exact Hbad. }
  split.
  - unfold farfield_profile.
    replace (ndim flux <? 2) with false by (symmetry; apply Nat.ltb_ge; lia).
    rewrite E2. cbn [assert bind]. rewrite Hgt. cbn [bind]. rewrite Hgf. cbn [bind].
    rewrite Hsq. reflexivity.
  - intros angle_bounds_fn u Hu. unfold _integrated_flux_upsampled. rewrite tape_eq.
    replace (1 <=? u)%Z with true by (symmetry; apply Z.leb_le; exact Hu).
    cbn [assert bind]. rewrite Hgf. cbn [bind]. unfold selected_mask.
    rewrite Hgt. cbn [bind].
    unfold wavevector_checks in Hchk'.
    destruct (4 <=? length (shape transverse_wavevectors)); cbn [assert bind] in Hchk';
      [|discriminate].
    destruct ((from_end 2 (shape transverse_wavevectors) =? num_terms e)
              && (from_end 1 (shape transverse_wavevectors) =? 2))%bool eqn:Et;
      cbn [assert bind] in Hchk'; [|discriminate].
    apply andb_prop in Et. destruct Et as [_ Et]. apply Nat.eqb_eq in Et.
    change (shape (nan_to_zero gt)) with (shape gt). rewrite Hsht, Et. idx_simpl.
    cbn [Nat.eqb assert bind]. rewrite Hsq. reflexivity.
Qed.

Lemma wavelength_brillouin_axes_not_singleton_witness :
  let flux := ones [3; 1; 1; 2; 1] in
  let wavelength := ones [3] in
  let tw := ones [3; 1; 1; 1; 2] in
  let e := {| basis_coefficients := [(0, 0)%Z] |} in
  farfield_profile flux wavelength tw e = inl (Raised ValueError) /\
  _integrated_flux_upsampled flux wavelength tw e (fun polar _ => polar) 1 = Err ValueError.
Proof.
  intros flux wavelength tw e.
  destruct (@is_ok_inv _ (unflatten_flux flux e) eq_refl) as [gf Hgf].
  destruct (@is_ok_inv _ (unflatten_transverse_wavevectors tw e) eq_refl) as [gt Hgt].
  destruct (@wavelength_brillouin_axes_not_singleton flux wavelength tw gf gt e Hgf Hgt)
    as [Hprofile Hflux].
  - right. unfold ndim. simpl. lia.
  - split; [exact Hprofile|]. apply Hflux. lia.
Defined.

Lemma Rsum_list_le (A : Type) (l : list A) (f g : A -> R) :
  (forall a, (f a <= g a)%R) -> (Rsum_list l f <= Rsum_list l g)%R.
Proof.
  intros Hfg. induction l as [|a l IH].
  - rewrite !Rsum_list_nil. lra.
  - rewrite !Rsum_list_cons. pose proof (Hfg a). lra.
Qed.

Lemma Rsum_le (n : nat) (f g : nat -> R) :
  (forall i, (f i <= g i)%R) -> (Rsum n f <= Rsum n g)%R.
Proof. apply Rsum_list_le. Qed.

(** X22. Enlarging the mask cannot lower the integrated flux of a flux without
    negative entries: if every angle selected by the first mask function is
    selected by the second, each entry of the first result is at most the
    corresponding entry of the second. *)
Theorem integrated_flux_mask_monotone
  (f : ndarray R) (wavelength transverse_wavevectors : ndarray val) (e : Expansion)
  (fn1 fn2 : mask_fn) (u : Z) (r1 r2 : ndarray val) :
  (forall idx, (0 <= get f idx)%R) ->
  (forall polar azimuthal idx,
     isnan (get (fn1 polar azimuthal) idx) = false ->
     truthy (get (fn1 polar azimuthal) idx) = true ->
     isnan (get (fn2 polar azimuthal) idx) = false /\
     truthy (get (fn2 polar azimuthal) idx) = true) ->
  integrated_flux (of_real f) wavelength transverse_wavevectors e fn1 u = Ok r1 ->
  integrated_flux (of_real f) wavelength transverse_wavevectors e fn2 u = Ok r2 ->
  forall idx, exists v1 v2, get r1 idx = Num v1 /\ get r2 idx = Num v2 /\ (v1 <= v2)%R.
Proof.
  intros Hf Hsub H1 H2 idx.
  destruct (integrated_flux_value _ _ _ _ _ _ H1)
    as (plan1 & sel1 & _ & _ & Hu & Hchk1 & _ & Hval1).
  destruct (integrated_flux_value _ _ _ _ _ _ H2)
    as (plan2 & sel2 & _ & _ & _ & Hchk2 & _ & Hval2).
  destruct (pipeline_checks_inv _ _ _ _ _ _ Hchk1) as (_ & Hplan1 & Hsel1).
  destruct (pipeline_checks_inv _ _ _ _ _ _ Hchk2) as (_ & Hplan2 & Hsel2).
  rewrite Hplan1 in Hplan2. apply Ok_inj in Hplan2. subst plan2.
  destruct (selected_mask_inv _ _ _ _ _ _ Hsel1)
    as (g1 & wl1 & polar & azimuthal & Hg1 & Hwl1 & Hang1 & Hmask1).
  destruct (selected_mask_inv _ _ _ _ _ _ Hsel2)
    as (g2 & wl2 & polar2 & azimuthal2 & Hg2 & Hwl2 & Hang2 & Hmask2).
  rewrite Hg1 in Hg2. apply Ok_inj in Hg2. subst g2.
  rewrite Hwl1 in Hwl2. apply Ok_inj in Hwl2. subst wl2.
  rewrite Hang1 in Hang2. apply Ok_inj in Hang2.
  apply (f_equal fst) in Hang2 as Ep. apply (f_equal snd) in Hang2 as Ea.
  cbn [fst snd] in Ep, Ea. subst polar2 azimuthal2.
  eexists. eexists. split; [apply Hval1|]. split; [apply Hval2|].
  unfold direct_value. apply Rmult_le_compat_r.
  { left. apply Rinv_0_lt_compat. apply IZR_lt. nia. }
  apply Rsum_le. intros X'. apply Rsum_le. intros Y'. apply Rsum_le. intros p.
  apply Rmult_le_compat_r.
  { apply contractR_nonneg. intros X. apply contractR_nonneg. intros Y.
    apply unflattened_value_nonneg. exact Hf. }
  unfold mask_weight. rewrite Hmask1, Hmask2.
  specialize (Hsub polar azimuthal (drop_last 1 idx ++ [X'; Y'])).
  destruct (isnan (get (fn1 polar azimuthal) (drop_last 1 idx ++ [X'; Y']))) eqn:En1.
  - rewrite truthy_zero.
    match goal with |- context [truthy ?v] => destruct (truthy v) end; lra.
  - destruct (truthy (get (fn1 polar azimuthal) (drop_last 1 idx ++ [X'; Y']))) eqn:Et1.
    + destruct (Hsub eq_refl eq_refl) as [En2 Et2]. rewrite En2, Et2. lra.
    + match goal with |- context [truthy ?v] => destruct (truthy v) end; lra.
Qed.

Lemma integrated_flux_mask_monotone_witness :
  let f := {| shape := [1; 1; 2; 1]; get := fun _ : list nat => 1%R |} in
  let tw := ones [1; 1; 1; 2] in
  let e := {| basis_coefficients := [(0, 0)%Z] |} in
  let fn1 := fun (_ _ : ndarray val) =>
               {| shape := [1; 1]; get := fun _ : list nat => NaN |} in
  let fn2 := fun (_ _ : ndarray val) => ones [1; 1] in
  exists r1 r2 v1 v2,
    integrated_flux (of_real f) (ones []) tw e fn1 1 = Ok r1 /\
    integrated_flux (of_real f) (ones []) tw e fn2 1 = Ok r2 /\
    get r1 [0] = Num v1 /\ get r2 [0] = Num v2 /\ (v1 <= v2)%R.
Proof.
  intros f tw e fn1 fn2.
  destruct (@is_ok_inv _ (integrated_flux (of_real f) (ones []) tw e fn1 1) eq_refl)
    as [r1 H1].
  destruct (@is_ok_inv _ (integrated_flux (of_real f) (ones []) tw e fn2 1) eq_refl)
    as [r2 H2].
  destruct (@integrated_flux_mask_monotone f (ones []) tw e fn1 fn2 1 r1 r2) with (idx := [0])
    as (v1 & v2 & E1 & E2 & Hle).
  - intros idx. simpl. lra.
  - intros polar azimuthal idx Hn _. discriminate Hn.
  - exact H1.
  - exact H2.
  - exists r1, r2, v1, v2. repeat split; assumption.
Defined.

(** X23. The weights never look at the values of the flux, nor at its number of
    sources: two flux arrays that agree in shape up to the source axis get
    the same weights, and the same failures. *)
Theorem integrated_flux_weights_shape_only
  (flux1 flux2 wavelength transverse_wavevectors : ndarray val) (e : Expansion)
  (angle_bounds_fn : mask_fn) (u : Z) :
  drop_last 1 (shape flux1) = drop_last 1 (shape flux2) ->
  _integrated_flux_weights flux1 wavelength transverse_wavevectors e angle_bounds_fn u =
  _integrated_flux_weights flux2 wavelength transverse_wavevectors e angle_bounds_fn u.
Proof. intros Hsh. unfold _integrated_flux_weights. rewrite Hsh. reflexivity. Qed.

Lemma integrated_flux_weights_shape_only_witness :
  let flux1 := ones [1; 1; 2; 1] in
  let flux2 := {| shape := [1; 1; 2; 5]; get := fun _ : list nat => NaN |} in
  let tw := ones [1; 1; 1; 2] in
  let e := {| basis_coefficients := [(0, 0)%Z] |} in
  _integrated_flux_weights flux1 (ones []) tw e (fun polar _ => polar) 1 =
  _integrated_flux_weights flux2 (ones []) tw e (fun polar _ => polar) 1.
Proof.
  intros flux1 flux2 tw e.
  apply integrated_flux_weights_shape_only. reflexivity.
Defined.

(** X24. Shapes around a returning [integrated_flux] on a real-valued flux: the
    flux has rank at least four and two order entries per term, the weights
    have the shape of the flux with a single source, and the result keeps
    the batch axes and the source axis of the flux. *)
Theorem integrated_flux_shapes
  (f : ndarray R) (wavelength transverse_wavevectors : ndarray val) (e : Expansion)
  (angle_bounds_fn : mask_fn) (u : Z) (res : ndarray val) :
  integrated_flux (of_real f) wavelength transverse_wavevectors e angle_bounds_fn u = Ok res ->
  exists w bs nx ny ns,
    shape f = bs ++ [nx; ny; 2 * num_terms e; ns] /\
    0 < num_terms e /\
    (1 <= u)%Z /\
    _integrated_flux_weights (of_real f) wavelength transverse_wavevectors e
                             angle_bounds_fn u = Ok w /\
    shape w = bs ++ [nx; ny; 2 * num_terms e; 1] /\
    shape res = bs ++ [ns].
Proof.
  intros Hres.
  pose proof (integrated_flux_spec f wavelength transverse_wavevectors e angle_bounds_fn u)
    as HI.
  destruct (pipeline_checks (shape f) wavelength transverse_wavevectors e angle_bounds_fn u)
    as [[plan sel]|er] eqn:Echk; [|rewrite Hres in HI; discriminate].
  destruct (pipeline_checks_inv _ _ _ _ _ _ Echk) as (Hu & Hplan & _).
  destruct (flux_checks_Ok _ _ Hplan) as (bs' & nx' & ny' & ns' & Hsh' & _ & Hnt).
  destruct HI as (bs & nx & ny & ns & w & r & Hsh & _ & Hw & Hshw & _ & Hr & Hshr & _).
  rewrite Hres in Hr. apply Ok_inj in Hr. subst r.
  exists w, bs, nx, ny, ns.
  split; [exact Hsh|]. split; [exact Hnt|]. split; [exact Hu|].
  split; [exact Hw|]. split; [exact Hshw | exact Hshr].
Qed.

Lemma integrated_flux_shapes_witness :
  let f := {| shape := [7; 1; 1; 2; 3]; get := fun _ : list nat => 1%R |} in
  let tw := ones [7; 1; 1; 1; 2] in
  let e := {| basis_coefficients := [(0, 0)%Z] |} in
  let fn := fun (polar _ : ndarray val) => polar in
  exists res, integrated_flux (of_real f) (ones []) tw e fn 1 = Ok res /\ shape res = [7; 3].
Proof.
  intros f tw e fn.
  destruct (@is_ok_inv _ (integrated_flux (of_real f) (ones []) tw e fn 1) eq_refl)
    as [res Hres].
  destruct (@integrated_flux_shapes f (ones []) tw e fn 1 res Hres)
    as (w & bs & nx & ny & ns & Hsh & _ & _ & _ & _ & Hshr).
  exists res. split; [exact Hres|].
  change (shape f) with ([7] ++ [1; 1; 2 * 1; 3]) in Hsh.
  apply four_tail_inj in Hsh. destruct Hsh as (<- & _ & _ & _ & <-). exact Hshr.
Defined.

(** X25. Round trip through [unflatten_transverse_wavevectors] for pairwise
    distinct orders: component [d] of the wavevector of order [k] at sample
    [(x, y)] is found at the destination bin of [(x, y, k)], and the
    direction axis stays last. *)
Theorem unflatten_transverse_wavevectors_round_trip
  (tw : ndarray val) (e : Expansion) (bs : list nat) (nx ny : nat) :
  shape tw = bs ++ [nx; ny; num_terms e; 2] ->
  basis_coefficients e <> [] ->
  NoDup (basis_coefficients e) ->
  exists g min_i max_i min_j max_j,
    py_min (map fst (basis_coefficients e)) = Ok min_i /\
    py_max (map fst (basis_coefficients e)) = Ok max_i /\
    py_min (map snd (basis_coefficients e)) = Ok min_j /\
    py_max (map snd (basis_coefficients e)) = Ok max_j /\
    unflatten_transverse_wavevectors tw e = Ok g /\
    shape g = bs ++ [Z.to_nat ((max_i - min_i + 1) * Z.of_nat nx);
                     Z.to_nat ((max_j - min_j + 1) * Z.of_nat ny); 2] /\
    forall b x y k d, x < nx -> y < ny -> k < num_terms e ->
      get g (b ++ [Z.to_nat (order_i e k * Z.of_nat nx + Z.of_nat x - min_i * Z.of_nat nx);
                   Z.to_nat (order_j e k * Z.of_nat ny + Z.of_nat y - min_j * Z.of_nat ny);
                   d])
      = get tw (b ++ [x; y; k; d]).
Proof.
  intros Hshape Hne Hnd.
  destruct (@merged_indices_spec nx ny e Hne)
    as (plan & min_i & max_i & min_j & max_j & E1 & E2 & E3 & E4 & Eplan & EH & EW & _).
  pose proof (unflatten_transverse_wavevectors_spec tw e) as Hs.
  unfold wavevector_checks in Hs.
  rewrite Hshape in Hs. rewrite length_app in Hs.
  replace (4 <=? length bs + length [nx; ny; num_terms e; 2]) with true in Hs
    by (symmetry; apply Nat.leb_le; simpl; lia).
  revert Hs. idx_simpl. rewrite Nat.eqb_refl. cbn [Nat.eqb andb assert bind]. rewrite Eplan.
  intros (g & Hg & Hsh & Hval).
  exists g, min_i, max_i, min_j, max_j.
  split; [exact E1|]. split; [exact E2|]. split; [exact E3|]. split; [exact E4|].
  split; [exact Hg|]. split; [rewrite Hsh, EH, EW; reflexivity|].
  intros b x y k d Hx Hy Hk. rewrite Hval.
  rewrite (@scatter_tags_distinct nx ny e plan min_i min_j Hnd E1 E3 Eplan x y k Hx Hy Hk).
  reflexivity.
Qed.

Lemma unflatten_transverse_wavevectors_round_trip_witness :
  let e := {| basis_coefficients := [(0, 0); (1, 0)]%Z |} in
  let tw := {| shape := [1; 1; 2; 2];
               get := fun idx => Num (INR (10 * nth 2 idx 0 + nth 3 idx 0)) |} in
  exists g, unflatten_transverse_wavevectors tw e = Ok g /\ shape g = [2; 1; 2] /\
            get g [1; 0; 1] = Num (INR 11).
Proof.
  intros e tw.
  destruct (@unflatten_transverse_wavevectors_round_trip tw e [] 1 1 eq_refl)
    as (g & min_i & max_i & min_j & max_j & Ei & Ea & Ej & Eb & Hg & Hsh & Hval).
  - discriminate.
  - repeat constructor; simpl; intuition discriminate.
  - injection Ei as <-. injection Ea as <-. injection Ej as <-. injection Eb as <-.
    exists g. split; [exact Hg|]. split; [exact Hsh|].
    exact (Hval [] 0 0 1 1 (le_n 1) (le_n 1) (le_n 2)).
Defined.
